(** * zkSealevel off-chain core: a shallow embedding and its checked properties

    The development follows the TypeScript sources of the orchestrator
    ([crypto.ts], [errors.ts], [server.ts], [onchain.ts]) and of the indexer
    ([codec.ts], [index.ts]).  Part I holds the model, one module per
    source file; Part II holds the lemmas and the theorems about it. *)

From Stdlib Require Import ZArith NArith List Lia Bool String Ascii.
From Stdlib Require Import Strings.Byte.
From Stdlib Require DecimalString.
From Stdlib Require PrimFloat.
From Stdlib Require Import Sorting.Sorted Sorting.Permutation.
Import ListNotations.

Local Open Scope Z_scope.

#[local] Set Warnings "-register-all".

(* ===================================================================== *)
(** * Part I.  The model                                                  *)
(* ===================================================================== *)

(** ** Node's [Buffer] and [Uint8Array]

    A byte array is a [list byte]; an element is always in [0, 255], as in
    a [Uint8Array].  The read and write methods used by the sources are
    modelled by their contract: a store keeps the low eight bits, a write
    outside the integer range and a read past the end raise
    [ERR_OUT_OF_RANGE] (here [None]); [subarray] clamps. *)
Module Buf.

Definition bytes := list byte.

(** Storing a number into a [Uint8Array] slot keeps its low eight bits. *)
Definition byte_of_Z (z : Z) : byte :=
  match Byte.of_N (Z.to_N (z mod 256)) with
  | Some b => b
  | None => x00
  end.

Definition Z_of_byte (b : byte) : Z := Z.of_N (Byte.to_N b).

(** [Buffer.alloc(n, fill)] *)
Definition alloc (n : nat) (fill : byte) : bytes := repeat fill n.

(** [buf.subarray(start, start + len)]: clamped to the buffer. *)
Definition subarray (data : bytes) (start len : nat) : bytes :=
  firstn len (skipn start data).

(** The value of a little-endian byte string. *)
Fixpoint le_value (bs : bytes) : Z :=
  match bs with
  | [] => 0
  | b :: rest => Z_of_byte b + 256 * le_value rest
  end.

(** The [n] low bytes of [v], least significant first. *)
Fixpoint le_bytes (n : nat) (v : Z) : bytes :=
  match n with
  | O => []
  | S k => byte_of_Z v :: le_bytes k (Z.shiftr v 8)
  end.

(** [checkInt(value, min, max)] followed by the eight stores of
    [writeBigU_Int64LE]: the low word, then the high word. *)
Definition writeBigU_Int64LE (value min max : Z) : option bytes :=
  if (min <=? value) && (value <=? max) then
    let lo := Z.land value 0xffffffff in
    let hi := Z.land (Z.shiftr value 32) 0xffffffff in
    Some (le_bytes 4 lo ++ le_bytes 4 hi)
  else None.

Definition writeBigUInt64LE (value : Z) : option bytes :=
  writeBigU_Int64LE value 0 0xffffffffffffffff.

Definition writeBigInt64LE (value : Z) : option bytes :=
  writeBigU_Int64LE value (- 0x8000000000000000) 0x7fffffffffffffff.

Definition writeUInt32LE (value : Z) : option bytes :=
  if (0 <=? value) && (value <=? 0xffffffff) then Some (le_bytes 4 value)
  else None.

(** Reads: the [width] bytes at [offset], or a range error. *)
Definition read_bytes (data : bytes) (offset width : nat) : option bytes :=
  let s := subarray data offset width in
  if Nat.eqb (List.length s) width then Some s else None.

Definition readUInt8 (data : bytes) (offset : nat) : option Z :=
  option_map le_value (read_bytes data offset 1).

Definition readUInt32LE (data : bytes) (offset : nat) : option Z :=
  option_map le_value (read_bytes data offset 4).

Definition readBigUInt64LE (data : bytes) (offset : nat) : option Z :=
  option_map le_value (read_bytes data offset 8).

(** Two's complement reading of a 64-bit value. *)
Definition to_int64 (u : Z) : Z :=
  if u <? 0x8000000000000000 then u else u - 0x10000000000000000.

Definition readBigInt64LE (data : bytes) (offset : nat) : option Z :=
  option_map (fun u => to_int64 (le_value u)) (read_bytes data offset 8).

(** [buf.toString("hex")]: two lower-case digits per byte. *)
Definition hex_digit (n : Z) : ascii :=
  if n <? 10 then ascii_of_N (Z.to_N (48 + n))
  else ascii_of_N (Z.to_N (87 + n)).

Definition hex_hi (b : byte) : ascii := hex_digit (Z.shiftr (Z_of_byte b) 4).
Definition hex_lo (b : byte) : ascii := hex_digit (Z.land (Z_of_byte b) 15).

Fixpoint toString_hex (bs : bytes) : string :=
  match bs with
  | [] => EmptyString
  | b :: rest => String (hex_hi b) (String (hex_lo b) (toString_hex rest))
  end.

(** [Buffer.from(text, "utf8")] for text made of ASCII characters. *)
Definition from_ascii (s : string) : bytes := list_byte_of_string s.

(** [s.slice(from, to)] on a string, for [0 <= from <= to]. *)
Definition slice (s : string) (from to : nat) : string :=
  substring from (to - from) s.

(** [s.slice(from)] *)
Definition slice_from (s : string) (from : nat) : string :=
  substring from (String.length s - from) s.

End Buf.

(** ** SHA-256 ([node:crypto]'s [createHash("sha256")])

    The discriminators are prefixes of SHA-256 digests, so the hash is
    written out after FIPS 180-4, on 32-bit words held in [Z]. *)
Module Sha256.
Import Buf.

Definition word (x : Z) : Z := x mod 4294967296.
Definition plus32 (x y : Z) : Z := word (x + y).
Definition rot (n x : Z) : Z :=
  Z.lor (Z.shiftr x n) (word (Z.shiftl x (32 - n))).
Definition neg32 (x : Z) : Z := Z.lxor x 4294967295.

Definition choose (e f g : Z) : Z :=
  Z.lxor (Z.land e f) (Z.land (neg32 e) g).
Definition majority (a b c : Z) : Z :=
  Z.lxor (Z.lxor (Z.land a b) (Z.land a c)) (Z.land b c).
Definition big0 (a : Z) : Z := Z.lxor (Z.lxor (rot 2 a) (rot 13 a)) (rot 22 a).
Definition big1 (e : Z) : Z := Z.lxor (Z.lxor (rot 6 e) (rot 11 e)) (rot 25 e).
Definition small0 (x : Z) : Z :=
  Z.lxor (Z.lxor (rot 7 x) (rot 18 x)) (Z.shiftr x 3).
Definition small1 (x : Z) : Z :=
  Z.lxor (Z.lxor (rot 17 x) (rot 19 x)) (Z.shiftr x 10).

(** Round constants: the first 32 fractional bits of the cube roots of
    the first 64 primes (checked by [round_constants_are_cube_roots]). *)
Definition round_constants : list Z :=
  [ 1116352408; 1899447441; 3049323471; 3921009573; 961987163; 1508970993;
    2453635748; 2870763221; 3624381080; 310598401; 607225278; 1426881987;
    1925078388; 2162078206; 2614888103; 3248222580; 3835390401; 4022224774;
    264347078; 604807628; 770255983; 1249150122; 1555081692; 1996064986;
    2554220882; 2821834349; 2952996808; 3210313671; 3336571891; 3584528711;
    113926993; 338241895; 666307205; 773529912; 1294757372; 1396182291;
    1695183700; 1986661051; 2177026350; 2456956037; 2730485921; 2820302411;
    3259730800; 3345764771; 3516065817; 3600352804; 4094571909; 275423344;
    430227734; 506948616; 659060556; 883997877; 958139571; 1322822218;
    1537002063; 1747873779; 1955562222; 2024104815; 2227730452; 2361852424;
    2428436474; 2756734187; 3204031479; 3329325298 ].

Definition first_primes : list Z :=
  [ 2; 3; 5; 7; 11; 13; 17; 19; 23; 29; 31; 37; 41; 43; 47; 53; 59; 61; 67;
    71; 73; 79; 83; 89; 97; 101; 103; 107; 109; 113; 127; 131; 137; 139;
    149; 151; 157; 163; 167; 173; 179; 181; 191; 193; 197; 199; 211; 223;
    227; 229; 233; 239; 241; 251; 257; 263; 269; 271; 277; 281; 283; 293;
    307; 311 ].

(** Initial hash value: the first 32 fractional bits of the square roots
    of the first eight primes. *)
Definition initial_hash : list Z :=
  map (fun p => word (Z.sqrt (p * 2 ^ 64))) (firstn 8 first_primes).

(** [k] is the 32-bit fraction of the cube root of [p]. *)
Definition is_cube_root_fraction (p k : Z) : bool :=
  existsb
    (fun i =>
       let r := i * 4294967296 + k in
       (r * r * r <=? p * 2 ^ 96) && (p * 2 ^ 96 <? (r + 1) * (r + 1) * (r + 1)))
    [1; 2; 3; 4; 5; 6].

Definition be_value (bs : bytes) : Z :=
  fold_left (fun acc b => acc * 256 + Z_of_byte b) bs 0.

Definition be_bytes (n : nat) (v : Z) : bytes := rev (le_bytes n v).

(** Cut a list into pieces of [k] elements. *)
Fixpoint pieces {A} (fuel k : nat) (l : list A) : list (list A) :=
  match fuel, l with
  | O, _ | _, [] => []
  | S f, _ => firstn k l :: pieces f k (skipn k l)
  end.

(** Padding: a one bit, zeros up to 56 modulo 64, the bit length. *)
Definition pad (msg : bytes) : bytes :=
  let len := Z.of_nat (List.length msg) in
  msg ++ x80 :: repeat x00 (Z.to_nat ((55 - len) mod 64)) ++ be_bytes 8 (8 * len).

(** The message schedule, most recent word first. *)
Fixpoint extend (n : nat) (rw : list Z) : list Z :=
  match n with
  | O => rw
  | S k =>
      let wt :=
        plus32 (plus32 (small1 (nth 1 rw 0)) (nth 6 rw 0))
               (plus32 (small0 (nth 14 rw 0)) (nth 15 rw 0)) in
      extend k (wt :: rw)
  end.

Definition schedule (block : bytes) : list Z :=
  rev (extend 48 (rev (map be_value (pieces 16 4 block)))).

Record vars := mk_vars { va : Z; vb : Z; vc : Z; vd : Z; ve : Z; vf : Z; vg : Z; vh : Z }.

Definition round (v : vars) (kw : Z * Z) : vars :=
  let t1 := plus32 (plus32 (plus32 (vh v) (big1 (ve v)))
                           (plus32 (choose (ve v) (vf v) (vg v)) (fst kw)))
                   (snd kw) in
  let t2 := plus32 (big0 (va v)) (majority (va v) (vb v) (vc v)) in
  mk_vars (plus32 t1 t2) (va v) (vb v) (vc v) (plus32 (vd v) t1) (ve v) (vf v) (vg v).

Definition compress (h : vars) (block : bytes) : vars :=
  let v := fold_left round (combine round_constants (schedule block)) h in
  mk_vars (plus32 (va h) (va v)) (plus32 (vb h) (vb v)) (plus32 (vc h) (vc v))
          (plus32 (vd h) (vd v)) (plus32 (ve h) (ve v)) (plus32 (vf h) (vf v))
          (plus32 (vg h) (vg v)) (plus32 (vh h) (vh v)).

Definition vars_of_list (l : list Z) : vars :=
  mk_vars (nth 0 l 0) (nth 1 l 0) (nth 2 l 0) (nth 3 l 0)
          (nth 4 l 0) (nth 5 l 0) (nth 6 l 0) (nth 7 l 0).

Definition list_of_vars (v : vars) : list Z :=
  [va v; vb v; vc v; vd v; ve v; vf v; vg v; vh v].

(** [createHash("sha256").update(msg).digest()] *)
Definition digest (msg : bytes) : bytes :=
  let padded := pad msg in
  let blocks := pieces (List.length padded) 64 padded in
  List.concat (map (be_bytes 4)
              (list_of_vars (fold_left compress blocks (vars_of_list initial_hash)))).

End Sha256.

(** ** JavaScript strings

    A JavaScript string is a sequence of UTF-16 code units.  Text that
    the sources build from hexadecimal or base-58 digits only is kept as
    a Rocq [string]. *)
Module Js.

Definition str := list N.

(** A literal made of ASCII characters. *)
Definition lit (s : string) : str := map N_of_ascii (list_ascii_of_string s).

Definition eqb (a b : str) : bool :=
  if list_eq_dec N.eq_dec a b then true else false.

(** The order of [Array.prototype.sort] without a comparator, and of
    [<] on strings: lexicographic on code units. *)
Fixpoint compare (a b : str) : comparison :=
  match a, b with
  | [], [] => Eq
  | [], _ :: _ => Lt
  | _ :: _, [] => Gt
  | x :: a', y :: b' =>
      match N.compare x y with
      | Eq => compare a' b'
      | c => c
      end
  end.

Definition leb (a b : str) : bool :=
  match compare a b with Gt => false | _ => true end.

Definition ltb (a b : str) : bool :=
  match compare a b with Lt => true | _ => false end.

(** [Array.prototype.sort()] on strings.  The order is total and two
    strings compare equal only when they are the same, so the result
    does not depend on the engine's algorithm; insertion is used. *)
Fixpoint insert (k : str) (l : list str) : list str :=
  match l with
  | [] => [k]
  | h :: t => if leb k h then k :: l else h :: insert k t
  end.

Definition sort (l : list str) : list str := fold_right insert [] l.

(** A value that may be [undefined]. *)
Definition maybe := option str.

(** [Array.prototype.join]: [undefined] elements render as empty. *)
Fixpoint join (sep : str) (l : list maybe) : str :=
  match l with
  | [] => []
  | [x] => match x with Some s => s | None => [] end
  | x :: rest =>
      (match x with Some s => s | None => [] end) ++ sep ++ join sep rest
  end.

(** String concatenation with [+] converts [undefined] to its name. *)
Definition to_string (x : maybe) : str :=
  match x with Some s => s | None => lit "undefined" end.

Definition is_high_surrogate (c : N) : bool := (0xD800 <=? c)%N && (c <=? 0xDBFF)%N.
Definition is_low_surrogate (c : N) : bool := (0xDC00 <=? c)%N && (c <=? 0xDFFF)%N.

Definition hex4 (c : N) : str :=
  map (fun sh => N_of_ascii (Buf.hex_digit (Z.of_N (N.land (N.shiftr c sh) 15))))
      [12; 8; 4; 0]%N.

(** [\uXXXX] *)
Definition unicode_escape (c : N) : str := lit "\u" ++ hex4 c.

(** The body of [QuoteJSONString]: the two-character escapes, [\u]
    escapes for control characters and lone surrogates, everything
    else verbatim. *)
Fixpoint quote_body (s : str) : str :=
  match s with
  | [] => []
  | c :: rest =>
      if (c =? 8)%N then lit "\b" ++ quote_body rest
      else if (c =? 9)%N then lit "\t" ++ quote_body rest
      else if (c =? 10)%N then lit "\n" ++ quote_body rest
      else if (c =? 12)%N then lit "\f" ++ quote_body rest
      else if (c =? 13)%N then lit "\r" ++ quote_body rest
      else if (c =? 34)%N then [92; 34]%N ++ quote_body rest
      else if (c =? 92)%N then [92; 92]%N ++ quote_body rest
      else if (c <? 32)%N then unicode_escape c ++ quote_body rest
      else if is_high_surrogate c then
        match rest with
        | d :: rest' =>
            if is_low_surrogate d then c :: d :: quote_body rest'
            else unicode_escape c ++ quote_body rest
        | [] => unicode_escape c
        end
      else if is_low_surrogate c then unicode_escape c ++ quote_body rest
      else c :: quote_body rest
  end.

(** [JSON.stringify(s)] for a string [s]. *)
Definition JSON_stringify_string (s : str) : str :=
  [34%N] ++ quote_body s ++ [34%N].

End Js.

(** ** [orchestrator/src/crypto.ts] *)
Module Crypto.
Import Buf.

(** Failure propagation: a [None] is a thrown exception. *)
Notation "'do' x <- e1 ; e2" :=
  (match e1 with Some x => e2 | None => None end)
    (at level 10, x name, e1 at level 100, e2 at level 200, only parsing).

(** [buf.writeUInt8(value, offset)] on an existing buffer. *)
Definition writeUInt8 (b : bytes) (value : Z) (offset : nat) : option bytes :=
  if (0 <=? value) && (value <=? 255) && Nat.ltb offset (List.length b) then
    Some (firstn offset b ++ byte_of_Z value :: skipn (S offset) b)
  else None.

Definition u64le (n : Z) : option bytes := writeBigUInt64LE n.
Definition i64le (n : Z) : option bytes := writeBigInt64LE n.

(** [n >>> 0] on an integral number. *)
Definition to_uint32 (n : Z) : Z := n mod 4294967296.

Definition u32le (n : Z) : option bytes := writeUInt32LE (to_uint32 n).

(** [sha256_8]: the first eight bytes of the digest of a label. *)
Definition sha256_8 (s : string) : bytes :=
  subarray (Sha256.digest (from_ascii s)) 0 8.

Definition isHexChar (c : ascii) : bool :=
  let n := N_of_ascii c in
  ((48 <=? n) && (n <=? 57) || (97 <=? n) && (n <=? 102)
   || (65 <=? n) && (n <=? 70))%N.

(** [/^[0-9a-fA-F]{64}$/.test(s)] *)
Definition isHex32 (s : string) : bool :=
  Nat.eqb (String.length s) 64 && forallb isHexChar (list_ascii_of_string s).

Definition toLowerChar (c : ascii) : ascii :=
  let n := N_of_ascii c in
  if ((65 <=? n) && (n <=? 90))%N then ascii_of_N (n + 32) else c.

Definition normalizeHex32 (s : string) : option string :=
  if isHex32 s then
    Some (string_of_list_ascii (map toLowerChar (list_ascii_of_string s)))
  else None.

(** The dashed 8-4-4-4-12 rendering shared by [uuidFromHash32] and the
    indexer's [uuidFrom16]. *)
Definition dashed (hex : string) : string :=
  (slice hex 0 8 ++ "-" ++ slice hex 8 12 ++ "-" ++ slice hex 12 16 ++ "-"
     ++ slice hex 16 20 ++ "-" ++ slice_from hex 20)%string.

Definition uuidFromHash32 (hash : bytes) : option string :=
  if Nat.ltb (List.length hash) 16 then None
  else
    let b := subarray hash 0 16 in
    do b6 <- readUInt8 b 6;
    do b <- writeUInt8 b (Z.lor (Z.land b6 0x0f) 0x40) 6;
    do b8 <- readUInt8 b 8;
    do b <- writeUInt8 b (Z.lor (Z.land b8 0x3f) 0x80) 8;
    Some (dashed (toString_hex b)).

Record AnchorProofArgs := {
  artifactId : bytes;
  proofHash32 : bytes;
  seqLe : bytes;
  startLe : bytes;
  endLe : bytes;
  artifactLen : Z;
  stateRootBefore : bytes;
  stateRootAfter : bytes;
  aggregatorPubkey : bytes;
  timestampLe : bytes;
  dsHash32 : bytes
}.

Definition encodeAnchorProofArgsBorsh (params : AnchorProofArgs) : option bytes :=
  let disc := sha256_8 "global:anchor_proof" in
  do len <- u32le (artifactLen params);
  let payload :=
    List.concat
      [ artifactId params;
        proofHash32 params;
        seqLe params;
        startLe params;
        endLe params;
        len;
        stateRootBefore params;
        stateRootAfter params;
        aggregatorPubkey params;
        timestampLe params;
        dsHash32 params ] in
  Some (List.concat [disc; payload]).

Record DSParams := {
  chainId : Z;
  programId : bytes;
  proofHash : bytes;
  startSlot : Z;
  endSlot : Z;
  seq : Z
}.

Record DSResult := { ds : bytes; dsHash : bytes }.

(** The local [enc64] of [buildDS]. *)
Definition enc64 (n : Z) : option bytes := writeBigUInt64LE n.

Section WithBlake3.
(** The [blake3] package's [hash]. *)
Variable blake3hash : bytes -> bytes.

Definition buildDS (params : DSParams) : option DSResult :=
  do c <- enc64 (chainId params);
  do s <- enc64 (startSlot params);
  do e <- enc64 (endSlot params);
  do q <- enc64 (seq params);
  let ds :=
    List.concat
      [ from_ascii "zKSL/anchor/v1";
        c;
        programId params;
        proofHash params;
        s;
        e;
        q ] in
  Some {| ds := ds; dsHash := blake3hash ds |}.
End WithBlake3.

Section WithNumbers.
(** Numbers are kept abstract; [JSON.stringify] of a number is a
    parameter (it is [null] for NaN and the infinities, the shortest
    round-tripping literal otherwise). *)
Variable number : Type.
Variable JSON_stringify_number : number -> Js.str.

(** The values [canonicalize] can meet.  An object is the list of its
    own enumerable properties, in the order of [Object.keys]; a
    property may hold [undefined].  [Function] stands for the values
    (functions, symbols) that [JSON.stringify] renders as
    [undefined]. *)
Inductive value :=
| Undefined
| Null
| Boolean (b : bool)
| Number (n : number)
| String (s : Js.str)
| Array (items : list value)
| Object (props : list (Js.str * value))
| Function.

Definition is_undefined (v : value) : bool :=
  match v with Undefined => true | _ => false end.

(** [obj[k]] for an own property of a plain object. *)
Fixpoint get {A} (k : Js.str) (props : list (Js.str * A)) : option A :=
  match props with
  | [] => None
  | (k', v) :: rest => if Js.eqb k k' then Some v else get k rest
  end.

Definition object_keys {A} (props : list (Js.str * A)) : list Js.str :=
  map fst props.

(** The predicate given to [filter]. *)
Definition keep (props : list (Js.str * value)) (k : Js.str) : bool :=
  match get k props with
  | Some v => negb (is_undefined v)
  | None => false
  end
  && negb (Js.eqb k (Js.lit "__proto__"))
  && negb (Js.eqb k (Js.lit "constructor"))
  && negb (Js.eqb k (Js.lit "prototype")).

(** [Object.keys(obj).filter(...).sort()] *)
Definition canonical_keys (props : list (Js.str * value)) : list Js.str :=
  Js.sort (filter (keep props) (object_keys props)).

(** [stringifyCanonical]; the result may be [undefined] as in the
    source, where the last line returns [JSON.stringify(v)].  The
    recursive calls on the property values are made on the property
    list, and [obj[k]] then reads the rendered value of key [k]. *)
Fixpoint stringifyCanonical (v : value) : Js.maybe :=
  match v with
  | Null => Some (Js.lit "null")
  | Number n => Some (JSON_stringify_number n)
  | Boolean b => Some (Js.lit (if b then "true" else "false"))
  | String s => Some (Js.JSON_stringify_string s)
  | Array items =>
      Some (Js.lit "[" ++ Js.join (Js.lit ",") (map stringifyCanonical items)
              ++ Js.lit "]")
  | Object props =>
      let rendered :=
        map (fun kv => match kv with (k, x) => (k, stringifyCanonical x) end)
            props in
      let entries :=
        map (fun k =>
               Some (Js.JSON_stringify_string k ++ Js.lit ":"
                       ++ Js.to_string
                            (match get k rendered with
                             | Some r => r
                             | None => None
                             end)))
            (canonical_keys props) in
      Some (Js.lit "{" ++ Js.join (Js.lit ",") entries ++ Js.lit "}")
  | Undefined | Function => None
  end.

Definition canonicalize (v : value) : Js.maybe := stringifyCanonical v.
End WithNumbers.

Arguments Undefined {number}.
Arguments Null {number}.
Arguments Boolean {number}.
Arguments Number {number}.
Arguments String {number}.
Arguments Array {number}.
Arguments Object {number}.
Arguments Function {number}.
Arguments is_undefined {number}.
Arguments keep {number}.
Arguments canonical_keys {number}.
Arguments stringifyCanonical {number}.
Arguments canonicalize {number}.

End Crypto.

(** ** [indexer/src/codec.ts] *)
Module Codec.
Import Buf.
Import Crypto (dashed).

Notation "'do' x <- e1 ; e2" :=
  (match e1 with Some x => e2 | None => None end)
    (at level 10, x name, e1 at level 100, e2 at level 200, only parsing).

(** *** The [bs58] package *)
Definition alphabet : list ascii :=
  list_ascii_of_string "123456789ABCDEFGHJKLMNPQRSTUVWXYZabcdefghijkmnopqrstuvwxyz".

Fixpoint leading_zeroes (bs : bytes) : nat :=
  match bs with
  | x00 :: rest => S (leading_zeroes rest)
  | _ => O
  end.

Fixpoint digits58 (fuel : nat) (n : Z) (acc : list ascii) : list ascii :=
  match fuel with
  | O => acc
  | S f =>
      if n <=? 0 then acc
      else digits58 f (n / 58) (nth (Z.to_nat (n mod 58)) alphabet "1"%char :: acc)
  end.

(** [bs58.encode]: one ['1'] per leading zero byte, then the digits of
    the remaining bytes read as a big-endian number. *)
Definition bs58_encode (bs : bytes) : string :=
  let z := leading_zeroes bs in
  string_of_list_ascii
    (repeat "1"%char z
       ++ digits58 (2 * List.length bs) (Sha256.be_value (skipn z bs)) []).

(** [BigInt.prototype.toString()] of a non-negative value. *)
Definition decimal (n : Z) : string :=
  DecimalString.NilZero.string_of_uint (N.to_uint (Z.to_N n)).

Record DecodedProofRecord := {
  artifact_id : string;
  start_slot : Z;
  end_slot : Z;
  proof_hash : bytes;
  artifact_len : Z;
  state_root_before : bytes;
  state_root_after : bytes;
  submitted_by : string;
  aggregator_pubkey : string;
  timestamp : Z;
  seq : Z;
  ds_hash : bytes
}.

Inductive Status := Active | Unlocked.

(** [Number(n)] for a bigint below 2^1024 in absolute value: the
    nearest binary64 float, ties to the even significand.  The float
    is an integer; the model keeps it as one. *)
Definition Number_of_bigint (n : Z) : Z :=
  let a := Z.abs n in
  if a <? 2 ^ 53 then n
  else
    let step := 2 ^ (Z.log2 a - 52) in
    let q := a / step in
    let r := a mod step in
    let q := if (2 * r >? step) || ((2 * r =? step) && Z.odd q) then q + 1 else q in
    Z.sgn n * (q * step).

(** [lock_ts] is a number, [Number(bigint)]: the integer value of the
    float. *)
Record DecodedValidatorRecord := {
  pubkey : string;
  escrow : string;
  lock_ts : Z;
  status : Status;
  num_accepts : string
}.

Definition uuidFrom16 (b : bytes) : string := dashed (toString_hex b).

Definition decodeProofRecord (data : bytes) : option DecodedProofRecord :=
  let o := 8%nat in
  let artifactId := subarray data o 16 in
  let o := (o + 16)%nat in
  do start <- readBigUInt64LE data o;
  let o := (o + 8)%nat in
  do end_ <- readBigUInt64LE data o;
  let o := (o + 8)%nat in
  let proofHash := subarray data o 32 in
  let o := (o + 32)%nat in
  do artLen <- readUInt32LE data o;
  let o := (o + 4)%nat in
  let srb := subarray data o 32 in
  let o := (o + 32)%nat in
  let sra := subarray data o 32 in
  let o := (o + 32)%nat in
  let submittedBy := bs58_encode (subarray data o 32) in
  let o := (o + 32)%nat in
  let aggregator := bs58_encode (subarray data o 32) in
  let o := (o + 32)%nat in
  do ts <- readBigInt64LE data o;
  let o := (o + 8)%nat in
  do seq <- readBigUInt64LE data o;
  let o := (o + 8)%nat in
  let dsHash := subarray data o 32 in
  Some {| artifact_id := uuidFrom16 artifactId;
          start_slot := start;
          end_slot := end_;
          proof_hash := proofHash;
          artifact_len := artLen;
          state_root_before := srb;
          state_root_after := sra;
          submitted_by := submittedBy;
          aggregator_pubkey := aggregator;
          timestamp := ts;
          seq := seq;
          ds_hash := dsHash |}.

Definition decodeValidatorRecord (data : bytes) : option DecodedValidatorRecord :=
  let o := 8%nat in
  let validator := bs58_encode (subarray data o 32) in
  let o := (o + 32)%nat in
  let escrow := bs58_encode (subarray data o 32) in
  let o := (o + 32)%nat in
  do lock_ts <- readBigInt64LE data o;
  let o := (o + 8)%nat in
  do status_u8 <- readUInt8 data o;
  let o := (o + 1)%nat in
  let status := if status_u8 =? 0 then Active else Unlocked in
  do num_accepts <- readBigUInt64LE data o;
  Some {| pubkey := validator;
          escrow := escrow;
          lock_ts := Number_of_bigint lock_ts;
          status := status;
          num_accepts := decimal num_accepts |}.

End Codec.

(** ** UTF-8: [Buffer.from(text, "utf8")] on a JavaScript string

    A surrogate pair encodes one code point in four bytes; a lone
    surrogate is replaced by U+FFFD. *)
Module Utf8.
Import Buf.

Definition encode_code_point (c : Z) : bytes :=
  if c <? 0x80 then [byte_of_Z c]
  else if c <? 0x800 then
    [byte_of_Z (Z.lor 0xC0 (Z.shiftr c 6)); byte_of_Z (Z.lor 0x80 (Z.land c 0x3F))]
  else if c <? 0x10000 then
    [byte_of_Z (Z.lor 0xE0 (Z.shiftr c 12));
     byte_of_Z (Z.lor 0x80 (Z.land (Z.shiftr c 6) 0x3F));
     byte_of_Z (Z.lor 0x80 (Z.land c 0x3F))]
  else
    [byte_of_Z (Z.lor 0xF0 (Z.shiftr c 18));
     byte_of_Z (Z.lor 0x80 (Z.land (Z.shiftr c 12) 0x3F));
     byte_of_Z (Z.lor 0x80 (Z.land (Z.shiftr c 6) 0x3F));
     byte_of_Z (Z.lor 0x80 (Z.land c 0x3F))].

Fixpoint encode (s : Js.str) : bytes :=
  match s with
  | [] => []
  | c :: rest =>
      if Js.is_high_surrogate c then
        match rest with
        | d :: rest' =>
            if Js.is_low_surrogate d then
              encode_code_point
                (0x10000 + (Z.of_N c - 0xD800) * 0x400 + (Z.of_N d - 0xDC00))
                ++ encode rest'
            else encode_code_point 0xFFFD ++ encode rest
        | [] => encode_code_point 0xFFFD
        end
      else if Js.is_low_surrogate c then encode_code_point 0xFFFD ++ encode rest
      else encode_code_point (Z.of_N c) ++ encode rest
  end.

(** Byte-wise lexicographic order. *)
Fixpoint bytes_compare (a b : bytes) : comparison :=
  match a, b with
  | [], [] => Eq
  | [], _ :: _ => Lt
  | _ :: _, [] => Gt
  | x :: a', y :: b' =>
      match Z.compare (Z_of_byte x) (Z_of_byte y) with
      | Eq => bytes_compare a' b'
      | c => c
      end
  end.

(** The order the specification words describe: two keys compared by
    the bytes of their UTF-8 encodings. *)
Definition utf8_leb (a b : Js.str) : bool :=
  match bytes_compare (encode a) (encode b) with Gt => false | _ => true end.

(** The first byte in which two byte strings differ is smaller in the
    first. *)
Fixpoint below (a b : bytes) : bool :=
  match a, b with
  | x :: a', y :: b' =>
      if Z_of_byte x <? Z_of_byte y then true
      else if Z_of_byte x =? Z_of_byte y then below a' b'
      else false
  | _, _ => false
  end.

(** Whether each of the [n] code points from [c] on is encoded
    [below] its successor. *)
Fixpoint successors_below (n : nat) (c : Z) : bool :=
  match n with
  | O => true
  | S k =>
      below (encode_code_point c) (encode_code_point (c + 1))
      && successors_below k (c + 1)
  end.

End Utf8.

(** ** [orchestrator/src/errors.ts] *)
Module Errors.

(** What a [catch] clause receives: an [Error] with its [message], or
    any other value, given by the text [String(err)] yields. *)
Inductive thrown :=
| ErrorObject (message : Js.str)
| OtherValue (as_string : Js.str).

Record Mapped := {
  http : Z;
  code : string;
  message : Js.str
  (* [details] is always [null] *)
}.

(** The case folding of an [/i] pattern without the [u] flag.  A
    lower-case ASCII letter folds to its capital; a character outside
    ASCII never folds into ASCII, so it never meets a character of
    these patterns and is left as it is. *)
Definition fold_case (c : N) : N :=
  if ((97 <=? c) && (c <=? 122))%N then (c - 32)%N else c.

Fixpoint matches_at (pattern text : Js.str) : bool :=
  match pattern, text with
  | [], _ => true
  | _ :: _, [] => false
  | p :: pattern', c :: text' =>
      (fold_case p =? fold_case c)%N && matches_at pattern' text'
  end.

(** An unanchored search for a literal, ignoring case. *)
Fixpoint search (pattern text : Js.str) : bool :=
  matches_at pattern text
  || match text with
     | [] => false
     | _ :: text' => search pattern text'
     end.

(** [/name|number/i.test(msg)] *)
Definition test (name number : string) (msg : Js.str) : bool :=
  search (Js.lit name) msg || search (Js.lit number) msg.

Definition mapProgramError (err : thrown) : Mapped :=
  let msg := match err with ErrorObject m => m | OtherValue s => s end in
  let to := fun (http : Z) (code : string) =>
              {| http := http; code := code; message := msg |} in
  if test "BadEd25519Order" "6015" msg then to 400 "BadEd25519Order"%string
  else if test "BadDomainSeparation" "6016" msg then to 400 "BadDomainSeparation"%string
  else if test "NonMonotonicSeq" "6012" msg then to 400 "NonMonotonicSeq"%string
  else if test "RangeOverlap" "6013" msg then to 400 "RangeOverlap"%string
  else if test "ClockSkew" "6014" msg then to 400 "ClockSkew"%string
  else if test "AggregatorMismatch" "6006" msg then to 400 "AggregatorMismatch"%string
  else if test "InvalidMint" "6000" msg then to 400 "InvalidMint"%string
  else if test "Paused" "6010" msg then to 403 "Paused"%string
  else to 500 "AnchorSubmitFailed"%string.

(** *** The error-mapping table of the specification (section 4.4) *)
Record Row := { row_name : string; row_number : string; row_http : Z; row_code : string }.

Definition table : list Row :=
  [ {| row_name := "BadEd25519Order"; row_number := "6015"; row_http := 400; row_code := "BadEd25519Order" |};
    {| row_name := "BadDomainSeparation"; row_number := "6016"; row_http := 400; row_code := "BadDomainSeparation" |};
    {| row_name := "NonMonotonicSeq"; row_number := "6012"; row_http := 400; row_code := "NonMonotonicSeq" |};
    {| row_name := "RangeOverlap"; row_number := "6013"; row_http := 400; row_code := "RangeOverlap" |};
    {| row_name := "ClockSkew"; row_number := "6014"; row_http := 400; row_code := "ClockSkew" |};
    {| row_name := "AggregatorMismatch"; row_number := "6006"; row_http := 400; row_code := "AggregatorMismatch" |};
    {| row_name := "InvalidMint"; row_number := "6000"; row_http := 400; row_code := "InvalidMint" |};
    {| row_name := "Paused"; row_number := "6010"; row_http := 403; row_code := "Paused" |} ]%string.

(** Two characters are the same up to the case of an ASCII letter. *)
Definition same_letter (a b : N) : Prop :=
  a = b
  \/ ((65 <= a <= 90)%N /\ b = (a + 32)%N)
  \/ ((65 <= b <= 90)%N /\ a = (b + 32)%N).

(** [token] occurs in [msg], letters compared without regard to case. *)
Definition occurs (token : string) (msg : Js.str) : Prop :=
  exists before found after,
    msg = before ++ found ++ after /\ Forall2 same_letter (Js.lit token) found.

(** A row applies when its error name or its numeric code occurs. *)
Definition row_applies (r : Row) (msg : Js.str) : Prop :=
  occurs (row_name r) msg \/ occurs (row_number r) msg.

Definition message_of (err : thrown) : Js.str :=
  match err with ErrorObject m => m | OtherValue s => s end.

End Errors.

(** ** A JavaScript [Map] with string keys

    Iteration follows insertion order: [set] on a present key keeps its
    place, [set] on a new key appends. *)
Module JsMap.

Definition t (V : Type) := list (Js.str * V).

Fixpoint get {V} (k : Js.str) (m : t V) : option V :=
  match m with
  | [] => None
  | (k', v) :: rest => if Js.eqb k k' then Some v else get k rest
  end.

Fixpoint set {V} (k : Js.str) (v : V) (m : t V) : t V :=
  match m with
  | [] => [(k, v)]
  | (k', v') :: rest =>
      if Js.eqb k k' then (k', v) :: rest else (k', v') :: set k v rest
  end.

Definition delete {V} (k : Js.str) (m : t V) : t V :=
  filter (fun kv => negb (Js.eqb k (fst kv))) m.

Definition size {V} (m : t V) : Z := Z.of_nat (List.length m).

End JsMap.

(** ** [orchestrator/src/server.ts]: the idempotency middleware *)
Module Idempotency.

(** A header of an incoming request, as Node hands it over. *)
Inductive header :=
| Absent
| Single (v : Js.str)
| Repeated (vs : list Js.str).

(** [String.prototype.trim] removes white space and line terminators. *)
Definition is_space (c : N) : bool :=
  ((9 <=? c) && (c <=? 13) || (c =? 0x20) || (c =? 0xA0) || (c =? 0x1680)
   || (0x2000 <=? c) && (c <=? 0x200A) || (c =? 0x2028) || (c =? 0x2029)
   || (c =? 0x202F) || (c =? 0x205F) || (c =? 0x3000) || (c =? 0xFEFF))%N.

Fixpoint trim_start (s : Js.str) : Js.str :=
  match s with
  | c :: rest => if is_space c then trim_start rest else s
  | [] => []
  end.

Definition trim (s : Js.str) : Js.str := rev (trim_start (rev (trim_start s))).

Section Middleware.
(** Request and response bodies are opaque to the middleware. *)
Variable body : Type.
(** The body of the [MissingIdempotencyKey] answer. *)
Variable missing_key_body : body.
(** [Math.max(100, parseInt(process.env.IDEMP_MAX_ENTRIES || "10000"))] *)
Variable IDEMP_MAX_ENTRIES : Z.

Record Request := {
  method : Js.str;
  url : Js.str;
  idempotency_key : header;
  payload : body
}.

Record CachedResponse := { status : Z; cached_body : body; ts : Z }.

Record State := {
  idempotencyCache : JsMap.t CachedResponse;
  idemSetCounter : Z
}.

Definition IDEMP_TTL_MS : Z := 24 * 60 * 60 * 1000.
Definition MAX_SAFE_INTEGER : Z := 9007199254740991.

Definition getIdemKey (req : Request) : option Js.str :=
  let k :=
    match idempotency_key req with
    | Absent => None
    | Single v => Some v
    | Repeated vs => match vs with v :: _ => Some v | [] => None end
    end in
  match k with
  | None => None
  | Some [] => None
  | Some k =>
      let v := trim k in
      if Nat.ltb 0 (List.length v) then Some v else None
  end.

(** What the middleware does with a request. *)
Inductive Decision :=
| Next                              (* [next()], [res.json] untouched *)
| Reply (code : Z) (b : body)       (* answered here, the handler is not run *)
| NextRecording (key : Js.str).     (* [next()], [res.json] wrapped for [key] *)

Definition enforceIdempotency (st : State) (req : Request) (now : Z) : Decision :=
  if negb (Js.eqb (method req) (Js.lit "POST")) then Next
  else
    match getIdemKey req with
    | None => Reply 400 missing_key_body
    | Some key =>
        match JsMap.get key (idempotencyCache st) with
        | Some existing =>
            if now - ts existing <? IDEMP_TTL_MS
            then Reply (status existing) (cached_body existing)
            else NextRecording key
        | None => NextRecording key
        end
    end.

(** The scan for the entry with the least time stamp. *)
Definition oldest (m : JsMap.t CachedResponse) : option Js.str * Z :=
  fold_left
    (fun acc kv =>
       if ts (snd kv) <? snd acc then (Some (fst kv), ts (snd kv)) else acc)
    m (None, MAX_SAFE_INTEGER).

(** The wrapped [res.json]: store the response under [key], sweep
    the expired entries on every hundredth store, then evict the
    oldest entry when the cache is over its capacity.  [now] and
    [now'] are the two readings of [Date.now()]. *)
Definition record (key : Js.str) (statusCode : Z) (b : body) (now now' : Z)
    (st : State) : State :=
  let sc := statusCode in
  let cache :=
    JsMap.set key
      {| status := if sc =? 0 then 200 else sc; cached_body := b; ts := now |}
      (idempotencyCache st) in
  let counter := idemSetCounter st + 1 in
  let cache :=
    if counter mod 100 =? 0
    then filter (fun kv => negb (now' - ts (snd kv) >=? IDEMP_TTL_MS)) cache
    else cache in
  let cache :=
    if JsMap.size cache >? IDEMP_MAX_ENTRIES then
      match fst (oldest cache) with
      | Some (c :: k) => JsMap.delete (c :: k) cache
      | _ => cache
      end
    else cache in
  {| idempotencyCache := cache; idemSetCounter := counter |}.

(** One request served to completion.  [answer] is what the rest of
    the chain (rate limiter, API-key check, route handler) sends
    through [res.json] when it is run. *)
Record Exchange := {
  request : Request;
  arrival : Z;            (* [Date.now()] in the middleware *)
  answer : Z * body;      (* status code and body from downstream *)
  answered : Z            (* [Date.now()] when the answer is stored *)
}.

Definition serve (st : State) (x : Exchange) : (Z * body) * State :=
  match enforceIdempotency st (request x) (arrival x) with
  | Reply code b => ((code, b), st)
  | Next => (answer x, st)
  | NextRecording key =>
      (answer x,
       record key (fst (answer x)) (snd (answer x)) (answered x) (answered x) st)
  end.

Fixpoint run (st : State) (xs : list Exchange) : list (Z * body) * State :=
  match xs with
  | [] => ([], st)
  | x :: rest =>
      let '(r, st') := serve st x in
      let '(rs, st'') := run st' rest in
      (r :: rs, st'')
  end.

(** The handler of a request is run unless the middleware replies. *)
Definition handler_runs (st : State) (x : Exchange) : bool :=
  match enforceIdempotency st (request x) (arrival x) with
  | Reply _ _ => false
  | _ => true
  end.

End Middleware.

Arguments method {body}.
Arguments url {body}.
Arguments idempotency_key {body}.
Arguments payload {body}.
Arguments status {body}.
Arguments cached_body {body}.
Arguments ts {body}.
Arguments idempotencyCache {body}.
Arguments idemSetCounter {body}.
Arguments getIdemKey {body}.
Arguments Next {body}.
Arguments Reply {body}.
Arguments NextRecording {body}.
Arguments request {body}.
Arguments arrival {body}.
Arguments answer {body}.
Arguments answered {body}.

End Idempotency.

(** ** [orchestrator/src/server.ts]: the [/anchor] route *)
Module Anchor.
Import Buf Crypto.

Definition bytesEq (a b : bytes) : bool :=
  if negb (Nat.eqb (List.length a) (List.length b)) then false
  else
    (fix loop (a b : bytes) : bool :=
       match a, b with
       | x :: a', y :: b' => if negb (Byte.eqb x y) then false else loop a' b'
       | _, _ => true
       end) a b.

Definition hex_value (c : ascii) : option Z :=
  let n := Z.of_N (N_of_ascii c) in
  if (48 <=? n) && (n <=? 57) then Some (n - 48)
  else if (97 <=? n) && (n <=? 102) then Some (n - 87)
  else if (65 <=? n) && (n <=? 70) then Some (n - 55)
  else None.

(** [Buffer.from(text, "hex")]: whole pairs of digits, up to the first
    pair that is not hexadecimal. *)
Fixpoint from_hex_chars (l : list ascii) : bytes :=
  match l with
  | a :: b :: rest =>
      match hex_value a, hex_value b with
      | Some x, Some y => byte_of_Z (16 * x + y) :: from_hex_chars rest
      | _, _ => []
      end
  | _ => []
  end.

Definition from_hex (s : string) : bytes := from_hex_chars (list_ascii_of_string s).

(** The parsed content of the key file, as far as
    [loadAggregatorSecret] tells the shapes apart: an array of numbers,
    or an object that may hold an array under [solana] and a string
    under [secretKey]. *)
Inductive KeyFile :=
| KeyArray (elements : list Z)
| KeyObject (solana : option (list Z)) (secretKey : option string)
| KeyOther.

(** [new Uint8Array(numbers)] *)
Definition uint8array (l : list Z) : bytes := map byte_of_Z l.

(** [None] stands for a thrown exception (unreadable file included). *)
Definition loadAggregatorSecret (file : option KeyFile) : option bytes :=
  match file with
  | None => None
  | Some (KeyArray parsed) =>
      if Nat.eqb (List.length parsed) 64 then Some (uint8array parsed) else None
  | Some (KeyObject solana secretKey) =>
      match (match solana with
             | Some l => if Nat.eqb (List.length l) 64 then Some (uint8array l) else None
             | None => None
             end) with
      | Some key => Some key
      | None =>
          match secretKey with
          | Some hex =>
              let bytes := from_hex hex in
              if negb (Nat.eqb (List.length bytes) 64) then None else Some bytes
          | None => None
          end
      end
  | Some KeyOther => None
  end.

(** [tweetnacl]: both functions refuse a secret key that is not 64
    bytes long; the public key is the second half of the secret key. *)
Definition keyPair_fromSecretKey (secretKey : bytes) : option bytes :=
  if Nat.eqb (List.length secretKey) 64 then Some (subarray secretKey 32 32) else None.

Record Config := {
  aggregator_pubkey : bytes;
  next_aggregator_pubkey : bytes;
  activation_seq : Z;
  chain_id : Z
}.

Inductive Response :=
| Failure (status : Z) (code : string)
| Anchored (aggregator_signature ds_hash transaction_id : string) (seq : option Z).

(** An exception that reaches the outer [catch] of the route. *)
Definition unhandled : Response := Failure 500 "Unhandled".

Notation "'try' x <- e1 ; e2" :=
  (match e1 with Some x => e2 | None => inl unhandled end)
    (at level 10, x name, e1 at level 100, e2 at level 200, only parsing).

Section Route.
Variable blake3hash : bytes -> bytes.
(** [nacl.sign.detached(message, secretKey)] for a 64-byte key. *)
Variable ed25519_sign : bytes -> bytes -> bytes.
Variable number : Type.
Variable JSON_stringify_number : number -> Js.str.
(** [BigInt(n)]: a [RangeError] unless [n] is an integer. *)
Variable BigInt : number -> option Z.

Definition nacl_sign_detached (message secretKey : bytes) : option bytes :=
  if Nat.eqb (List.length secretKey) 64 then Some (ed25519_sign message secretKey)
  else None.

Record Artifact := {
  artifact_id : option string;
  start_slot : option number;
  end_slot : option number;
  artifact_len : option number;
  state_root_before : option string;
  state_root_after : option string
}.

(** What the route reads from the process and from the outside. *)
Record Env := {
  LOCAL_MODE : bool;
  CHAIN_ID : Z;
  (** [new web3.PublicKey(PROGRAM_ID).toBytes()], when it does not throw *)
  PROGRAM_ID : option bytes;
  localSeq : Z;
  (** [req.body.artifact_id], when it is not falsy *)
  body_artifact_id : option string;
  (** the artifact from memory or from disk *)
  found_artifact : option Artifact;
  (** [fetchLastSeq], when it does not throw *)
  fetched_last_seq : option Z;
  (** [fetchConfig], when it does not throw *)
  fetched_config : option Config;
  key_file : option KeyFile;
  (** the outcome of [submitAnchorProofV1] and of what precedes it in
      the [try] block: a transaction id, or what was thrown *)
  submission : Errors.thrown + string
}.

Definition optional (x : option number) : value number :=
  match x with Some n => Number n | None => Undefined end.

(** [BigInt(slot ?? 1)] *)
Definition slot_bigint (slot : option number) : option Z :=
  match slot with Some n => BigInt n | None => Some 1 end.

Definition or_empty (s : option string) : string :=
  match s with Some s => s | None => EmptyString end.

(** The proof hash recomputed from the minimal canonical fields. *)
Definition recompute_proof_hash (artifact : Artifact) : option bytes :=
  do srb <- normalizeHex32 (or_empty (state_root_before artifact));
  do sra <- normalizeHex32 (or_empty (state_root_after artifact));
  let minimal :=
    canonicalize JSON_stringify_number
      (Object
         [ (Js.lit "start_slot", optional (start_slot artifact));
           (Js.lit "end_slot", optional (end_slot artifact));
           (Js.lit "state_root_before", String (Js.lit srb));
           (Js.lit "state_root_after", String (Js.lit sra)) ]) in
  do text <- minimal;
  Some (blake3hash (Utf8.encode text)).

(** The branch taken when [LOCAL_MODE] is set: no configuration is
    read and the key is not compared with anything. *)
Definition anchor_local (env : Env) (artifact : Artifact) (proofHash : bytes)
    : Response + Response :=
  let seq := localSeq env + 1 in
  try startSlot <- slot_bigint (start_slot artifact);
  try endSlot <- slot_bigint (end_slot artifact);
  try programId <- PROGRAM_ID env;
  try built <- buildDS blake3hash
                 {| chainId := CHAIN_ID env; programId := programId;
                    proofHash := proofHash; startSlot := startSlot;
                    endSlot := endSlot; Crypto.seq := seq |};
  try secretKey <- loadAggregatorSecret (key_file env);
  try signature <- nacl_sign_detached (ds built) secretKey;
  let ds_hash := toString_hex (dsHash built) in
  inr (Anchored (toString_hex signature) ds_hash
         ("LOCAL-" ++ slice ds_hash 0 16) (Some seq)).

(** Everything the signing step of the ledger branch works with. *)
Record Signing := {
  signing_seq : Z;
  signing_config : Config;
  allowedAgg : bytes;
  built : DSResult;
  secretKey : bytes
}.

(** The route up to the loading of the key: either an answer is
    sent, or the signing step is entered. *)
Definition before_signing (env : Env) : Response + Signing :=
  match body_artifact_id env with
  | None => inl (Failure 400 "BadRequest")
  | Some _ =>
      match found_artifact env with
      | None => inl (Failure 404 "NotFound")
      | Some artifact =>
          try proofHash <- recompute_proof_hash artifact;
          if LOCAL_MODE env then
            match anchor_local env artifact proofHash with
            | inl r | inr r => inl r
            end
          else
            match fetched_last_seq env with
            | None => inl (Failure 500 "FetchLastSeqFailed")
            | Some lastSeq =>
                let seq := lastSeq + 1 in
                try startSlot <- slot_bigint (start_slot artifact);
                try endSlot <- slot_bigint (end_slot artifact);
                match fetched_config env with
                | None => inl (Failure 400 "ConfigNotFound")
                | Some cfg =>
                    if negb (chain_id cfg =? CHAIN_ID env) then
                      inl (Failure 400 "ChainIdMismatch")
                    else
                      let allowedAgg :=
                        if seq >=? activation_seq cfg
                        then next_aggregator_pubkey cfg
                        else aggregator_pubkey cfg in
                      try programId <- PROGRAM_ID env;
                      try built <- buildDS blake3hash
                                     {| chainId := CHAIN_ID env;
                                        programId := programId;
                                        proofHash := proofHash;
                                        startSlot := startSlot;
                                        endSlot := endSlot;
                                        Crypto.seq := seq |};
                      try secretKey <- loadAggregatorSecret (key_file env);
                      inr {| signing_seq := seq;
                             signing_config := cfg;
                             allowedAgg := allowedAgg;
                             built := built;
                             secretKey := secretKey |}
                end
            end
      end
  end.

(** Signing, the comparison of the local key with the allowed one,
    and the submission with its error mapping. *)
Definition sign_and_submit (env : Env) (s : Signing) : Response :=
  match nacl_sign_detached (ds (built s)) (secretKey s) with
  | None => unhandled
  | Some signature =>
      match keyPair_fromSecretKey (secretKey s) with
      | None => unhandled
      | Some aggPub =>
          if negb (bytesEq aggPub (allowedAgg s)) then
            Failure 400 "AggregatorKeyMismatch"
          else
            let aggregator_signature := toString_hex signature in
            let ds_hash := toString_hex (dsHash (built s)) in
            match submission env with
            | inr txid => Anchored aggregator_signature ds_hash txid None
            | inl e =>
                let mapped := Errors.mapProgramError e in
                Failure (Errors.http mapped) (Errors.code mapped)
            end
      end
  end.

Definition anchor (env : Env) : Response :=
  match before_signing env with
  | inl answer => answer
  | inr s => sign_and_submit env s
  end.

(** The pure part of [submitAnchorProofV1]: the instruction data. *)
Definition anchor_instruction_data
    (artifactId proofHash dsHash stateRootBefore stateRootAfter aggregatorPubkey : bytes)
    (startSlot endSlot seq artifactLen timestamp : Z) : option bytes :=
  let proofHash32 := proofHash in
  let dsHash32 := dsHash in
  do startLe <- u64le startSlot;
  do endLe <- u64le endSlot;
  do seqLe <- u64le seq;
  do timestampLe <- i64le timestamp;
  encodeAnchorProofArgsBorsh
    {| artifactId := artifactId;
       proofHash32 := proofHash32;
       seqLe := seqLe;
       startLe := startLe;
       endLe := endLe;
       artifactLen := artifactLen;
       stateRootBefore := stateRootBefore;
       stateRootAfter := stateRootAfter;
       aggregatorPubkey := aggregatorPubkey;
       timestampLe := timestampLe;
       dsHash32 := dsHash32 |}.
End Route.

Arguments artifact_id {number}.
Arguments start_slot {number}.
Arguments end_slot {number}.
Arguments artifact_len {number}.
Arguments state_root_before {number}.
Arguments state_root_after {number}.
Arguments LOCAL_MODE {number}.
Arguments CHAIN_ID {number}.
Arguments PROGRAM_ID {number}.
Arguments localSeq {number}.
Arguments body_artifact_id {number}.
Arguments found_artifact {number}.
Arguments fetched_last_seq {number}.
Arguments fetched_config {number}.
Arguments key_file {number}.
Arguments submission {number}.

End Anchor.

(** ** [indexer/src/index.ts]: reconciliation of pending proofs *)
Module Indexer.
Import PrimFloat.

Inductive Commitment := processed | confirmed | finalized.

(** An element of [getSignatureStatuses(...).value]; [err] tells
    whether the field is truthy. *)
Record SignatureStatus := {
  err : bool;
  confirmationStatus : option Commitment
}.

(** A row of [proofs], with the columns the reconciliation touches.
    [ts] is in microseconds since the epoch, the resolution of
    [timestamptz]; [txid] is [UNIQUE] and [NOT NULL]. *)
Record ProofRow := {
  txid : string;
  ts : Z;
  commitment_level : Z;
  seq : Z
}.

Record Database := {
  proofs : list ProofRow;
  last_signature : option string;
  last_reconciled_ts : option Z
}.

(** The ledger, the clock and the database driver as one cycle sees
    them, every query and every call succeeding: the status the ledger
    returns for a signature ([None] is a [null] entry); the number
    [Date.now()] returns when that signature is handled; and the number
    [Number(row.ts_epoch)] is for a row whose [ts] is a given time
    stamp, that is [extract(epoch from ts)] as the driver hands it
    over.  The two numbers are JavaScript numbers, binary64 floats. *)
Record World := {
  getSignatureStatus : string -> option SignatureStatus;
  Date_now : string -> float;
  Number_ts_epoch : Z -> float;
  (** [NOW()] at the end of the cycle *)
  NOW : Z
}.

(** [ORDER BY ts ASC]: rows with equal [ts] keep their table order. *)
Fixpoint insert_by_ts (r : ProofRow) (l : list ProofRow) : list ProofRow :=
  match l with
  | [] => [r]
  | h :: t => if ts r <=? ts h then r :: l else h :: insert_by_ts r t
  end.

Definition order_by_ts (l : list ProofRow) : list ProofRow :=
  fold_right insert_by_ts [] l.

(** The row a [SELECT txid, extract(epoch from ts) AS ts_epoch]
    yields; [ts_epoch] holds [Number(row.ts_epoch)] unless the column
    is [null] or [undefined]. *)
Record Row := { row_txid : string; ts_epoch : option float }.

(** [SELECT ... WHERE commitment_level < 2 ORDER BY ts ASC LIMIT 100] *)
Definition select_pending (db : Database) : list ProofRow :=
  firstn 100 (order_by_ts (filter (fun r => commitment_level r <? 2) (proofs db))).

(** [ts] is [NOT NULL], so the column is never [null]. *)
Definition to_row (w : World) (r : ProofRow) : Row :=
  {| row_txid := txid r; ts_epoch := Some (Number_ts_epoch w (ts r)) |}.

(** [DELETE FROM proofs WHERE txid = $1] *)
Definition delete_by_txid (sig : string) (db : Database) : Database :=
  {| proofs := filter (fun r => negb (String.eqb (txid r) sig)) (proofs db);
     last_signature := last_signature db;
     last_reconciled_ts := last_reconciled_ts db |}.

(** [UPDATE proofs SET commitment_level = $1 WHERE txid = $2] *)
Definition update_level (level : Z) (sig : string) (db : Database) : Database :=
  {| proofs :=
       map (fun r =>
              if String.eqb (txid r) sig
              then {| txid := txid r; ts := ts r; commitment_level := level; seq := seq r |}
              else r)
           (proofs db);
     last_signature := last_signature db;
     last_reconciled_ts := last_reconciled_ts db |}.

Definition updateLastSignature (sig : string) (db : Database) : Database :=
  {| proofs := proofs db;
     last_signature := Some sig;
     last_reconciled_ts := last_reconciled_ts db |}.

(** [age > 60], where [age] is [Date.now() / 1000 - Number(row.ts_epoch)],
    or 99999 without a time stamp: the division, the subtraction and
    the comparison are those of binary64 floats, as in the source. *)
Definition older_than_60s (now : float) (ts_epoch : option float) : bool :=
  let age :=
    match ts_epoch with
    | Some t => sub (div now 1000%float) t
    | None => 99999%float
    end in
  ltb 60%float age.

(** The number an integer is; the conversion is exact below 2^53 in
    absolute value. *)
Fixpoint number_of_positive (p : positive) : float :=
  match p with
  | xH => 1%float
  | xO q => mul 2%float (number_of_positive q)
  | xI q => add (mul 2%float (number_of_positive q)) 1%float
  end.

Definition number_of_Z (z : Z) : float :=
  match z with
  | Z0 => 0%float
  | Zpos p => number_of_positive p
  | Zneg p => opp (number_of_positive p)
  end.

(** A driver for the examples: the seconds of a time stamp given in
    microseconds, as the float nearest to the quotient (time stamps
    below 2^53 microseconds). *)
Definition epoch_number (ts : Z) : float := div (number_of_Z ts) 1000000%float.

Definition level_of (cs : option Commitment) : Z :=
  match cs with
  | Some finalized => 2
  | Some confirmed => 1
  | _ => 0
  end.

(** The body of the [for] loop. *)
Definition reconcile_row (w : World) (db : Database) (row : Row) : Database :=
  let sig := row_txid row in
  if String.eqb sig EmptyString then db
  else
    match getSignatureStatus w sig with
    | Some {| err := false; confirmationStatus := cs |} =>
        let level := level_of cs in
        let db := update_level level sig db in
        if level >=? 1 then updateLastSignature sig db else db
    | _ =>
        if older_than_60s (Date_now w sig) (ts_epoch row)
        then delete_by_txid sig db
        else db
    end.

Definition reconcilePending (w : World) (db : Database) : Database :=
  let rows := map (to_row w) (select_pending db) in
  match rows with
  | [] => db
  | _ =>
      let db := fold_left (reconcile_row w) rows db in
      {| proofs := proofs db;
         last_signature := last_signature db;
         last_reconciled_ts := Some (NOW w) |}
  end.

(** A row is gone when no row of the table carries its [txid]. *)
Definition deleted (sig : string) (db : Database) : Prop :=
  forall r, In r (proofs db) -> txid r <> sig.

(** The row stored under a signature. *)
Definition lookup (sig : string) (db : Database) : option ProofRow :=
  find (fun r => String.eqb (txid r) sig) (proofs db).

(** The stored level of the row with this [txid]. *)
Definition stored_level (sig : string) (db : Database) : option Z :=
  option_map commitment_level (lookup sig db).

(** A row with its level replaced. *)
Definition with_level (level : Z) (r : ProofRow) : ProofRow :=
  {| txid := txid r; ts := ts r; commitment_level := level; seq := seq r |}.

End Indexer.

(** ** The words of the specification

    Definitions that follow the text of the specification rather than
    the code; the theorems of Part II compare the two. *)
Module Spec.
Import Buf.

Definition is_u64 (v : Z) : Prop := 0 <= v < 2 ^ 64.
Definition is_i64 (v : Z) : Prop := - 2 ^ 63 <= v < 2 ^ 63.

(** [bs] is the unsigned value [v] in [width] little-endian bytes. *)
Definition little_endian (width : nat) (v : Z) (bs : bytes) : Prop :=
  List.length bs = width /\ le_value bs = v.

(** [bs] is the signed value [v] in eight little-endian bytes, two's
    complement. *)
Definition little_endian_signed64 (v : Z) (bs : bytes) : Prop :=
  List.length bs = 8%nat /\ le_value bs = v mod 2 ^ 64.

(** *** RFC 4122, version 4 *)
Definition is_lower_hex (c : ascii) : bool :=
  let n := N_of_ascii c in
  ((48 <=? n) && (n <=? 57) || (97 <=? n) && (n <=? 102))%N.

Definition is_variant_digit (c : ascii) : bool :=
  existsb (Ascii.eqb c) ["8"; "9"; "a"; "b"]%char.

Fixpoint uuid_shape (i : nat) (l : list ascii) : bool :=
  match l with
  | [] => Nat.eqb i 36
  | c :: rest =>
      (if existsb (Nat.eqb i) [8; 13; 18; 23]%nat then Ascii.eqb c "-"
       else if Nat.eqb i 14 then Ascii.eqb c "4"
       else if Nat.eqb i 19 then is_variant_digit c
       else is_lower_hex c)
      && uuid_shape (S i) rest
  end.

(** [8-4-4-4-12] lower-case digits, version digit [4], variant digit
    in [8..b]. *)
Definition is_uuid_v4 (s : string) : bool := uuid_shape 0 (list_ascii_of_string s).

(** The first 16 bytes of the hash, the high nibble of byte 6 set to
    [0100] and the top two bits of byte 8 set to [10]. *)
Definition uuid_bytes (hash : bytes) : bytes :=
  firstn 6 hash
    ++ byte_of_Z (4 * 16 + Z_of_byte (nth 6 hash x00) mod 16)
    :: firstn 1 (skipn 7 hash)
    ++ byte_of_Z (2 * 64 + Z_of_byte (nth 8 hash x00) mod 64)
    :: firstn 7 (skipn 9 hash).

(** *** The account layouts as the specification words them *)

(** "status (u8; 0 = Active, 1 = Unlocked)" read at a given offset of
    the account data. *)
Definition status_read_at (offset : nat) : Prop :=
  forall data r,
    Codec.decodeValidatorRecord data = Some r ->
    (nth offset data x00 = x00 -> Codec.status r = Codec.Active)
    /\ (nth offset data x00 <> x00 -> Codec.status r = Codec.Unlocked).

(** "decoded layout matches section 4.4 payload minus discriminator":
    decoding the bytes the encoder produced gives back the fields that
    were encoded. *)
Definition proof_record_is_anchor_payload : Prop :=
  forall (args : Crypto.AnchorProofArgs) (data : bytes),
    List.length (Crypto.artifactId args) = 16%nat ->
    List.length (Crypto.proofHash32 args) = 32%nat ->
    List.length (Crypto.seqLe args) = 8%nat ->
    List.length (Crypto.startLe args) = 8%nat ->
    List.length (Crypto.endLe args) = 8%nat ->
    List.length (Crypto.stateRootBefore args) = 32%nat ->
    List.length (Crypto.stateRootAfter args) = 32%nat ->
    List.length (Crypto.aggregatorPubkey args) = 32%nat ->
    List.length (Crypto.timestampLe args) = 8%nat ->
    List.length (Crypto.dsHash32 args) = 32%nat ->
    Crypto.encodeAnchorProofArgsBorsh args = Some data ->
    exists r,
      Codec.decodeProofRecord data = Some r
      /\ Codec.artifact_id r = Codec.uuidFrom16 (Crypto.artifactId args)
      /\ Codec.proof_hash r = Crypto.proofHash32 args
      /\ Codec.seq r = le_value (Crypto.seqLe args)
      /\ Codec.start_slot r = le_value (Crypto.startLe args)
      /\ Codec.end_slot r = le_value (Crypto.endLe args)
      /\ Codec.artifact_len r = Crypto.artifactLen args mod 2 ^ 32
      /\ Codec.state_root_before r = Crypto.stateRootBefore args
      /\ Codec.state_root_after r = Crypto.stateRootAfter args
      /\ Codec.aggregator_pubkey r = Codec.bs58_encode (Crypto.aggregatorPubkey args)
      /\ Codec.timestamp r = to_int64 (le_value (Crypto.timestampLe args))
      /\ Codec.ds_hash r = Crypto.dsHash32 args.

(** The account layout the decoder reads: twelve fields after the
    discriminator, 244 bytes. *)
Record ProofAccount := {
  pa_artifact_id : bytes;
  pa_start_slot : Z;
  pa_end_slot : Z;
  pa_proof_hash : bytes;
  pa_artifact_len : Z;
  pa_state_root_before : bytes;
  pa_state_root_after : bytes;
  pa_submitted_by : bytes;
  pa_aggregator_pubkey : bytes;
  pa_timestamp : Z;
  pa_seq : Z;
  pa_ds_hash : bytes
}.

Definition well_formed_account (a : ProofAccount) : Prop :=
  List.length (pa_artifact_id a) = 16%nat
  /\ is_u64 (pa_start_slot a) /\ is_u64 (pa_end_slot a)
  /\ List.length (pa_proof_hash a) = 32%nat
  /\ 0 <= pa_artifact_len a < 2 ^ 32
  /\ List.length (pa_state_root_before a) = 32%nat
  /\ List.length (pa_state_root_after a) = 32%nat
  /\ List.length (pa_submitted_by a) = 32%nat
  /\ List.length (pa_aggregator_pubkey a) = 32%nat
  /\ is_i64 (pa_timestamp a) /\ is_u64 (pa_seq a)
  /\ List.length (pa_ds_hash a) = 32%nat.

(** The bytes of an account, after its discriminator, in the order
    the decoder reads them. *)
Definition account_body (a : ProofAccount) : bytes :=
  pa_artifact_id a
    ++ le_bytes 8 (pa_start_slot a)
    ++ le_bytes 8 (pa_end_slot a)
    ++ pa_proof_hash a
    ++ le_bytes 4 (pa_artifact_len a)
    ++ pa_state_root_before a
    ++ pa_state_root_after a
    ++ pa_submitted_by a
    ++ pa_aggregator_pubkey a
    ++ le_bytes 8 (pa_timestamp a)
    ++ le_bytes 8 (pa_seq a)
    ++ pa_ds_hash a.

(** *** Canonical JSON as the specification words it *)

(** "keys in byte-wise ascending order by UTF-8 code unit", for every
    object, keys outside the Basic Multilingual Plane included. *)
Definition keys_in_utf8_order : Prop :=
  forall props : list (Js.str * Crypto.value unit),
    NoDup (Crypto.object_keys props) ->
    Sorted (fun a b => Utf8.utf8_leb a b = true) (Crypto.canonical_keys props).

Definition reserved_keys : list Js.str :=
  [Js.lit "__proto__"; Js.lit "constructor"; Js.lit "prototype"].

(** *** The idempotency cache as C9 words it *)

(** The exchanges of a trace are served one after the other and the
    clock does not run backwards. *)
Fixpoint chronological {body} (since : Z) (xs : list (Idempotency.Exchange body)) : Prop :=
  match xs with
  | [] => True
  | x :: rest =>
      since <= Idempotency.arrival x
      /\ Idempotency.arrival x <= Idempotency.answered x
      /\ chronological (Idempotency.answered x) rest
  end.

(** "For any two POST requests carrying the same non-empty
    Idempotency-Key within 24 hours, the second receives the cached
    status code and body of the first response": on a server started with
    an empty cache, for any capacity the configuration allows. *)
Definition same_key_same_answer : Prop :=
  forall (body : Type) (missing : body) (capacity : Z)
         (xs : list (Idempotency.Exchange body)) (i j : nat)
         (x y : Idempotency.Exchange body) (k : Js.str),
    100 <= capacity ->
    chronological 0 xs ->
    nth_error xs i = Some x -> nth_error xs j = Some y -> (i < j)%nat ->
    Idempotency.method (Idempotency.request x) = Js.lit "POST" ->
    Idempotency.method (Idempotency.request y) = Js.lit "POST" ->
    Idempotency.getIdemKey (Idempotency.request x) = Some k ->
    Idempotency.getIdemKey (Idempotency.request y) = Some k ->
    Idempotency.arrival y - Idempotency.arrival x < Idempotency.IDEMP_TTL_MS ->
    let answers :=
      fst (Idempotency.run body missing capacity
             {| Idempotency.idempotencyCache := []; Idempotency.idemSetCounter := 0 |}
             xs) in
    nth_error answers j = nth_error answers i.

(** *** Reconciliation as C6 words it *)

(** "a row is deleted exactly when the ledger has no record of its
    signature and the row is older than 60 seconds" *)
Definition deleted_exactly_when_unknown_and_old : Prop :=
  forall (w : Indexer.World) (db : Indexer.Database) (r : Indexer.ProofRow),
    NoDup (map Indexer.txid (Indexer.proofs db)) ->
    In r (Indexer.select_pending db) ->
    (Indexer.deleted (Indexer.txid r) (Indexer.reconcilePending w db)
     <-> Indexer.getSignatureStatus w (Indexer.txid r) = None
         /\ Indexer.older_than_60s (Indexer.Date_now w (Indexer.txid r))
              (Some (Indexer.Number_ts_epoch w (Indexer.ts r))) = true).

(** *** The key check as C4 words it *)

(** The allowed aggregator key for a sequence number. *)
Definition allowed_pubkey (cfg : Anchor.Config) (seq : Z) : bytes :=
  if Z_ge_dec seq (Anchor.activation_seq cfg)
  then Anchor.next_aggregator_pubkey cfg
  else Anchor.aggregator_pubkey cfg.

End Spec.

(** ** The signing step of [/anchor] *)
Module AnchorNotions.
Import Buf Crypto Anchor.

Section Route.
Context (blake3hash : bytes -> bytes) {number : Type}
        (JSON_stringify_number : number -> Js.str) (BigInt : number -> option Z).

(** What the route holds when it comes to sign for the ledger. *)
Record Obtained := {
  the_artifact : Artifact number;
  the_proof_hash : bytes;
  last_seq : Z;
  the_start_slot : Z;
  the_end_slot : Z;
  the_config : Config;
  program_id : bytes;
  preimage : DSResult;
  local_key : bytes
}.

(** The request names an artifact that is found; its proof hash is
    recomputed; outside [LOCAL_MODE] the last sequence number and the
    configuration are fetched and the chain ids agree; the preimage is
    built for the sequence number [last_seq + 1]; the key file is
    loaded. *)
Definition reaches_signing (env : Env number) (o : Obtained) : Prop :=
  body_artifact_id env <> None
  /\ found_artifact env = Some (the_artifact o)
  /\ recompute_proof_hash blake3hash number JSON_stringify_number (the_artifact o)
     = Some (the_proof_hash o)
  /\ LOCAL_MODE env = false
  /\ fetched_last_seq env = Some (last_seq o)
  /\ slot_bigint number BigInt (start_slot (the_artifact o)) = Some (the_start_slot o)
  /\ slot_bigint number BigInt (end_slot (the_artifact o)) = Some (the_end_slot o)
  /\ fetched_config env = Some (the_config o)
  /\ chain_id (the_config o) = CHAIN_ID env
  /\ PROGRAM_ID env = Some (program_id o)
  /\ buildDS blake3hash
       {| chainId := CHAIN_ID env;
          programId := program_id o;
          proofHash := the_proof_hash o;
          startSlot := the_start_slot o;
          endSlot := the_end_slot o;
          Crypto.seq := last_seq o + 1 |}
     = Some (preimage o)
  /\ loadAggregatorSecret (key_file env) = Some (local_key o).

(** The sequence number being anchored and the key allowed for it. *)
Definition anchored_seq (o : Obtained) : Z := last_seq o + 1.

Definition allowed_key (o : Obtained) : bytes :=
  Spec.allowed_pubkey (the_config o) (anchored_seq o).

(** What the signing step works with. *)
Definition signing_of (o : Obtained) : Signing :=
  {| signing_seq := anchored_seq o;
     signing_config := the_config o;
     allowedAgg := allowed_key o;
     built := preimage o;
     secretKey := local_key o |}.

End Route.

Arguments the_artifact {number}.
Arguments the_proof_hash {number}.
Arguments last_seq {number}.
Arguments the_start_slot {number}.
Arguments the_end_slot {number}.
Arguments the_config {number}.
Arguments program_id {number}.
Arguments preimage {number}.
Arguments local_key {number}.
Arguments anchored_seq {number}.
Arguments allowed_key {number}.
Arguments signing_of {number}.

End AnchorNotions.

(** ** Concrete inputs used by the examples of Part II *)
Module Examples.
Import Buf.

(** The arguments of the encoder test, with distinguishable fields. *)
Definition anchor_args : Crypto.AnchorProofArgs :=
  {| Crypto.artifactId := repeat x0a 16;
     Crypto.proofHash32 := repeat x05 32;
     Crypto.seqLe := [x01; x00; x00; x00; x00; x00; x00; x00];
     Crypto.startLe := [x02; x00; x00; x00; x00; x00; x00; x00];
     Crypto.endLe := [x03; x00; x00; x00; x00; x00; x00; x00];
     Crypto.artifactLen := 123;
     Crypto.stateRootBefore := repeat x0b 32;
     Crypto.stateRootAfter := repeat x0c 32;
     Crypto.aggregatorPubkey := repeat x0d 32;
     Crypto.timestampLe := [x0a; x00; x00; x00; x00; x00; x00; x00];
     Crypto.dsHash32 := repeat x06 32 |}.

(** The account of the indexer's codec test. *)
Definition proof_account : Spec.ProofAccount :=
  {| Spec.pa_artifact_id := repeat x00 15 ++ [x01];
     Spec.pa_start_slot := 2;
     Spec.pa_end_slot := 3;
     Spec.pa_proof_hash := repeat x01 32;
     Spec.pa_artifact_len := 123;
     Spec.pa_state_root_before := repeat x02 32;
     Spec.pa_state_root_after := repeat x03 32;
     Spec.pa_submitted_by := repeat x04 32;
     Spec.pa_aggregator_pubkey := repeat x05 32;
     Spec.pa_timestamp := 10;
     Spec.pa_seq := 11;
     Spec.pa_ds_hash := repeat x06 32 |}.

(** A validator account: discriminator, two keys, [lock_ts] with a zero
    low byte, status byte 1, [num_accepts], reserved tail. *)
Definition validator_account : bytes :=
  repeat x00 8 ++ repeat x07 32 ++ repeat x08 32
    ++ [x00; x01; x00; x00; x00; x00; x00; x00]
    ++ [x01]
    ++ [x05; x00; x00; x00; x00; x00; x00; x00]
    ++ repeat x00 47.

(** An object with a key in the Basic Multilingual Plane above the
    surrogates (U+FF5E) and a key outside the plane (U+1F600, the
    surrogate pair D83D DE00). *)
Definition astral_object : list (Js.str * Crypto.value unit) :=
  [ ([0xFF5E]%N, Crypto.Null); ([0xD83D; 0xDE00]%N, Crypto.Null) ].

(** The object of the repository's canonicalization test. *)
Definition test_object : list (Js.str * Crypto.value Z) :=
  [ (Js.lit "b", Crypto.Number 2); (Js.lit "a", Crypto.Number 1);
    (Js.lit "x", Crypto.Undefined); (Js.lit "constructor", Crypto.Number 3) ].

(** A POST request with an idempotency key, answered 200 with [b] by
    its handler when the handler is run. *)
Definition post (path : string) (key : Js.str) (t : Z) (b : string)
    : Idempotency.Exchange string :=
  {| Idempotency.request :=
       {| Idempotency.method := Js.lit "POST";
          Idempotency.url := Js.lit path;
          Idempotency.idempotency_key := Idempotency.Single key;
          Idempotency.payload := b |};
     Idempotency.arrival := t;
     Idempotency.answer := (200, b);
     Idempotency.answered := t |}.

(** A request with key [k], a hundred requests with other keys, one a
    millisecond, and a second request with key [k], a second after the
    first. *)
Definition eviction_trace : list (Idempotency.Exchange string) :=
  post "/prove" (Js.lit "k") 1000 "first"
    :: map (fun i => post "/prove" [N.of_nat i + 1000]%N (1001 + Z.of_nat i) "other")
           (List.seq 0 100)
    ++ [post "/prove" (Js.lit "k") 2000 "second"].

(** Two requests with the same key, different bodies and different
    endpoints, the second an hour after the first. *)
Definition replay_first : Idempotency.Exchange string :=
  post "/prove" (Js.lit "k") 1000 "first".
Definition replay_second : Idempotency.Exchange string :=
  post "/anchor" (Js.lit " k ") 3601000 "second".

(** A store with one pending row, written at the epoch. *)
Definition pending_db : Indexer.Database :=
  {| Indexer.proofs :=
       [ {| Indexer.txid := "sig"; Indexer.ts := 0;
            Indexer.commitment_level := 0; Indexer.seq := 1 |} ];
     Indexer.last_signature := None;
     Indexer.last_reconciled_ts := None |}.

(** Two minutes later the ledger knows the transaction, as failed. *)
Definition failed_world : Indexer.World :=
  {| Indexer.getSignatureStatus :=
       fun _ => Some {| Indexer.err := true;
                        Indexer.confirmationStatus := Some Indexer.processed |};
     Indexer.Date_now := fun _ => Indexer.number_of_Z 120000;
     Indexer.Number_ts_epoch := Indexer.epoch_number;
     Indexer.NOW := 120000 |}.

(** Two minutes later the ledger reports the transaction finalized. *)
Definition finalized_world : Indexer.World :=
  {| Indexer.getSignatureStatus :=
       fun _ => Some {| Indexer.err := false;
                        Indexer.confirmationStatus := Some Indexer.finalized |};
     Indexer.Date_now := fun _ => Indexer.number_of_Z 120000;
     Indexer.Number_ts_epoch := Indexer.epoch_number;
     Indexer.NOW := 120000 |}.

(** Stand-ins for the two primitives the route calls. *)
Definition toy_hash (m : bytes) : bytes := firstn 32 (m ++ repeat x00 32).
Definition toy_sign (message secretKey : bytes) : bytes :=
  firstn 64 (message ++ secretKey ++ repeat x00 64).

Definition stored_artifact : Anchor.Artifact Z :=
  {| Anchor.artifact_id := Some "00000000-0000-4000-8000-000000000000"%string;
     Anchor.start_slot := Some 1;
     Anchor.end_slot := Some 1;
     Anchor.artifact_len := Some 100;
     Anchor.state_root_before :=
       Some "0000000000000000000000000000000000000000000000000000000000000000"%string;
     Anchor.state_root_after :=
       Some "ffffffffffffffffffffffffffffffffffffffffffffffffffffffffffffffff"%string |}.

(** The scenario of the repository's chain-id test: the environment says
    chain 2, the ledger says chain 1 and holds all-zero aggregator keys;
    the local key is another one. *)
Definition chain_mismatch_env : Anchor.Env Z :=
  {| Anchor.LOCAL_MODE := false;
     Anchor.CHAIN_ID := 2;
     Anchor.PROGRAM_ID := Some (repeat x00 32);
     Anchor.localSeq := 0;
     Anchor.body_artifact_id := Some "00000000-0000-4000-8000-000000000000"%string;
     Anchor.found_artifact := Some stored_artifact;
     Anchor.fetched_last_seq := Some 0;
     Anchor.fetched_config :=
       Some {| Anchor.aggregator_pubkey := repeat x00 32;
               Anchor.next_aggregator_pubkey := repeat x00 32;
               Anchor.activation_seq := 1;
               Anchor.chain_id := 1 |};
     Anchor.key_file := Some (Anchor.KeyArray (repeat 7 64));
     Anchor.submission := inr "txid"%string |}.

(** The same deployment with matching chain ids, the rotation to the
    next key active from sequence number 1, and the local key the next
    one. *)
Definition rotated_env : Anchor.Env Z :=
  {| Anchor.LOCAL_MODE := false;
     Anchor.CHAIN_ID := 1;
     Anchor.PROGRAM_ID := Some (repeat x00 32);
     Anchor.localSeq := 0;
     Anchor.body_artifact_id := Some "00000000-0000-4000-8000-000000000000"%string;
     Anchor.found_artifact := Some stored_artifact;
     Anchor.fetched_last_seq := Some 0;
     Anchor.fetched_config :=
       Some {| Anchor.aggregator_pubkey := repeat x00 32;
               Anchor.next_aggregator_pubkey := repeat x07 32;
               Anchor.activation_seq := 1;
               Anchor.chain_id := 1 |};
     Anchor.key_file := Some (Anchor.KeyArray (repeat 7 64));
     Anchor.submission := inr "txid"%string |}.

(** The same deployment before the rotation: the next key is due from
    sequence number 5, the local key is already the next one. *)
Definition early_key_env : Anchor.Env Z :=
  {| Anchor.LOCAL_MODE := false;
     Anchor.CHAIN_ID := 1;
     Anchor.PROGRAM_ID := Some (repeat x00 32);
     Anchor.localSeq := 0;
     Anchor.body_artifact_id := Some "00000000-0000-4000-8000-000000000000"%string;
     Anchor.found_artifact := Some stored_artifact;
     Anchor.fetched_last_seq := Some 0;
     Anchor.fetched_config :=
       Some {| Anchor.aggregator_pubkey := repeat x00 32;
               Anchor.next_aggregator_pubkey := repeat x07 32;
               Anchor.activation_seq := 5;
               Anchor.chain_id := 1 |};
     Anchor.key_file := Some (Anchor.KeyArray (repeat 7 64));
     Anchor.submission := inr "txid"%string |}.

End Examples.

(** ** [orchestrator/src/onchain.ts]: reading the ledger accounts *)
Module Onchain.
Import Buf Crypto.

(** The package [@solana/web3.js] as the two functions use it.  [None]
    is a thrown exception or a rejected promise: [PublicKey] is
    [new web3.PublicKey(s).toBytes()], [Connection] tells whether
    [new web3.Connection(rpcUrl, ...)] returns, [getAccountInfo] yields
    [null] ([Some None]) or the data of the account. *)
Record Web3 := {
  PublicKey : string -> option bytes;
  Connection : string -> bool;
  findProgramAddressSync : list bytes -> bytes -> option bytes;
  getAccountInfo : string -> bytes -> option (option bytes)
}.

(** What the statements that precede the reading of the data give:
    [new web3.PublicKey(programIdStr)] throws; [new web3.Connection]
    throws; the derivation of the address or the call [getAccountInfo]
    fails; there is no account ([null]); or the account's data. *)
Inductive AccountInfo :=
| InvalidProgramId
| InvalidEndpoint
| RpcError
| NoAccount
| Account (data : bytes).

(** The statements shared by [fetchConfig] and [fetchLastSeq], in their
    order; [seed] is [config] in the first and [aggregator] in the
    second. *)
Definition account_info (web3 : Web3) (seed programIdStr rpcUrl : string)
    : AccountInfo :=
  match PublicKey web3 programIdStr with
  | None => InvalidProgramId
  | Some programId =>
      if negb (Connection web3 rpcUrl) then InvalidEndpoint
      else
        match
          findProgramAddressSync web3 [from_ascii "zksl"; from_ascii seed] programId
        with
        | None => RpcError
        | Some pda =>
            match getAccountInfo web3 rpcUrl pda with
            | None => RpcError
            | Some None => NoAccount
            | Some (Some data) => Account data
            end
        end
  end.

(** [fetchConfig], from the outcome of [account_info] with the seed
    [config]; [None] is a thrown exception. *)
Definition fetchConfig (acc : AccountInfo) : option Anchor.Config :=
  match acc with
  | InvalidProgramId | InvalidEndpoint | RpcError => None
  | NoAccount => None
  | Account data =>
      let off := (8 + 32 + 32)%nat in
      let aggregator_pubkey := subarray data off 32 in
      let off := (off + 32)%nat in
      let next_aggregator_pubkey := subarray data off 32 in
      let off := (off + 32)%nat in
      do activation_seq <- readBigUInt64LE data off;
      let off := (off + 8)%nat in
      do chain_id <- readBigUInt64LE data off;
      Some {| Anchor.aggregator_pubkey := aggregator_pubkey;
              Anchor.next_aggregator_pubkey := next_aggregator_pubkey;
              Anchor.activation_seq := activation_seq;
              Anchor.chain_id := chain_id |}
  end.

(** [fetchLastSeq], from the outcome of [account_info] with the seed
    [aggregator]. *)
Definition fetchLastSeq (acc : AccountInfo) : option Z :=
  match acc with
  | InvalidProgramId | InvalidEndpoint | RpcError => None
  | NoAccount => Some 0
  | Account data =>
      let off := (8 + 32)%nat in
      readBigUInt64LE data off
  end.

(** The configuration account as [fetchConfig] reads it: discriminator,
    mint, admin, the two aggregator keys, the activation sequence
    number and the chain id. *)
Record ConfigAccount := {
  ca_zksl_mint : bytes;
  ca_admin : bytes;
  ca_aggregator_pubkey : bytes;
  ca_next_aggregator_pubkey : bytes;
  ca_activation_seq : Z;
  ca_chain_id : Z
}.

Definition config_body (c : ConfigAccount) : bytes :=
  ca_zksl_mint c ++ ca_admin c ++ ca_aggregator_pubkey c
    ++ ca_next_aggregator_pubkey c
    ++ le_bytes 8 (ca_activation_seq c) ++ le_bytes 8 (ca_chain_id c).

End Onchain.

(** ** [orchestrator/src/server.ts]: helpers, access control, [/prove] *)
Module Server.
Import Buf Crypto.

(** [hexTo32]: [new Uint8Array(Buffer.from(s, "hex"))] *)
Definition hexTo32 (s : string) : bytes := Anchor.from_hex s.

(** [u.replace(/-/g, "")] *)
Definition without_dashes (u : string) : string :=
  string_of_list_ascii
    (filter (fun c => negb (Ascii.eqb c "-")) (list_ascii_of_string u)).

(** [randomUuidV4], from the bytes [randomBytes(16)] returns. *)
Definition randomUuidV4 (randomBytes : bytes) : option string :=
  let b := randomBytes in
  do b6 <- readUInt8 b 6;
  do b <- writeUInt8 b (Z.lor (Z.land b6 0x0f) 0x40) 6;
  do b8 <- readUInt8 b 8;
  do b <- writeUInt8 b (Z.lor (Z.land b8 0x3f) 0x80) 8;
  let hex := toString_hex b in
  Some (dashed hex).

Definition uuidToBytes (randomBytes : bytes) (u : string) : option bytes :=
  let hex := without_dashes u in
  if negb (Nat.eqb (String.length hex) 32) then
    do fresh <- randomUuidV4 randomBytes;
    Some (Anchor.from_hex (without_dashes fresh))
  else Some (Anchor.from_hex hex).

(** *** API keys *)

(** [s.split(",")] *)
Fixpoint split_commas (s : Js.str) : list Js.str :=
  match s with
  | [] => [[]]
  | c :: rest =>
      if (c =? 44)%N then [] :: split_commas rest
      else
        match split_commas rest with
        | piece :: pieces => (c :: piece) :: pieces
        | [] => [[c]]
        end
  end.

(** [a || b] where [a] may be missing or empty *)
Definition or_else (a : option Js.str) (b : Js.str) : Js.str :=
  match a with
  | Some (c :: s) => c :: s
  | _ => b
  end.

(** The list [API_KEYS] computed at start-up from [process.env.API_KEYS]
    and [process.env.API_KEY]. *)
Definition API_KEYS (env_API_KEYS env_API_KEY : option Js.str) : list Js.str :=
  let raw := or_else env_API_KEYS (or_else env_API_KEY []) in
  filter (fun s => Nat.ltb 0 (List.length s))
         (map Idempotency.trim (split_commas raw)).

(** The value a header lookup yields once an array is replaced by its
    first element. *)
Definition first_value (h : Idempotency.header) : option Js.str :=
  match h with
  | Idempotency.Absent => None
  | Idempotency.Single v => Some v
  | Idempotency.Repeated vs => match vs with v :: _ => Some v | [] => None end
  end.

(** [requireApiKey]: [None] is [next()], otherwise the status and the
    code of the answer.  [test_mode] tells whether [NODE_ENV] is
    [test]. *)
Definition requireApiKey (test_mode : bool) (keys : list Js.str)
    (x_api_key : Idempotency.header) : option (Z * string) :=
  if test_mode then None
  else if Nat.eqb (List.length keys) 0 then Some (401, "AuthRequired"%string)
  else
    let k := first_value x_api_key in
    match k with
    | Some (c :: s) =>
        if negb (existsb (Js.eqb (c :: s)) keys) then Some (403, "Forbidden"%string)
        else None
    | _ => Some (403, "Forbidden"%string)
    end.

(** *** The rate limiter *)

Record Window := { count : Z; window_ts : Z }.

(** [req.ip || req.headers["x-forwarded-for"] || "unknown"] *)
Definition client (ip forwarded : option Js.str) : Js.str :=
  or_else ip (or_else forwarded (Js.lit "unknown")).

Section Limiter.
(** The two settings, when [parseInt] yields integers. *)
Variables RATELIMIT_MAX RATELIMIT_WINDOW_MS : Z.

(** [rateLimit]: whether [next()] is called (otherwise the answer is
    429 [RateLimitExceeded]) and the map [rl] afterwards. *)
Definition rateLimit (rl : JsMap.t Window) (ip : Js.str) (now : Z)
    : bool * JsMap.t Window :=
  match JsMap.get ip rl with
  | None => (true, JsMap.set ip {| count := 1; window_ts := now |} rl)
  | Some cur =>
      if now - window_ts cur >? RATELIMIT_WINDOW_MS then
        (true, JsMap.set ip {| count := 1; window_ts := now |} rl)
      else if count cur >=? RATELIMIT_MAX then (false, rl)
      else
        (true,
         JsMap.set ip {| count := count cur + 1; window_ts := window_ts cur |} rl)
  end.

(** A request as the limiter sees it, and a sequence of them served
    one after the other. *)
Record Hit := { hit_ip : Js.str; hit_time : Z }.

Fixpoint limit_all (rl : JsMap.t Window) (hits : list Hit)
    : list bool * JsMap.t Window :=
  match hits with
  | [] => ([], rl)
  | h :: rest =>
      let '(pass, rl') := rateLimit rl (hit_ip h) (hit_time h) in
      let '(passes, rl'') := limit_all rl' rest in
      (pass :: passes, rl'')
  end.
End Limiter.

(** *** The chain of middleware in front of a route

    [enforceIdempotency] is registered first, [rateLimit] second, and
    the routes after them, each with [requireApiKey] except
    [GET /health].  A request is one that matches a route. *)
Section Chain.
Variable body : Type.
(** The body of an error answer with a given code. *)
Variable error_body : string -> body.
Variable IDEMP_MAX_ENTRIES : Z.
Variables RATELIMIT_MAX RATELIMIT_WINDOW_MS : Z.
Variable test_mode : bool.
Variable keys : list Js.str.

Record Incoming := {
  base : Idempotency.Request body;
  ip : option Js.str;
  x_forwarded_for : option Js.str;
  x_api_key : Idempotency.header;
  (** whether the matched route was registered with [requireApiKey]:
      every route but [GET /health] *)
  key_required : bool;
  (** the three readings of [Date.now()]: in [enforceIdempotency], in
      [rateLimit], and when the answer is stored *)
  arrival : Z;
  limited : Z;
  answered : Z;
  (** what the route's handler sends when it is run *)
  handler_answer : Z * body
}.

Record ServerState := {
  idem : Idempotency.State body;
  rl : JsMap.t Window
}.

(** What follows [enforceIdempotency]: the limiter, the key check,
    the handler. *)
Definition downstream (limits : JsMap.t Window) (x : Incoming)
    : (Z * body) * JsMap.t Window :=
  let '(pass, limits') :=
    rateLimit RATELIMIT_MAX RATELIMIT_WINDOW_MS limits
      (client (ip x) (x_forwarded_for x)) (limited x) in
  if pass then
    if key_required x then
      match requireApiKey test_mode keys (x_api_key x) with
      | Some (status, code) => ((status, error_body code), limits')
      | None => (handler_answer x, limits')
      end
    else (handler_answer x, limits')
  else ((429, error_body "RateLimitExceeded"), limits').

Definition serve_chain (st : ServerState) (x : Incoming) : (Z * body) * ServerState :=
  match
    Idempotency.enforceIdempotency body (error_body "MissingIdempotencyKey")
      (idem st) (base x) (arrival x)
  with
  | Idempotency.Reply status b => ((status, b), st)
  | Idempotency.Next =>
      let '(a, limits') := downstream (rl st) x in
      (a, {| idem := idem st; rl := limits' |})
  | Idempotency.NextRecording key =>
      let '(a, limits') := downstream (rl st) x in
      (a,
       {| idem :=
            Idempotency.record body IDEMP_MAX_ENTRIES key (fst a) (snd a)
              (answered x) (answered x) (idem st);
          rl := limits' |})
  end.
End Chain.

Arguments base {body}.
Arguments ip {body}.
Arguments x_forwarded_for {body}.
Arguments x_api_key {body}.
Arguments key_required {body}.
Arguments arrival {body}.
Arguments limited {body}.
Arguments answered {body}.
Arguments handler_answer {body}.
Arguments idem {body}.
Arguments rl {body}.

(** *** [POST /prove] and [POST /artifact]

    The two handlers have the same text. *)

(** A JavaScript string as text, when all its code units are below
    256. *)
Fixpoint text_of (s : Js.str) : option string :=
  match s with
  | [] => Some EmptyString
  | c :: rest =>
      if (c <? 256)%N then
        do t <- text_of rest;
        Some (Strings.String.String (ascii_of_N c) t)
      else None
  end.

(** [isHex32] and [normalizeHex32] on a string of the request: a code
    unit of 256 or more is no hexadecimal digit. *)
Definition isHex32_js (s : Js.str) : bool :=
  match text_of s with
  | Some t => isHex32 t
  | None => false
  end.

Definition normalizeHex32_js (s : Js.str) : option string :=
  do t <- text_of s;
  normalizeHex32 t.

Inductive ProveAnswer :=
| BadRequest (message : string)
| Proved (artifact_id proof_hash : string).

Section Prove.
Variable blake3hash : bytes -> bytes.
Variable number : Type.
Variable JSON_stringify_number : number -> Js.str.
(** [a < b] on two numbers *)
Variable number_lt : number -> number -> bool.
(** [end - start + 1 > 2048] *)
Variable window_exceeds : number -> number -> bool.
(** The number a byte count is. *)
Variable number_of_nat : nat -> number.

(** [artifact.name] on the parsed request body. *)
Definition field (artifact : value number) (name : string) : value number :=
  match artifact with
  | Object props =>
      match get (Js.lit name) props with
      | Some v => v
      | None => Undefined
      end
  | _ => Undefined
  end.

(** What [artifacts.set] stores for an identifier. *)
Record Stored := {
  stored_artifact : Anchor.Artifact number;
  stored_proof_hash : string
}.

(** The handler.  [written] tells whether [safeWriteFile] succeeds;
    the result is [None] when the handler's promise is rejected and no
    answer is sent. *)
Definition prove (artifact : value number) (written : bool)
    : option (ProveAnswer * option (string * Stored)) :=
  match artifact with
  | Object _ | Array _ =>
      match field artifact "start_slot", field artifact "end_slot",
            field artifact "state_root_before", field artifact "state_root_after" with
      | Number start_slot, Number end_slot, String before, String after =>
          if negb (isHex32_js before) || negb (isHex32_js after) then
            Some (BadRequest "missing or invalid fields", None)
          else if number_lt end_slot start_slot then
            Some (BadRequest "end_slot must be >= start_slot", None)
          else if window_exceeds start_slot end_slot then
            Some (BadRequest "slot window exceeds MAX_SLOTS_PER_ARTIFACT", None)
          else
            do srb <- normalizeHex32_js before;
            do sra <- normalizeHex32_js after;
            do minimal <-
              canonicalize JSON_stringify_number
                (Object
                   [ (Js.lit "start_slot", Number start_slot);
                     (Js.lit "end_slot", Number end_slot);
                     (Js.lit "state_root_before", String (Js.lit srb));
                     (Js.lit "state_root_after", String (Js.lit sra)) ]);
            let proofHashBytes := blake3hash (Utf8.encode minimal) in
            let proofHashHex := toString_hex proofHashBytes in
            do artifactId <- uuidFromHash32 proofHashBytes;
            do canonical <-
              canonicalize JSON_stringify_number
                (Object
                   [ (Js.lit "artifact_id", String (Js.lit artifactId));
                     (Js.lit "start_slot", Number start_slot);
                     (Js.lit "end_slot", Number end_slot);
                     (Js.lit "state_root_before", String (Js.lit srb));
                     (Js.lit "state_root_after", String (Js.lit sra)) ]);
            let artifact_len := List.length (Utf8.encode canonical) in
            if Z.of_nat artifact_len >? 512 * 1024 then
              Some (BadRequest "artifact exceeds MAX_ARTIFACT_SIZE_BYTES", None)
            else if written then
              Some (Proved artifactId proofHashHex,
                    Some (artifactId,
                          {| stored_artifact :=
                               {| Anchor.artifact_id := Some artifactId;
                                  Anchor.start_slot := Some start_slot;
                                  Anchor.end_slot := Some end_slot;
                                  Anchor.artifact_len := Some (number_of_nat artifact_len);
                                  Anchor.state_root_before := Some srb;
                                  Anchor.state_root_after := Some sra |};
                             stored_proof_hash := proofHashHex |}))
            else None
      | _, _, _, _ => Some (BadRequest "missing or invalid fields", None)
      end
  | _ => Some (BadRequest "invalid artifact", None)
  end.
End Prove.

Arguments stored_artifact {number}.
Arguments stored_proof_hash {number}.

End Server.

(** ** Notions used in the statements of Part II *)
Module Notions.
Import Idempotency Server.

(** Nothing but white space. *)
Definition blank (s : Js.str) : Prop := Forall (fun c => is_space c = true) s.

(** No white space at either end. *)
Definition tight (s : Js.str) : Prop :=
  (forall c r, s = c :: r -> is_space c = false)
  /\ (forall r c, s = r ++ [c] -> is_space c = false).

(** What the cache keeps true of itself. *)
Definition well_kept {body : Type} (IDEMP_MAX_ENTRIES : Z) (st : State body) : Prop :=
  NoDup (map fst (idempotencyCache st))
  /\ Forall (fun kv => fst kv <> [] /\ ts (snd kv) < MAX_SAFE_INTEGER)
            (idempotencyCache st)
  /\ JsMap.size (idempotencyCache st) <= IDEMP_MAX_ENTRIES.

(** The requests the limiter has served, each with its verdict. *)
Definition Log := list (Hit * bool).

(** The number of requests of [ip] let through at or after [since]. *)
Definition passed (ip : Js.str) (since : Z) (log : Log) : Z :=
  Z.of_nat
    (List.length
       (filter (fun hp => Js.eqb (hit_ip (fst hp)) ip && snd hp
                          && (since <=? hit_time (fst hp)))
               log)).

(** Requests arrive in the order of their times, none before [since]. *)
Fixpoint in_order (since : Z) (hits : list Hit) : Prop :=
  match hits with
  | [] => True
  | h :: rest => since <= hit_time h /\ in_order (hit_time h) rest
  end.

(** What the limiter's map says about the requests served so far. *)
Definition accounted (RATELIMIT_MAX RATELIMIT_WINDOW_MS : Z) (now : Z) (log : Log)
    (rl : JsMap.t Window) : Prop :=
  (forall ip, JsMap.get ip rl = None -> forall hp, In hp log -> hit_ip (fst hp) <> ip)
  /\ forall ip w,
       JsMap.get ip rl = Some w ->
       1 <= count w <= Z.max 1 RATELIMIT_MAX
       /\ passed ip (window_ts w) log = count w
       /\ window_ts w <= now
       /\ forall hp, In hp log -> hit_ip (fst hp) = ip -> snd hp = true ->
                     hit_time (fst hp) <= window_ts w + RATELIMIT_WINDOW_MS.

End Notions.

Module IndexerNotions.
Import Indexer.

(** The columns of a row that a cycle never writes. *)
Definition identity (r : ProofRow) : string * Z * Z := (txid r, ts r, seq r).

(** [after] is [before] with some transaction ids removed, whatever
    the levels are. *)
Definition thinned (before after : list ProofRow) : Prop :=
  exists p : string -> bool,
    map identity after = filter (fun k => p (fst (fst k))) (map identity before).

(** Whether the row with this signature moves the cursor: it has a
    signature and the ledger reports it confirmed or finalized,
    without an error. *)
Definition advances (w : World) (sig : string) : bool :=
  negb (String.eqb sig EmptyString)
  && match getSignatureStatus w sig with
     | Some {| err := false; confirmationStatus := cs |} => level_of cs >=? 1
     | _ => false
     end.

End IndexerNotions.

(* ===================================================================== *)
(** * Part II.  Lemmas and theorems                                       *)
(* ===================================================================== *)

(** ** Bytes and little-endian numbers *)
Module BufFacts.
Import Buf.

Lemma Z_of_byte_range (b : byte) : 0 <= Z_of_byte b < 256.
Proof.
  unfold Z_of_byte. pose proof (Byte.to_N_bounded b) as Hb.
  split; [apply N2Z.is_nonneg | ].
  apply (N2Z.inj_le _ 255%N) in Hb. change (Z.of_N 255) with 255 in Hb. lia.
Qed.

Lemma Z_of_byte_of_Z (z : Z) : Z_of_byte (byte_of_Z z) = z mod 256.
Proof.
  unfold Z_of_byte, byte_of_Z.
  assert (Hr : 0 <= z mod 256 < 256) by (apply Z.mod_pos_bound; lia).
  destruct (Byte.of_N (Z.to_N (z mod 256))) as [b|] eqn:E.
  - apply Byte.to_of_N in E. rewrite E. rewrite Z2N.id; lia.
  - apply Byte.of_N_None_iff in E.
    apply N2Z.inj_lt in E. rewrite Z2N.id in E by lia.
    change (Z.of_N 255) with 255 in E. lia.
Qed.

Lemma byte_of_Z_of_byte (b : byte) : byte_of_Z (Z_of_byte b) = b.
Proof.
  unfold byte_of_Z. rewrite Z.mod_small by apply Z_of_byte_range.
  unfold Z_of_byte. rewrite N2Z.id, Byte.of_to_N. reflexivity.
Qed.

Lemma Z_of_byte_inj (a b : byte) : Z_of_byte a = Z_of_byte b -> a = b.
Proof.
  intros H. rewrite <- (byte_of_Z_of_byte a), <- (byte_of_Z_of_byte b), H.
  reflexivity.
Qed.

Lemma length_le_bytes (n : nat) (v : Z) : List.length (le_bytes n v) = n.
Proof. revert v; induction n as [|n IH]; intros v; simpl; [|rewrite IH]; reflexivity. Qed.

Lemma le_value_range (bs : bytes) :
  0 <= le_value bs < 256 ^ Z.of_nat (List.length bs).
Proof.
  induction bs as [|b bs IH].
  - simpl. lia.
  - cbn [le_value List.length]. rewrite Nat2Z.inj_succ, Z.pow_succ_r by lia.
    pose proof (Z_of_byte_range b). lia.
Qed.

Lemma le_value_le_bytes (n : nat) (v : Z) :
  le_value (le_bytes n v) = v mod 256 ^ Z.of_nat n.
Proof.
  revert v; induction n as [|n IH]; intros v.
  - simpl. now rewrite Z.mod_1_r.
  - cbn [le_bytes le_value]. rewrite IH, Z_of_byte_of_Z, Z.shiftr_div_pow2 by lia.
    rewrite Nat2Z.inj_succ, Z.pow_succ_r by lia.
    change (2 ^ 8) with 256.
    rewrite Z.rem_mul_r by (try apply Z.pow_pos_nonneg; lia). reflexivity.
Qed.

Lemma le_value_app (a b : bytes) :
  le_value (a ++ b) = le_value a + 256 ^ Z.of_nat (List.length a) * le_value b.
Proof.
  induction a as [|x a IH].
  - cbn [app le_value List.length]. change (Z.of_nat 0) with 0.
    rewrite Z.pow_0_r. lia.
  - cbn [app le_value List.length]. rewrite IH, Nat2Z.inj_succ, Z.pow_succ_r by lia.
    ring.
Qed.

(** Two byte strings of the same length with the same value are equal. *)
Lemma le_value_inj (a b : bytes) :
  List.length a = List.length b -> le_value a = le_value b -> a = b.
Proof.
  revert b; induction a as [|x a IH]; intros [|y b] Hlen Hval; try discriminate.
  - reflexivity.
  - cbn [le_value] in Hval. injection Hlen as Hlen.
    pose proof (Z_of_byte_range x). pose proof (Z_of_byte_range y).
    assert (Z_of_byte x = Z_of_byte y /\ le_value a = le_value b) as [Hx Hr] by lia.
    f_equal; [now apply Z_of_byte_inj | now apply IH].
Qed.

(** The eight stores of a 64-bit write hold the value modulo 2^64. *)
Lemma writeBigU_Int64LE_value (v lo hi : Z) (bs : bytes) :
  writeBigU_Int64LE v lo hi = Some bs ->
  List.length bs = 8%nat /\ le_value bs = v mod 2 ^ 64.
Proof.
  unfold writeBigU_Int64LE. destruct ((lo <=? v) && (v <=? hi)); [|discriminate].
  cbv zeta. intros E.
  assert (bs = le_bytes 4 (Z.land v 0xffffffff)
                 ++ le_bytes 4 (Z.land (Z.shiftr v 32) 0xffffffff)) as ->
      by congruence.
  clear E. split.
  - rewrite length_app, !length_le_bytes. reflexivity.
  - rewrite le_value_app, !le_value_le_bytes, length_le_bytes.
    change 0xffffffff with (Z.ones 32).
    rewrite !Z.land_ones, Z.shiftr_div_pow2 by lia.
    change (256 ^ Z.of_nat 4) with (2 ^ 32).
    rewrite !Z.mod_mod by lia.
    change (2 ^ 64) with (2 ^ 32 * 2 ^ 32).
    rewrite Z.rem_mul_r by lia. reflexivity.
Qed.

Lemma writeBigUInt64LE_total (v : Z) :
  0 <= v < 2 ^ 64 ->
  exists bs, writeBigUInt64LE v = Some bs /\ List.length bs = 8%nat /\ le_value bs = v.
Proof.
  intros Hv. unfold writeBigUInt64LE.
  destruct (writeBigU_Int64LE v 0 0xffffffffffffffff) as [bs|] eqn:E.
  - exists bs. destruct (writeBigU_Int64LE_value _ _ _ _ E) as [Hl Hval].
    rewrite Z.mod_small in Hval by assumption. auto.
  - unfold writeBigU_Int64LE in E.
    replace ((0 <=? v) && (v <=? 0xffffffffffffffff)) with true in E; [discriminate|].
    symmetry. apply andb_true_intro. split; apply Z.leb_le; lia.
Qed.

Lemma writeBigInt64LE_total (v : Z) :
  - 2 ^ 63 <= v < 2 ^ 63 ->
  exists bs, writeBigInt64LE v = Some bs /\ List.length bs = 8%nat
             /\ le_value bs = v mod 2 ^ 64.
Proof.
  intros Hv. unfold writeBigInt64LE.
  destruct (writeBigU_Int64LE v (- 0x8000000000000000) 0x7fffffffffffffff) as [bs|] eqn:E.
  - exists bs. destruct (writeBigU_Int64LE_value _ _ _ _ E). auto.
  - unfold writeBigU_Int64LE in E.
    replace ((- 0x8000000000000000 <=? v) && (v <=? 0x7fffffffffffffff)) with true in E;
      [discriminate|].
    symmetry. apply andb_true_intro. split; apply Z.leb_le; lia.
Qed.

Lemma u32le_total (n : Z) :
  exists bs, Crypto.u32le n = Some bs /\ List.length bs = 4%nat
             /\ le_value bs = n mod 2 ^ 32.
Proof.
  unfold Crypto.u32le, Crypto.to_uint32, writeUInt32LE.
  change 4294967296 with (2 ^ 32).
  assert (H : 0 <= n mod 2 ^ 32 < 2 ^ 32) by (apply Z.mod_pos_bound; lia).
  replace ((0 <=? n mod 2 ^ 32) && (n mod 2 ^ 32 <=? 0xffffffff)) with true
    by (symmetry; apply andb_true_intro; split; apply Z.leb_le; lia).
  eexists; split; [reflexivity|]. split; [apply length_le_bytes|].
  rewrite le_value_le_bytes. change (256 ^ Z.of_nat 4) with (2 ^ 32).
  apply Z.mod_mod. lia.
Qed.

(** A signed 64-bit value is read back from its two's complement. *)
Lemma to_int64_mod (v : Z) :
  - 2 ^ 63 <= v < 2 ^ 63 -> to_int64 (v mod 2 ^ 64) = v.
Proof.
  intros Hv. unfold to_int64.
  change 0x8000000000000000 with (2 ^ 63). change 0x10000000000000000 with (2 ^ 64).
  destruct (Z.ltb_spec (v mod 2 ^ 64) (2 ^ 63)) as [H|H].
  - destruct (Z.lt_ge_cases v 0) as [Hn|Hn].
    + rewrite <- (Z.mod_add v 1 (2 ^ 64)) in H by lia.
      rewrite Z.mod_small in H; lia.
    + apply Z.mod_small. lia.
  - destruct (Z.lt_ge_cases v 0) as [Hn|Hn].
    + rewrite <- (Z.mod_add v 1 (2 ^ 64)) by lia.
      rewrite Z.mod_small; lia.
    + rewrite Z.mod_small in H; lia.
Qed.

Lemma subarray_at (a s b : bytes) :
  subarray (a ++ s ++ b) (List.length a) (List.length s) = s.
Proof.
  unfold subarray.
  rewrite skipn_app, Nat.sub_diag, skipn_all. cbn [app skipn].
  rewrite firstn_app, Nat.sub_diag, firstn_all. cbn [firstn].
  apply app_nil_r.
Qed.

Lemma read_bytes_at (a s b : bytes) :
  read_bytes (a ++ s ++ b) (List.length a) (List.length s) = Some s.
Proof.
  unfold read_bytes. rewrite subarray_at, Nat.eqb_refl. reflexivity.
Qed.

End BufFacts.

(** ** [crypto.ts]: the commitment preimage and the anchor payload *)
Module CryptoFacts.
Import Buf Crypto Spec BufFacts.

Lemma enc64_little_endian (v : Z) :
  is_u64 v -> exists bs, enc64 v = Some bs /\ little_endian 8 v bs.
Proof.
  intros Hv. destruct (writeBigUInt64LE_total v Hv) as (bs & E & Hl & Hval).
  exists bs. unfold enc64, little_endian. auto.
Qed.

Lemma i64le_little_endian (v : Z) :
  is_i64 v -> exists bs, i64le v = Some bs /\ little_endian_signed64 v bs.
Proof.
  intros Hv. destruct (writeBigInt64LE_total v Hv) as (bs & E & Hl & Hval).
  exists bs. unfold i64le, little_endian_signed64. auto.
Qed.

(** The discriminator of the anchor instruction, computed. *)
Lemma anchor_proof_discriminator :
  sha256_8 "global:anchor_proof" = [xa6; x3a; x90; x69; xf2; x12; x20; x1b].
Proof. vm_compute. reflexivity. Qed.

Lemma anchor_proof_digest_prefix :
  firstn 8 (Sha256.digest (from_ascii "global:anchor_proof"))
  = [xa6; x3a; x90; x69; xf2; x12; x20; x1b].
Proof. vm_compute. reflexivity. Qed.

(** The round constants are what FIPS 180-4 says they are. *)
Lemma round_constants_are_cube_roots :
  forallb (fun pk => Sha256.is_cube_root_fraction (fst pk) (snd pk))
          (combine Sha256.first_primes Sha256.round_constants) = true.
Proof. vm_compute. reflexivity. Qed.

(** A test vector of FIPS 180-4. *)
Lemma sha256_abc :
  toString_hex (Sha256.digest (from_ascii "abc"))
  = "ba7816bf8f01cfea414140de5dae2223b00361a396177a9cb410ff61f20015ad"%string.
Proof. vm_compute. reflexivity. Qed.

(** C1.  For inputs of the stated types (the three slots, [chain_id]
    and [seq] unsigned 64-bit, [program_id] and [proof_hash] 32 bytes),
    [buildDS] returns the preimage that is, in order, the 14 ASCII bytes
    of [zKSL/anchor/v1], [chain_id] in 8 little-endian bytes,
    [program_id], [proof_hash], and [start_slot], [end_slot], [seq] in
    8 little-endian bytes each; it is 110 bytes long and the digest
    returned with it is BLAKE3 of that preimage. *)
Theorem buildDS_preimage (blake3hash : bytes -> bytes) (p : DSParams) :
  is_u64 (chainId p) ->
  List.length (programId p) = 32%nat ->
  List.length (proofHash p) = 32%nat ->
  is_u64 (startSlot p) -> is_u64 (endSlot p) -> is_u64 (seq p) ->
  exists c s e q,
    little_endian 8 (chainId p) c /\ little_endian 8 (startSlot p) s
    /\ little_endian 8 (endSlot p) e /\ little_endian 8 (seq p) q
    /\ let preimage :=
         from_ascii "zKSL/anchor/v1" ++ c ++ programId p ++ proofHash p
           ++ s ++ e ++ q in
       buildDS blake3hash p = Some {| ds := preimage; dsHash := blake3hash preimage |}
       /\ List.length (from_ascii "zKSL/anchor/v1") = 14%nat
       /\ List.length preimage = 110%nat.
Proof.
  intros Hc Hpid Hph Hs He Hq.
  destruct (enc64_little_endian _ Hc) as (c & Ec & Lc).
  destruct (enc64_little_endian _ Hs) as (s & Es & Ls).
  destruct (enc64_little_endian _ He) as (e & Ee & Le).
  destruct (enc64_little_endian _ Hq) as (q & Eq & Lq).
  exists c, s, e, q. repeat (split; [assumption|]).
  unfold buildDS. rewrite Ec, Es, Ee, Eq.
  cbn [List.concat]. rewrite app_nil_r.
  split; [reflexivity|]. split; [reflexivity|].
  destruct Lc as [Lc _], Ls as [Ls _], Le as [Le _], Lq as [Lq _].
  rewrite !length_app, Lc, Ls, Le, Lq, Hpid, Hph. reflexivity.
Qed.

Lemma buildDS_preimage_witness :
  exists r,
    buildDS (fun _ => repeat x00 32)
      {| chainId := 0x0102030405060708; programId := repeat x00 32;
         proofHash := repeat x00 32; startSlot := 1; endSlot := 2; seq := 3 |}
    = Some r
    /\ List.length (ds r) = 110%nat
    /\ firstn 8 (skipn 14 (ds r)) = [x08; x07; x06; x05; x04; x03; x02; x01].
Proof.
  destruct (buildDS_preimage (fun _ => repeat x00 32)
              {| chainId := 0x0102030405060708; programId := repeat x00 32;
                 proofHash := repeat x00 32; startSlot := 1; endSlot := 2; seq := 3 |})
    as (c & s & e & q & Hc & _ & _ & _ & Hds & _ & Hlen);
    try (unfold is_u64; cbn; lia); try reflexivity.
  eexists. split; [exact Hds|]. split; [exact Hlen|].
  cbn [ds]. destruct Hc as [Lc Vc].
  assert (c = [x08; x07; x06; x05; x04; x03; x02; x01]) as ->
      by (apply le_value_inj; [exact Lc | rewrite Vc; reflexivity]).
  reflexivity.
Defined.

(** C2.  For inputs of the stated widths, [encodeAnchorProofArgsBorsh]
    returns 220 bytes: the first 8 bytes of the SHA-256 digest of
    [global:anchor_proof], then the 212-byte payload [artifact_id] (16),
    [proof_hash] (32), [seq], [start_slot], [end_slot] (8 each, u64
    little-endian), [artifact_len] (4, u32 little-endian),
    [state_root_before], [state_root_after], [aggregator_pubkey] (32
    each), [timestamp] (8, i64 little-endian) and [ds_hash] (32). *)
Theorem encodeAnchorProofArgsBorsh_layout
    (artifact_id proof_hash state_root_before state_root_after
       aggregator_pubkey ds_hash : bytes)
    (seq start_slot end_slot artifact_len timestamp : Z) :
  List.length artifact_id = 16%nat ->
  List.length proof_hash = 32%nat ->
  List.length state_root_before = 32%nat ->
  List.length state_root_after = 32%nat ->
  List.length aggregator_pubkey = 32%nat ->
  List.length ds_hash = 32%nat ->
  is_u64 seq -> is_u64 start_slot -> is_u64 end_slot -> is_i64 timestamp ->
  exists seq_le start_le end_le len_le ts_le,
    u64le seq = Some seq_le /\ little_endian 8 seq seq_le
    /\ u64le start_slot = Some start_le /\ little_endian 8 start_slot start_le
    /\ u64le end_slot = Some end_le /\ little_endian 8 end_slot end_le
    /\ little_endian 4 (artifact_len mod 2 ^ 32) len_le
    /\ i64le timestamp = Some ts_le /\ little_endian_signed64 timestamp ts_le
    /\ let disc := firstn 8 (Sha256.digest (from_ascii "global:anchor_proof")) in
       let payload :=
         artifact_id ++ proof_hash ++ seq_le ++ start_le ++ end_le ++ len_le
           ++ state_root_before ++ state_root_after ++ aggregator_pubkey
           ++ ts_le ++ ds_hash in
       encodeAnchorProofArgsBorsh
         {| artifactId := artifact_id; proofHash32 := proof_hash;
            seqLe := seq_le; startLe := start_le; endLe := end_le;
            artifactLen := artifact_len;
            stateRootBefore := state_root_before;
            stateRootAfter := state_root_after;
            aggregatorPubkey := aggregator_pubkey;
            timestampLe := ts_le; dsHash32 := ds_hash |}
       = Some (disc ++ payload)
       /\ List.length disc = 8%nat
       /\ List.length payload = 212%nat
       /\ List.length (disc ++ payload) = 220%nat.
Proof.
  intros Ha Hp Hb Hf Hg Hd Hq Hs He Ht.
  destruct (enc64_little_endian _ Hq) as (q & Eq & Lq).
  destruct (enc64_little_endian _ Hs) as (s & Es & Ls).
  destruct (enc64_little_endian _ He) as (e & Ee & Le).
  destruct (i64le_little_endian _ Ht) as (t & Et & Lt).
  destruct (u32le_total artifact_len) as (l & El & Ll & Vl).
  exists q, s, e, l, t. unfold u64le. change writeBigUInt64LE with enc64.
  repeat (split; [first [assumption | split; assumption]|]).
  cbv zeta. unfold encodeAnchorProofArgsBorsh. cbn [artifactLen]. rewrite El.
  cbn [List.concat artifactId proofHash32 seqLe startLe endLe stateRootBefore
         stateRootAfter aggregatorPubkey timestampLe dsHash32].
  rewrite !app_nil_r, anchor_proof_discriminator, anchor_proof_digest_prefix.
  assert (Hdisc : List.length [xa6; x3a; x90; x69; xf2; x12; x20; x1b] = 8%nat)
    by reflexivity.
  split; [reflexivity|]. split; [exact Hdisc|].
  destruct Lq as [Lq _], Ls as [Ls _], Le as [Le _], Lt as [Lt _].
  assert (Hpay : List.length
                   (artifact_id ++ proof_hash ++ q ++ s ++ e ++ l ++ state_root_before
                      ++ state_root_after ++ aggregator_pubkey ++ t ++ ds_hash)
                 = 212%nat)
    by (rewrite !length_app, Ha, Hp, Lq, Ls, Le, Ll, Hb, Hf, Hg, Lt, Hd; reflexivity).
  split; [exact Hpay|]. rewrite length_app, Hdisc, Hpay. reflexivity.
Qed.

Lemma encodeAnchorProofArgsBorsh_layout_witness :
  exists data,
    encodeAnchorProofArgsBorsh
      {| artifactId := repeat x00 16; proofHash32 := repeat x00 32;
         seqLe := [x01; x00; x00; x00; x00; x00; x00; x00];
         startLe := [x01; x00; x00; x00; x00; x00; x00; x00];
         endLe := [x01; x00; x00; x00; x00; x00; x00; x00];
         artifactLen := 0;
         stateRootBefore := repeat x00 32; stateRootAfter := repeat x00 32;
         aggregatorPubkey := repeat x00 32;
         timestampLe := [x01; x00; x00; x00; x00; x00; x00; x00];
         dsHash32 := repeat x00 32 |} = Some data
    /\ List.length data = 220%nat.
Proof.
  destruct (encodeAnchorProofArgsBorsh_layout
              (repeat x00 16) (repeat x00 32) (repeat x00 32) (repeat x00 32)
              (repeat x00 32) (repeat x00 32) 1 1 1 0 1)
    as (q & s & e & l & t & Eq & _ & Es & _ & Ee & _ & _ & Et & _ & Henc & _ & _ & Hlen);
    try reflexivity; try (unfold is_u64, is_i64; cbn; lia).
  vm_compute in Eq, Es, Ee, Et.
  injection Eq as <-. injection Es as <-. injection Ee as <-. injection Et as <-.
  eexists. split; [exact Henc | exact Hlen].
Defined.

End CryptoFacts.

(** ** [crypto.ts]: the artifact identifier *)
Module UuidFacts.
Import Buf Crypto Spec BufFacts.

Lemma hex_digits_lower (b : byte) :
  is_lower_hex (hex_hi b) = true /\ is_lower_hex (hex_lo b) = true.
Proof. destruct b; vm_compute; split; reflexivity. Qed.

(** Byte 6 after the version is set. *)
Lemma version_byte (b : byte) :
  let v := Z.lor (Z.land (Z_of_byte b) 0x0f) 0x40 in
  (0 <=? v) && (v <=? 255) = true
  /\ byte_of_Z v = byte_of_Z (4 * 16 + Z_of_byte b mod 16)
  /\ hex_hi (byte_of_Z v) = "4"%char
  /\ hex_lo (byte_of_Z v) = hex_lo b.
Proof. destruct b; vm_compute; repeat split; reflexivity. Qed.

(** Byte 8 after the variant is set. *)
Lemma variant_byte (b : byte) :
  let v := Z.lor (Z.land (Z_of_byte b) 0x3f) 0x80 in
  (0 <=? v) && (v <=? 255) = true
  /\ byte_of_Z v = byte_of_Z (2 * 64 + Z_of_byte b mod 64)
  /\ is_variant_digit (hex_hi (byte_of_Z v)) = true
  /\ hex_lo (byte_of_Z v) = hex_lo b.
Proof. destruct b; vm_compute; repeat split; reflexivity. Qed.

Lemma at_least_16 (hash : bytes) :
  (16 <= List.length hash)%nat ->
  exists b0 b1 b2 b3 b4 b5 b6 b7 b8 b9 b10 b11 b12 b13 b14 b15 rest,
    hash = b0 :: b1 :: b2 :: b3 :: b4 :: b5 :: b6 :: b7 :: b8 :: b9 :: b10
              :: b11 :: b12 :: b13 :: b14 :: b15 :: rest.
Proof.
  intros H.
  do 16 (destruct hash as [|? hash]; [cbn in H; lia|]).
  repeat eexists.
Qed.

Lemma uuidFromHash32_bytes (hash : bytes) :
  (16 <= List.length hash)%nat ->
  uuidFromHash32 hash = Some (dashed (toString_hex (uuid_bytes hash))).
Proof.
  intros H.
  destruct (at_least_16 hash H)
    as (b0 & b1 & b2 & b3 & b4 & b5 & b6 & b7 & b8 & b9 & b10 & b11 & b12
          & b13 & b14 & b15 & rest & ->).
  unfold uuidFromHash32, uuid_bytes, readUInt8, read_bytes, subarray, writeUInt8.
  cbn [List.length Nat.ltb Nat.leb firstn skipn Nat.eqb option_map le_value
         app nth].
  rewrite !Z.mul_0_r, !Z.add_0_r.
  destruct (version_byte b6) as (R6 & E6 & _).
  destruct (variant_byte b8) as (R8 & E8 & _).
  cbv zeta in R6, E6, R8, E8.
  rewrite R6.
  cbn [andb List.length Nat.ltb Nat.leb firstn skipn Nat.eqb option_map
         le_value app].
  rewrite !Z.mul_0_r, !Z.add_0_r, R8. cbn [andb app].
  rewrite E6, E8. reflexivity.
Qed.

Lemma uuid_bytes_is_v4 (hash : bytes) :
  (16 <= List.length hash)%nat ->
  List.length (uuid_bytes hash) = 16%nat
  /\ is_uuid_v4 (dashed (toString_hex (uuid_bytes hash))) = true.
Proof.
  intros H.
  destruct (at_least_16 hash H)
    as (b0 & b1 & b2 & b3 & b4 & b5 & b6 & b7 & b8 & b9 & b10 & b11 & b12
          & b13 & b14 & b15 & rest & ->).
  split; [reflexivity|].
  unfold uuid_bytes. cbn [firstn skipn app nth].
  destruct (version_byte b6) as (_ & E6 & V6 & L6).
  destruct (variant_byte b8) as (_ & E8 & V8 & L8).
  cbv zeta in E6, V6, L6, E8, V8, L8.
  rewrite <- E6, <- E8.
  unfold is_uuid_v4, dashed, slice, slice_from.
  cbn [toString_hex String.length Nat.sub substring String.append
         list_ascii_of_string uuid_shape existsb Nat.eqb orb].
  rewrite V6, L6, V8, L8.
  repeat match goal with
         | |- context [is_lower_hex (hex_hi ?b)] =>
             rewrite (proj1 (hex_digits_lower b))
         | |- context [is_lower_hex (hex_lo ?b)] =>
             rewrite (proj2 (hex_digits_lower b))
         end.
  reflexivity.
Qed.

(** C8.  For a proof-hash of at least 16 bytes, the identifier is the
    dashed hexadecimal rendering of its first 16 bytes with the high
    nibble of byte 6 set to [0100] and the top two bits of byte 8 set
    to [10]; it has the shape of an RFC 4122 version-4 UUID, and it is
    a function of the first 16 bytes of the hash alone. *)
Theorem uuidFromHash32_v4 (hash : bytes) :
  (16 <= List.length hash)%nat ->
  uuidFromHash32 hash = Some (dashed (toString_hex (uuid_bytes hash)))
  /\ List.length (uuid_bytes hash) = 16%nat
  /\ is_uuid_v4 (dashed (toString_hex (uuid_bytes hash))) = true
  /\ forall hash' : bytes,
       firstn 16 hash' = firstn 16 hash -> uuidFromHash32 hash' = uuidFromHash32 hash.
Proof.
  intros H. split; [now apply uuidFromHash32_bytes|].
  destruct (uuid_bytes_is_v4 hash H) as [Hl Hv].
  split; [exact Hl|]. split; [exact Hv|].
  intros hash' Hfirst.
  assert (H' : (16 <= List.length hash')%nat).
  { apply (f_equal (@List.length byte)) in Hfirst.
    rewrite !length_firstn in Hfirst. lia. }
  rewrite !uuidFromHash32_bytes by assumption.
  destruct (at_least_16 hash H)
    as (b0 & b1 & b2 & b3 & b4 & b5 & b6 & b7 & b8 & b9 & b10 & b11 & b12
          & b13 & b14 & b15 & rest & ->).
  destruct (at_least_16 hash' H')
    as (c0 & c1 & c2 & c3 & c4 & c5 & c6 & c7 & c8 & c9 & c10 & c11 & c12
          & c13 & c14 & c15 & rest' & ->).
  cbn [firstn] in Hfirst. injection Hfirst as -> -> -> -> -> -> -> -> -> -> -> -> -> -> -> ->.
  reflexivity.
Qed.

Lemma uuidFromHash32_v4_witness :
  uuidFromHash32 (repeat xff 32) = Some "ffffffff-ffff-4fff-bfff-ffffffffffff"%string
  /\ is_uuid_v4 "ffffffff-ffff-4fff-bfff-ffffffffffff" = true.
Proof.
  destruct (uuidFromHash32_v4 (repeat xff 32)) as (E & _ & V & _);
    [cbn; lia|].
  split; [exact E | exact V].
Defined.

End UuidFacts.

(** ** [codec.ts]: what the decoders read *)
Module CodecFacts.
Import Buf Codec Spec BufFacts.

Lemma subarray_skip (a b : bytes) (o w : nat) :
  (List.length a <= o)%nat ->
  subarray (a ++ b) o w = subarray b (o - List.length a) w.
Proof.
  intros H. unfold subarray. rewrite skipn_app, (skipn_all2 a) by exact H.
  reflexivity.
Qed.

Lemma subarray_here (a b : bytes) (o w : nat) :
  o = 0%nat -> List.length a = w -> subarray (a ++ b) o w = a.
Proof.
  intros -> <-. unfold subarray. cbn [skipn].
  rewrite firstn_app, Nat.sub_diag, firstn_all. cbn [firstn]. apply app_nil_r.
Qed.

Lemma subarray_last (a : bytes) (o w : nat) :
  o = 0%nat -> List.length a = w -> subarray a o w = a.
Proof. intros -> <-. unfold subarray. cbn [skipn]. apply firstn_all. Qed.

Lemma read_bytes_skip (a b : bytes) (o w : nat) :
  (List.length a <= o)%nat ->
  read_bytes (a ++ b) o w = read_bytes b (o - List.length a) w.
Proof. intros H. unfold read_bytes. rewrite subarray_skip by exact H. reflexivity. Qed.

Lemma read_bytes_here (a b : bytes) (o w : nat) :
  o = 0%nat -> List.length a = w -> read_bytes (a ++ b) o w = Some a.
Proof.
  intros Ho Hw. unfold read_bytes. rewrite subarray_here by assumption.
  rewrite Hw, Nat.eqb_refl. reflexivity.
Qed.

(** A read inside the buffer succeeds. *)
Lemma read_bytes_inside (data : bytes) (o w : nat) :
  (o + w <= List.length data)%nat ->
  read_bytes data o w = Some (firstn w (skipn o data)).
Proof.
  intros H. unfold read_bytes, subarray.
  rewrite length_firstn, length_skipn.
  replace (Nat.min w (List.length data - o)) with w by lia.
  rewrite Nat.eqb_refl. reflexivity.
Qed.

Lemma firstn_1_skipn (data : bytes) (o : nat) :
  (o < List.length data)%nat -> firstn 1 (skipn o data) = [nth o data x00].
Proof.
  revert data; induction o as [|o IH]; intros [|b data] H; cbn in H; try lia.
  - reflexivity.
  - cbn [skipn nth]. apply IH. lia.
Qed.

Lemma Z_of_byte_zero (b : byte) : (Z_of_byte b =? 0) = true <-> b = x00.
Proof.
  rewrite Z.eqb_eq. split.
  - intros H. apply Z_of_byte_inj. rewrite H. reflexivity.
  - intros ->. reflexivity.
Qed.

(** The amended C10.  [decodeValidatorRecord] reads the status at
    offset 80 of the account data (72 bytes past the 8-byte
    discriminator): it succeeds on every buffer of at least 89 bytes,
    whatever that byte holds, with status [Active] when the byte is 0 and
    [Unlocked] for every other value. *)
Theorem decodeValidatorRecord_status (data : bytes) :
  (89 <= List.length data)%nat ->
  exists r,
    decodeValidatorRecord data = Some r
    /\ (nth 80 data x00 = x00 -> status r = Active)
    /\ (nth 80 data x00 <> x00 -> status r = Unlocked).
Proof.
  intros H.
  unfold decodeValidatorRecord, readBigInt64LE, readUInt8, readBigUInt64LE.
  cbv zeta. cbn [Nat.add].
  rewrite !read_bytes_inside by lia. cbn [option_map].
  rewrite firstn_1_skipn by lia. cbn [le_value].
  rewrite Z.mul_0_r, Z.add_0_r.
  eexists. split; [reflexivity|]. cbn [status].
  destruct (Z_of_byte (nth 80 data x00) =? 0) eqn:E.
  - apply Z_of_byte_zero in E. split; [reflexivity | intros N; contradiction].
  - split; [|reflexivity]. intros Z0. apply Z_of_byte_zero in Z0. congruence.
Qed.

Lemma decodeValidatorRecord_status_witness :
  exists r,
    decodeValidatorRecord Examples.validator_account = Some r
    /\ status r = Unlocked.
Proof.
  destruct (decodeValidatorRecord_status Examples.validator_account) as (r & E & _ & U);
    [cbn; lia|].
  exists r. split; [exact E|]. apply U. cbn. discriminate.
Defined.

Lemma validator_account_status :
  option_map status (decodeValidatorRecord Examples.validator_account) = Some Unlocked.
Proof. vm_compute. reflexivity. Qed.

(** C10 as stated reads the status at offset 72, which is the first byte
    of [lock_ts]: an account whose byte 72 is 0 and whose status byte is
    1 decodes to [Unlocked]. *)
Lemma status_not_read_at_72 : ~ status_read_at 72.
Proof.
  intros claim. pose proof validator_account_status as S.
  destruct (decodeValidatorRecord Examples.validator_account) as [r|] eqn:E;
    [|discriminate S].
  destruct (claim _ _ E) as [A _].
  assert (HA : status r = Active) by (apply A; reflexivity).
  cbn [option_map] in S. congruence.
Qed.

(** Reading one field out of a concatenation of fields. *)
Ltac read_field :=
  repeat (first [ rewrite subarray_skip by (rewrite ?length_le_bytes; lia)
                | rewrite read_bytes_skip by (rewrite ?length_le_bytes; lia) ]);
  first [ apply subarray_here | apply read_bytes_here ];
  rewrite ?length_le_bytes; lia.

Lemma account_body_length (a : ProofAccount) :
  well_formed_account a -> List.length (account_body a) = 244%nat.
Proof.
  intros (H1 & _ & _ & H4 & _ & H6 & H7 & H8 & H9 & _ & _ & H12).
  unfold account_body.
  rewrite !length_app, !length_le_bytes, H1, H4, H6, H7, H8, H9, H12. reflexivity.
Qed.

Lemma decodeProofRecord_reads (disc tail : bytes) (a : ProofAccount) :
  List.length disc = 8%nat ->
  well_formed_account a ->
  decodeProofRecord (disc ++ account_body a ++ tail)
  = Some {| artifact_id := uuidFrom16 (pa_artifact_id a);
            start_slot := pa_start_slot a;
            end_slot := pa_end_slot a;
            proof_hash := pa_proof_hash a;
            artifact_len := pa_artifact_len a;
            state_root_before := pa_state_root_before a;
            state_root_after := pa_state_root_after a;
            submitted_by := bs58_encode (pa_submitted_by a);
            aggregator_pubkey := bs58_encode (pa_aggregator_pubkey a);
            timestamp := pa_timestamp a;
            seq := pa_seq a;
            ds_hash := pa_ds_hash a |}.
Proof.
  intros Hd (H1 & H2 & H3 & H4 & H5 & H6 & H7 & H8 & H9 & H10 & H11 & H12).
  unfold account_body. rewrite <- !app_assoc.
  set (data := disc ++ _).
  assert (E1 : subarray data 8 16 = pa_artifact_id a) by (subst data; read_field).
  assert (E2 : read_bytes data 24 8 = Some (le_bytes 8 (pa_start_slot a)))
    by (subst data; read_field).
  assert (E3 : read_bytes data 32 8 = Some (le_bytes 8 (pa_end_slot a)))
    by (subst data; read_field).
  assert (E4 : subarray data 40 32 = pa_proof_hash a) by (subst data; read_field).
  assert (E5 : read_bytes data 72 4 = Some (le_bytes 4 (pa_artifact_len a)))
    by (subst data; read_field).
  assert (E6 : subarray data 76 32 = pa_state_root_before a) by (subst data; read_field).
  assert (E7 : subarray data 108 32 = pa_state_root_after a) by (subst data; read_field).
  assert (E8 : subarray data 140 32 = pa_submitted_by a) by (subst data; read_field).
  assert (E9 : subarray data 172 32 = pa_aggregator_pubkey a) by (subst data; read_field).
  assert (E10 : read_bytes data 204 8 = Some (le_bytes 8 (pa_timestamp a)))
    by (subst data; read_field).
  assert (E11 : read_bytes data 212 8 = Some (le_bytes 8 (pa_seq a)))
    by (subst data; read_field).
  assert (E12 : subarray data 220 32 = pa_ds_hash a) by (subst data; read_field).
  unfold decodeProofRecord, readBigUInt64LE, readUInt32LE, readBigInt64LE.
  cbv zeta. cbn [Nat.add].
  rewrite E1, E2, E3, E4, E5, E6, E7, E8, E9, E10, E11, E12.
  cbn [option_map]. rewrite !le_value_le_bytes.
  change (256 ^ Z.of_nat 8) with (2 ^ 64). change (256 ^ Z.of_nat 4) with (2 ^ 32).
  rewrite (to_int64_mod _ H10).
  unfold is_u64 in H2, H3, H11.
  rewrite !Z.mod_small by assumption. reflexivity.
Qed.

(** The amended C3.  After the 8-byte discriminator the decoder reads
    twelve fields, 244 bytes: [artifact_id] (16), [start_slot] and
    [end_slot] (u64 little-endian), [proof_hash] (32), [artifact_len]
    (u32 little-endian), [state_root_before], [state_root_after],
    [submitted_by], [aggregator_pubkey] (32 each), [timestamp] (i64
    little-endian), [seq] (u64 little-endian) and [ds_hash] (32).  These
    are the fields of the anchor payload and [submitted_by], in an order
    of their own. *)
Theorem decodeProofRecord_account_layout (disc tail : bytes) (a : ProofAccount) :
  List.length disc = 8%nat ->
  well_formed_account a ->
  List.length (account_body a) = 244%nat
  /\ decodeProofRecord (disc ++ account_body a ++ tail)
     = Some {| artifact_id := uuidFrom16 (pa_artifact_id a);
               start_slot := pa_start_slot a;
               end_slot := pa_end_slot a;
               proof_hash := pa_proof_hash a;
               artifact_len := pa_artifact_len a;
               state_root_before := pa_state_root_before a;
               state_root_after := pa_state_root_after a;
               submitted_by := bs58_encode (pa_submitted_by a);
               aggregator_pubkey := bs58_encode (pa_aggregator_pubkey a);
               timestamp := pa_timestamp a;
               seq := pa_seq a;
               ds_hash := pa_ds_hash a |}.
Proof.
  intros Hd Hw. split.
  - now apply account_body_length.
  - now apply decodeProofRecord_reads.
Qed.

Lemma proof_account_well_formed : well_formed_account Examples.proof_account.
Proof.
  unfold well_formed_account, is_u64, is_i64. cbn.
  repeat split; try reflexivity; try discriminate.
Defined.

Lemma decodeProofRecord_account_layout_witness :
  option_map (fun r => (artifact_id r, start_slot r, end_slot r, artifact_len r, seq r))
    (decodeProofRecord
       (Crypto.sha256_8 "account:ProofRecord"
          ++ account_body Examples.proof_account ++ []))
  = Some ("00000000-0000-0000-0000-000000000001"%string, 2, 3, 123, 11).
Proof.
  destruct (decodeProofRecord_account_layout
              (Crypto.sha256_8 "account:ProofRecord") [] Examples.proof_account)
    as [_ E].
  - vm_compute. reflexivity.
  - exact proof_account_well_formed.
  - rewrite E. vm_compute. reflexivity.
Defined.

Lemma anchor_args_decoded :
  option_map
    (fun r => start_slot r)
    (match Crypto.encodeAnchorProofArgsBorsh Examples.anchor_args with
     | Some data => decodeProofRecord data
     | None => None
     end)
  = Some 0x0505050505050505.
Proof. vm_compute. reflexivity. Qed.

(** C3 as stated fails: the decoder does not read the bytes of an
    encoded anchor payload as the fields that were encoded.  In the
    payload [proof_hash] follows [artifact_id]; the decoder reads
    [start_slot] there. *)
Lemma proof_record_is_not_anchor_payload : ~ proof_record_is_anchor_payload.
Proof.
  intros claim. pose proof anchor_args_decoded as D.
  destruct (Crypto.encodeAnchorProofArgsBorsh Examples.anchor_args) as [data|] eqn:E;
    [|discriminate D].
  destruct (claim Examples.anchor_args data eq_refl eq_refl eq_refl eq_refl eq_refl
              eq_refl eq_refl eq_refl eq_refl eq_refl E)
    as (r & Hr & _ & _ & _ & Hstart & _).
  rewrite Hr in D. cbn [option_map] in D.
  assert (start_slot r = 0x0505050505050505) by congruence.
  assert (le_value (Crypto.startLe Examples.anchor_args) = 2) by reflexivity.
  lia.
Qed.

End CodecFacts.

(** ** [errors.ts]: the error mapping *)
Module ErrorsFacts.
Import Errors.

Lemma fold_case_same (a b : N) :
  (fold_case a =? fold_case b)%N = true <-> same_letter a b.
Proof.
  unfold fold_case, same_letter. rewrite N.eqb_eq.
  destruct (N.leb_spec 97 a), (N.leb_spec a 122), (N.leb_spec 97 b),
    (N.leb_spec b 122); cbn [andb]; lia.
Qed.

Lemma matches_at_spec (pattern text : Js.str) :
  matches_at pattern text = true
  <-> exists found rest, text = found ++ rest /\ Forall2 same_letter pattern found.
Proof.
  revert text; induction pattern as [|p pattern IH]; intros text.
  - cbn. split; [|reflexivity]. intros _. exists [], text. split; [reflexivity|constructor].
  - destruct text as [|c text]; cbn [matches_at].
    + split; [discriminate|]. intros (found & rest & E & F).
      inversion F; subst. discriminate.
    + rewrite andb_true_iff, fold_case_same, IH. split.
      * intros (S & found & rest & -> & F).
        exists (c :: found), rest. split; [reflexivity|now constructor].
      * intros (found & rest & E & F). inversion F as [|? x ? found' S F']; subst.
        injection E as -> ->. split; [exact S|]. now exists found', rest.
Qed.

Lemma search_spec (pattern text : Js.str) :
  search pattern text = true
  <-> exists before found after,
        text = before ++ found ++ after /\ Forall2 same_letter pattern found.
Proof.
  induction text as [|c text IH].
  - cbn [search]. rewrite orb_false_r, matches_at_spec. split.
    + intros (found & rest & E & F). now exists [], found, rest.
    + intros (before & found & after & E & F).
      destruct before; [|discriminate]. now exists found, after.
  - cbn [search]. rewrite orb_true_iff, matches_at_spec, IH. split.
    + intros [(found & rest & E & F) | (before & found & after & E & F)].
      * now exists [], found, rest.
      * exists (c :: before), found, after. split; [now rewrite E|exact F].
    + intros (before & found & after & E & F). destruct before as [|b before].
      * left. now exists found, after.
      * right. injection E as -> E. now exists before, found, after.
Qed.

(** The regular expression of a row tests what the table says. *)
Lemma test_spec (r : Row) (msg : Js.str) :
  test (row_name r) (row_number r) msg = true <-> row_applies r msg.
Proof.
  unfold test, row_applies, occurs. now rewrite orb_true_iff, !search_spec.
Qed.

Lemma find_first {A} (f : A -> bool) (l : list A) (x : A) :
  find f l = Some x ->
  exists before after,
    l = before ++ x :: after /\ f x = true /\ forall y, In y before -> f y = false.
Proof.
  induction l as [|a l IH]; cbn [find]; [discriminate|].
  destruct (f a) eqn:Fa.
  - intros [= ->]. exists [], l. repeat split; [exact Fa | intros y []].
  - intros H. destruct (IH H) as (before & after & -> & Fx & Hb).
    exists (a :: before), after. repeat split; [exact Fx|].
    intros y [<- | Hy]; [exact Fa | now apply Hb].
Qed.

(** The chain of tests is a search of the table from the top. *)
Lemma mapProgramError_find (err : thrown) :
  mapProgramError err
  = match find (fun r => test (row_name r) (row_number r) (message_of err)) table with
    | Some r => {| http := row_http r; code := row_code r; message := message_of err |}
    | None => {| http := 500; code := "AnchorSubmitFailed"; message := message_of err |}
    end.
Proof.
  unfold mapProgramError, table. fold (message_of err).
  cbn [find row_name row_number row_http row_code].
  repeat match goal with
         | |- context [test ?n ?c ?m] => destruct (test n c m); [reflexivity|]
         end.
  reflexivity.
Qed.

(** C7.  [mapProgramError] answers with the status and code of the row
    of the table, taken from the top, whose error name or numeric code
    occurs in the message, letters compared without regard to case; when
    no row has a token in the message it answers 500 and
    [AnchorSubmitFailed].  The message is passed on unchanged. *)
Theorem mapProgramError_table (err : thrown) :
  let msg := message_of err in
  let m := mapProgramError err in
  message m = msg
  /\ ((exists before row after,
         table = before ++ row :: after
         /\ row_applies row msg
         /\ (forall r, In r before -> ~ row_applies r msg)
         /\ http m = row_http row /\ code m = row_code row)
      \/ ((forall r, In r table -> ~ row_applies r msg)
          /\ http m = 500 /\ code m = "AnchorSubmitFailed"%string)).
Proof.
  cbv zeta. rewrite mapProgramError_find.
  destruct (find _ table) as [row|] eqn:F.
  - split; [reflexivity|]. left.
    destruct (find_first _ _ _ F) as (before & after & E & Hrow & Hb).
    exists before, row, after. repeat split; try assumption.
    + now apply test_spec.
    + intros r Hr Ha. apply test_spec in Ha. rewrite (Hb r Hr) in Ha. discriminate.
  - split; [reflexivity|]. right. repeat split.
    intros r Hr Ha. apply test_spec in Ha.
    pose proof (find_none _ _ F r Hr) as N. cbv beta in N. congruence.
Qed.

(** The cases of the repository's test, a lower-case spelling, a message
    with the tokens of two rows, and the fallback. *)
Example mapProgramError_examples :
  map (fun s => let m := mapProgramError (ErrorObject (Js.lit s)) in (http m, code m))
      [ "6016"; "custom program error: paused"; "Paused after 6015";
        "some unexpected failure" ]%string
  = [ (400, "BadDomainSeparation"); (403, "Paused"); (400, "BadEd25519Order");
      (500, "AnchorSubmitFailed") ]%string.
Proof. vm_compute. reflexivity. Qed.

End ErrorsFacts.

(** ** UTF-8 and the order of code units *)
Module Utf8OrderFacts.
Import Buf Utf8 BufFacts.

Lemma below_trans (a b c : bytes) :
  below a b = true -> below b c = true -> below a c = true.
Proof.
  revert b c; induction a as [|x a IH]; intros [|y b] [|z c]; cbn [below];
    try discriminate.
  destruct (Z.ltb_spec (Z_of_byte x) (Z_of_byte y)) as [A|A];
    destruct (Z.ltb_spec (Z_of_byte y) (Z_of_byte z)) as [B|B];
    destruct (Z.ltb_spec (Z_of_byte x) (Z_of_byte z)) as [C|C];
    try reflexivity; try lia;
    destruct (Z.eqb_spec (Z_of_byte x) (Z_of_byte y)) as [D|D];
    destruct (Z.eqb_spec (Z_of_byte y) (Z_of_byte z)) as [E|E];
    destruct (Z.eqb_spec (Z_of_byte x) (Z_of_byte z)) as [F|F];
    try discriminate; try lia.
  apply IH.
Qed.

Lemma below_compare (a b u v : bytes) :
  below a b = true ->
  bytes_compare (a ++ u) (b ++ v) = Lt /\ bytes_compare (b ++ v) (a ++ u) = Gt.
Proof.
  revert b; induction a as [|x a IH]; intros [|y b]; cbn [below]; try discriminate.
  cbn [app bytes_compare].
  destruct (Z.ltb_spec (Z_of_byte x) (Z_of_byte y)) as [A|A].
  - intros _. rewrite (proj2 (Z.compare_lt_iff _ _) A).
    rewrite (proj2 (Z.compare_gt_iff _ _) A). split; reflexivity.
  - destruct (Z.eqb_spec (Z_of_byte x) (Z_of_byte y)) as [D|D]; [|discriminate].
    intros H. rewrite D, Z.compare_refl. now apply IH.
Qed.

Lemma bytes_compare_app (p u v : bytes) :
  bytes_compare (p ++ u) (p ++ v) = bytes_compare u v.
Proof.
  induction p as [|x p IH]; [reflexivity|]. cbn [app bytes_compare].
  now rewrite Z.compare_refl.
Qed.

Lemma successors_below_spec (n : nat) (c d : Z) :
  successors_below n c = true ->
  c <= d < c + Z.of_nat n ->
  below (encode_code_point d) (encode_code_point (d + 1)) = true.
Proof.
  revert c; induction n as [|n IH]; intros c H R; [lia|].
  cbn [successors_below] in H. apply andb_true_iff in H. destruct H as [H0 H1].
  destruct (Z.eq_dec d c) as [->|N]; [exact H0|].
  apply (IH (c + 1)); [exact H1 | lia].
Qed.

(** Each code point below the surrogates is encoded below its
    successor. *)
Lemma successor_below : successors_below (Z.to_nat 55295) 0 = true.
Proof. vm_compute. reflexivity. Qed.

Lemma encode_code_point_below (x y : Z) :
  0 <= x < y -> y < 0xD800 ->
  below (encode_code_point x) (encode_code_point y) = true.
Proof.
  intros Hx Hy.
  assert (Step : forall c, 0 <= c < 55295 ->
                 below (encode_code_point c) (encode_code_point (c + 1)) = true).
  { intros c Hc. apply (successors_below_spec _ 0 c successor_below).
    rewrite Z2Nat.id; lia. }
  remember (Z.to_nat (y - x - 1)) as n eqn:En.
  revert y Hx Hy En; induction n as [|n IH]; intros y Hx Hy En.
  - assert (y = x + 1) as -> by lia. apply Step. lia.
  - apply below_trans with (encode_code_point (y - 1)).
    + apply IH; lia.
    + replace y with (y - 1 + 1) at 2 by lia. apply Step. lia.
Qed.

Lemma encode_code_point_cons (c : Z) :
  exists b rest, encode_code_point c = b :: rest.
Proof.
  unfold encode_code_point.
  destruct (c <? 128); [eauto|]. destruct (c <? 2048); [eauto|].
  destruct (c <? 65536); eauto.
Qed.

Lemma encode_below_surrogates (c : N) (rest : Js.str) :
  (c < 0xD800)%N ->
  encode (c :: rest) = encode_code_point (Z.of_N c) ++ encode rest.
Proof.
  intros H. cbn [encode]. unfold Js.is_high_surrogate, Js.is_low_surrogate.
  destruct (N.leb_spec 0xD800 c) as [A|A]; [lia|].
  destruct (N.leb_spec 0xDC00 c) as [B|B]; [lia|]. reflexivity.
Qed.

(** On strings without a code unit from 0xD800 on, the order of the
    code units is the order of the UTF-8 bytes. *)
Lemma compare_utf8 (a b : Js.str) :
  Forall (fun c => (c < 0xD800)%N) a ->
  Forall (fun c => (c < 0xD800)%N) b ->
  bytes_compare (encode a) (encode b) = Js.compare a b.
Proof.
  revert b; induction a as [|x a IH]; intros [|y b] Ha Hb.
  - reflexivity.
  - inversion Hb; subst. rewrite encode_below_surrogates by assumption.
    destruct (encode_code_point_cons (Z.of_N y)) as (h & t & ->). reflexivity.
  - inversion Ha; subst. rewrite encode_below_surrogates by assumption.
    destruct (encode_code_point_cons (Z.of_N x)) as (h & t & ->). reflexivity.
  - inversion Ha; subst. inversion Hb; subst.
    rewrite !encode_below_surrogates by assumption. cbn [Js.compare].
    destruct (N.compare_spec x y) as [E|L|G].
    + subst y. rewrite bytes_compare_app. now apply IH.
    + apply below_compare. apply encode_code_point_below; lia.
    + apply below_compare. apply encode_code_point_below; lia.
Qed.

End Utf8OrderFacts.

(** ** [crypto.ts]: canonical JSON *)
Module CanonicalFacts.
Import Crypto Spec.

Lemma eqb_eq (a b : Js.str) : Js.eqb a b = true <-> a = b.
Proof.
  unfold Js.eqb. destruct (list_eq_dec N.eq_dec a b); split; congruence.
Qed.

Lemma compare_antisym (a b : Js.str) : Js.compare b a = CompOpp (Js.compare a b).
Proof.
  revert b; induction a as [|x a IH]; intros [|y b]; cbn [Js.compare]; try reflexivity.
  rewrite (N.compare_antisym x y).
  destruct (N.compare x y); cbn [CompOpp]; [apply IH | reflexivity | reflexivity].
Qed.

Lemma compare_eq (a b : Js.str) : Js.compare a b = Eq -> a = b.
Proof.
  revert b; induction a as [|x a IH]; intros [|y b]; cbn [Js.compare]; try discriminate.
  - reflexivity.
  - destruct (N.compare_spec x y) as [-> | |]; try discriminate.
    intros H. f_equal. now apply IH.
Qed.

Lemma leb_total (a b : Js.str) : Js.leb a b = false -> Js.leb b a = true.
Proof.
  unfold Js.leb. rewrite (compare_antisym a b).
  destruct (Js.compare a b); cbn [CompOpp]; congruence.
Qed.

Lemma leb_ltb (a b : Js.str) : Js.leb a b = true -> a <> b -> Js.ltb a b = true.
Proof.
  unfold Js.leb, Js.ltb. destruct (Js.compare a b) eqn:C; try congruence.
  intros _ N. now apply compare_eq in C.
Qed.

Lemma In_insert (k x : Js.str) (l : list Js.str) :
  In x (Js.insert k l) <-> x = k \/ In x l.
Proof.
  induction l as [|h t IH]; cbn [Js.insert].
  - cbn. intuition.
  - destruct (Js.leb k h); cbn [In]; [intuition|]. rewrite IH. intuition.
Qed.

Lemma In_sort (x : Js.str) (l : list Js.str) : In x (Js.sort l) <-> In x l.
Proof.
  induction l as [|h t IH]; cbn [Js.sort fold_right]; [reflexivity|].
  fold (Js.sort t). rewrite In_insert, IH. cbn [In]. intuition.
Qed.

Lemma insert_sorted (k : Js.str) (l : list Js.str) :
  Sorted (fun a b => Js.leb a b = true) l ->
  Sorted (fun a b => Js.leb a b = true) (Js.insert k l).
Proof.
  induction l as [|h t IH]; intros S; cbn [Js.insert].
  - repeat constructor.
  - destruct (Js.leb k h) eqn:L.
    + constructor; [exact S | constructor; exact L].
    + inversion S as [|? ? St Hd]; subst. constructor; [now apply IH|].
      destruct t as [|h' t']; cbn [Js.insert].
      * constructor. now apply leb_total.
      * destruct (Js.leb k h'); constructor; [now apply leb_total|].
        now inversion Hd.
Qed.

Lemma sort_sorted (l : list Js.str) : Sorted (fun a b => Js.leb a b = true) (Js.sort l).
Proof.
  induction l as [|h t IH]; cbn [Js.sort fold_right]; [constructor|].
  now apply insert_sorted.
Qed.

Lemma insert_NoDup (k : Js.str) (l : list Js.str) :
  ~ In k l -> NoDup l -> NoDup (Js.insert k l).
Proof.
  induction l as [|h t IH]; intros Hk Hl; cbn [Js.insert].
  - constructor; [exact Hk | constructor].
  - destruct (Js.leb k h); [now constructor|].
    inversion Hl; subst. constructor.
    + rewrite In_insert. cbn [In] in Hk. intuition congruence.
    + apply IH; [cbn [In] in Hk; tauto | assumption].
Qed.

Lemma sort_NoDup (l : list Js.str) : NoDup l -> NoDup (Js.sort l).
Proof.
  induction l as [|h t IH]; intros H; cbn [Js.sort fold_right]; [constructor|].
  inversion H; subst. fold (Js.sort t).
  apply insert_NoDup; [now rewrite In_sort | now apply IH].
Qed.

(** Without duplicates, neighbours are strictly ascending. *)
Lemma sorted_strict (l : list Js.str) :
  NoDup l -> Sorted (fun a b => Js.leb a b = true) l ->
  Sorted (fun a b => Js.ltb a b = true) l.
Proof.
  induction l as [|h t IH]; intros N S; [constructor|].
  inversion N; subst. inversion S as [|? ? St Hd]; subst.
  constructor; [now apply IH|].
  destruct t as [|h' t']; constructor.
  inversion Hd; subst. apply leb_ltb; [assumption|].
  intros ->. cbn [In] in *. tauto.
Qed.

Section WithNumbers.
Context {number : Type} (JSON_stringify_number : number -> Js.str).

Lemma object_get_In (k : Js.str) (props : list (Js.str * value number)) :
  In k (object_keys props) <-> exists v, get k props = Some v.
Proof.
  induction props as [|[k' v'] rest IH]; cbn [object_keys map In get fst].
  - split; [intros [] | intros [v H]; discriminate].
  - destruct (Js.eqb k k') eqn:E.
    + apply eqb_eq in E. subst. split; [eauto | auto].
    + unfold object_keys in IH. rewrite <- IH. split; [|tauto].
      intros [-> | H]; [|exact H].
      assert (Js.eqb k k = true) by now apply eqb_eq. congruence.
Qed.

Lemma get_map {A B} (f : A -> B) (k : Js.str) (props : list (Js.str * A)) :
  get k (map (fun kv => match kv with (k', x) => (k', f x) end) props)
  = option_map f (get k props).
Proof.
  induction props as [|[k' v'] rest IH]; cbn [map get option_map]; [reflexivity|].
  destruct (Js.eqb k k'); [reflexivity | exact IH].
Qed.

Lemma keep_spec (props : list (Js.str * value number)) (k : Js.str) :
  keep props k = true
  <-> (exists v, get k props = Some v /\ v <> Undefined) /\ ~ In k reserved_keys.
Proof.
  unfold keep, reserved_keys. rewrite !andb_true_iff, !negb_true_iff. cbn [In].
  assert (Hne : forall s, Js.eqb k s = false <-> s <> k).
  { intros s. destruct (Js.eqb k s) eqn:E.
    - apply eqb_eq in E. split; congruence.
    - split; [|reflexivity]. intros _ ->.
      assert (Js.eqb k k = true) by now apply eqb_eq. congruence. }
  rewrite !Hne. destruct (get k props) as [v|].
  - assert (Hv : negb (is_undefined v) = true <-> v <> Undefined)
      by (destruct v; cbn; split; congruence).
    rewrite Hv. split.
    + intros (((V & A) & B) & C). split; [eauto | tauto].
    + intros ((v' & [= <-] & V) & R). tauto.
  - split; [intros (((F & _) & _) & _); discriminate|].
    intros ((v' & F & _) & _). discriminate.
Qed.

Lemma Sorted_among {A} (R R' : A -> A -> Prop) (l : list A) :
  (forall a b, In a l -> In b l -> R a b -> R' a b) ->
  Sorted R l -> Sorted R' l.
Proof.
  induction l as [|x l IH]; intros H S; [constructor|].
  inversion S as [|? ? S' Hd]; subst. constructor.
  - apply IH; [|exact S']. intros a b Ia Ib. apply H; now right.
  - destruct Hd as [|y l' Hxy]; constructor.
    apply H; [now left | right; now left | exact Hxy].
Qed.

(** The amended C5.  An object renders as its kept keys, each followed
    by a colon and the rendering of its value, separated by commas and
    enclosed in braces, with nothing else in between.  The kept keys are
    the keys whose value is not [undefined] and that are none of
    [__proto__], [constructor], [prototype]; they are listed in strictly
    ascending order of their UTF-16 code units, the order of
    [Array.prototype.sort].  When no kept key holds a code unit from
    U+D800 on, this is the strictly ascending byte-wise order of the
    UTF-8 encodings of the keys. *)
Theorem canonicalize_object (props : list (Js.str * value number)) :
  NoDup (object_keys props) ->
  let keys := canonical_keys props in
  canonicalize JSON_stringify_number (Object props)
  = Some (Js.lit "{"
            ++ Js.join (Js.lit ",")
                 (map (fun k =>
                         Some (Js.JSON_stringify_string k ++ Js.lit ":"
                                 ++ Js.to_string
                                      (match get k props with
                                       | Some v => stringifyCanonical JSON_stringify_number v
                                       | None => None
                                       end)))
                      keys)
            ++ Js.lit "}")
  /\ Sorted (fun a b => Js.ltb a b = true) keys
  /\ ((forall k, In k keys -> Forall (fun c => (c < 0xD800)%N) k) ->
      Sorted (fun a b => Utf8.bytes_compare (Utf8.encode a) (Utf8.encode b) = Lt) keys)
  /\ forall k,
       In k keys
       <-> (exists v, get k props = Some v /\ v <> Undefined) /\ ~ In k reserved_keys.
Proof.
  intros ND. cbv zeta.
  assert (S : Sorted (fun a b => Js.ltb a b = true) (canonical_keys props)).
  { unfold canonical_keys. apply sorted_strict; [|apply sort_sorted].
    apply sort_NoDup. now apply NoDup_filter. }
  split; [|split; [exact S|split]].
  - unfold canonicalize. cbn [stringifyCanonical]. do 4 f_equal.
    apply map_ext. intros k. rewrite get_map.
    destruct (get k props); reflexivity.
  - intros Low. apply (Sorted_among (fun a b => Js.ltb a b = true)); [|exact S].
    intros a b Ia Ib L.
    rewrite (Utf8OrderFacts.compare_utf8 a b (Low a Ia) (Low b Ib)).
    unfold Js.ltb in L. now destruct (Js.compare a b).
  - intros k. unfold canonical_keys. rewrite In_sort, filter_In, keep_spec, object_get_In.
    split; [tauto|]. intros [(v & G & V) R]. repeat split; eauto.
Qed.

End WithNumbers.

Lemma canonicalize_object_witness :
  canonical_keys Examples.test_object = [Js.lit "a"; Js.lit "b"]
  /\ canonicalize (fun n => Js.lit (Codec.decimal n)) (Object Examples.test_object)
     = Some [123; 34; 97; 34; 58; 49; 44; 34; 98; 34; 58; 50; 125]%N.
Proof.
  destruct (canonicalize_object (fun n => Js.lit (Codec.decimal n)) Examples.test_object)
    as (E & _ & _ & _).
  - repeat constructor; cbn; intuition discriminate.
  - split; [reflexivity|]. rewrite E. vm_compute. reflexivity.
Defined.

Lemma astral_keys :
  canonical_keys Examples.astral_object = [[0xD83D; 0xDE00]%N; [0xFF5E]%N]
  /\ Utf8.utf8_leb [0xD83D; 0xDE00]%N [0xFF5E]%N = false.
Proof. split; vm_compute; reflexivity. Qed.

(** C5 as stated fails for keys outside the Basic Multilingual Plane:
    U+1F600 is listed before U+FF5E, although its UTF-8 encoding
    (F0 9F 98 80) is byte-wise greater than that of U+FF5E (EF BD 9E). *)
Lemma keys_not_in_utf8_order : ~ keys_in_utf8_order.
Proof.
  intros claim. destruct astral_keys as [K L].
  assert (ND : NoDup (object_keys Examples.astral_object))
    by (repeat constructor; cbn; intuition discriminate).
  specialize (claim Examples.astral_object ND). rewrite K in claim.
  inversion claim as [|? ? _ Hd]; subst. inversion Hd; subst. congruence.
Qed.

End CanonicalFacts.

(** ** [server.ts]: the idempotency cache *)
Module IdempotencyFacts.
Import Idempotency.

Lemma js_eqb_eq (a b : Js.str) : Js.eqb a b = true <-> a = b.
Proof.
  unfold Js.eqb. destruct (list_eq_dec N.eq_dec a b); split; congruence.
Qed.

Lemma js_eqb_refl (a : Js.str) : Js.eqb a a = true.
Proof. now apply js_eqb_eq. Qed.

Section MapFacts.
Context {V : Type}.

Lemma get_set_same (k : Js.str) (v : V) (m : JsMap.t V) :
  JsMap.get k (JsMap.set k v m) = Some v.
Proof.
  induction m as [|[k' v'] m IH]; cbn [JsMap.set JsMap.get].
  - now rewrite js_eqb_refl.
  - destruct (Js.eqb k k') eqn:E; cbn [JsMap.get]; rewrite E; [reflexivity | exact IH].
Qed.

Lemma keys_set (k : Js.str) (v : V) (m : JsMap.t V) :
  map fst (JsMap.set k v m)
  = if existsb (Js.eqb k) (map fst m) then map fst m else map fst m ++ [k].
Proof.
  induction m as [|[k' v'] m IH]; cbn [JsMap.set map existsb fst app]; [reflexivity|].
  destruct (Js.eqb k k'); cbn [orb map fst]; [reflexivity|].
  rewrite IH. destruct (existsb (Js.eqb k) (map fst m)); reflexivity.
Qed.

Lemma set_NoDup (k : Js.str) (v : V) (m : JsMap.t V) :
  NoDup (map fst m) -> NoDup (map fst (JsMap.set k v m)).
Proof.
  intros H. rewrite keys_set.
  destruct (existsb (Js.eqb k) (map fst m)) eqn:E; [exact H|].
  apply NoDup_app; [exact H | repeat constructor; intros [] | ].
  intros x Hx [Ek | []]. subst x.
  assert (existsb (Js.eqb k) (map fst m) = true)
    by (apply existsb_exists; exists k; split; [exact Hx | apply js_eqb_refl]).
  congruence.
Qed.

Lemma map_get_In (k : Js.str) (e : V) (m : JsMap.t V) :
  JsMap.get k m = Some e -> In k (map fst m).
Proof.
  induction m as [|[k' v'] m IH]; cbn [JsMap.get map fst In]; [discriminate|].
  destruct (Js.eqb k k') eqn:E; [apply js_eqb_eq in E; auto | auto].
Qed.

(** Removing entries from a well-formed map never changes what a key
    that is still present holds. *)
Lemma get_filter (p : Js.str * V -> bool) (k : Js.str) (e : V) (m : JsMap.t V) :
  NoDup (map fst m) ->
  JsMap.get k (filter p m) = Some e -> JsMap.get k m = Some e.
Proof.
  induction m as [|[k' v'] m IH]; intros ND; cbn [filter JsMap.get]; [discriminate|].
  inversion ND as [|? ? Hk ND']; subst.
  destruct (p (k', v')); cbn [JsMap.get]; destruct (Js.eqb k k') eqn:E; auto.
  intros H. apply IH in H; [|exact ND']. apply map_get_In in H.
  apply js_eqb_eq in E. subst. contradiction.
Qed.

Lemma filter_keys_In (p : Js.str * V -> bool) (k : Js.str) (m : JsMap.t V) :
  In k (map fst (filter p m)) -> In k (map fst m).
Proof.
  induction m as [|[k' v'] m IH]; cbn [filter map fst In]; [auto|].
  destruct (p (k', v')); cbn [map fst In]; intuition.
Qed.

Lemma filter_keys_NoDup (p : Js.str * V -> bool) (m : JsMap.t V) :
  NoDup (map fst m) -> NoDup (map fst (filter p m)).
Proof.
  induction m as [|[k v] m IH]; intros ND; cbn [filter]; [constructor|].
  inversion ND as [|? ? Hk ND']; subst.
  destruct (p (k, v)); cbn [map fst]; [|now apply IH].
  constructor; [|now apply IH]. intros Hin. apply Hk.
  now apply filter_keys_In in Hin.
Qed.

End MapFacts.

Section MiddlewareFacts.
Context {body : Type} (missing_key_body : body) (IDEMP_MAX_ENTRIES : Z).

Lemma swept_get (sweep : bool) (now' : Z) (key : Js.str) (e : CachedResponse body)
    (c : JsMap.t (CachedResponse body)) :
  NoDup (map fst c) ->
  JsMap.get key
    (if sweep then filter (fun kv => negb (now' - ts (snd kv) >=? IDEMP_TTL_MS)) c else c)
  = Some e ->
  JsMap.get key c = Some e.
Proof. intros ND. destruct sweep; [now apply get_filter | auto]. Qed.

Lemma evicted_get (key : Js.str) (e : CachedResponse body)
    (c : JsMap.t (CachedResponse body)) :
  NoDup (map fst c) ->
  JsMap.get key
    (if JsMap.size c >? IDEMP_MAX_ENTRIES then
       match fst (oldest body c) with
       | Some (ch :: k) => JsMap.delete (ch :: k) c
       | _ => c
       end
     else c)
  = Some e ->
  JsMap.get key c = Some e.
Proof.
  intros ND H. destruct (JsMap.size c >? IDEMP_MAX_ENTRIES); [|exact H].
  destruct (fst (oldest body c)) as [[|ch k]|]; try exact H.
  unfold JsMap.delete in H. now apply get_filter in H.
Qed.

Lemma swept_NoDup (sweep : bool) (now' : Z) (c : JsMap.t (CachedResponse body)) :
  NoDup (map fst c) ->
  NoDup (map fst
           (if sweep then filter (fun kv => negb (now' - ts (snd kv) >=? IDEMP_TTL_MS)) c
            else c)).
Proof. intros ND. destruct sweep; [now apply filter_keys_NoDup | exact ND]. Qed.

(** An entry younger than 24 hours is replayed, whatever else the
    request holds. *)
Lemma replay_cached (st : State body) (req : Request body) (now : Z)
    (key : Js.str) (e : CachedResponse body) :
  method req = Js.lit "POST" ->
  getIdemKey req = Some key ->
  JsMap.get key (idempotencyCache st) = Some e ->
  now - ts e < IDEMP_TTL_MS ->
  enforceIdempotency body missing_key_body st req now = Reply (status e) (cached_body e).
Proof.
  intros Hm Hk Hg Ht. unfold enforceIdempotency.
  rewrite Hm, js_eqb_refl, Hk, Hg. cbn [negb].
  apply Z.ltb_lt in Ht. now rewrite Ht.
Qed.

(** Under the key of a response just recorded the cache holds that
    response, unless the entry has been evicted. *)
Lemma record_entry (st : State body) (key : Js.str) (sc : Z) (b : body)
    (now now' : Z) (e : CachedResponse body) :
  NoDup (map fst (idempotencyCache st)) ->
  JsMap.get key (idempotencyCache (record body IDEMP_MAX_ENTRIES key sc b now now' st)) = Some e ->
  e = {| status := if sc =? 0 then 200 else sc; cached_body := b; ts := now |}.
Proof.
  intros ND. unfold Idempotency.record. cbn [idempotencyCache].
  intros H.
  pose proof (set_NoDup key
                {| status := if sc =? 0 then 200 else sc; cached_body := b; ts := now |}
                _ ND) as ND1.
  apply evicted_get in H;
    [|apply (swept_NoDup ((idemSetCounter st + 1) mod 100 =? 0) now' _ ND1)].
  apply swept_get in H; [|exact ND1].
  rewrite get_set_same in H. congruence.
Qed.

(** The amended C9.  The cache is keyed by the trimmed header value
    alone.  When a POST request with key [k] has gone to its handler and
    the handler's answer has been recorded, a later POST request with the
    same key arriving less than 24 hours after that answer receives the
    recorded status code (200 for a status of 0) and body, and its
    handler is not run, whatever its body and endpoint: provided the
    entry is still in the cache, that is, neither evicted when it was
    recorded nor removed or replaced since. *)
Theorem replay_of_first_response (st st' : State body) (x y : Exchange body)
    (k : Js.str) :
  NoDup (map fst (idempotencyCache st)) ->
  enforceIdempotency body missing_key_body st (request x) (arrival x) = NextRecording k ->
  JsMap.get k (idempotencyCache (snd (serve body missing_key_body IDEMP_MAX_ENTRIES st x))) <> None ->
  JsMap.get k (idempotencyCache st')
  = JsMap.get k (idempotencyCache (snd (serve body missing_key_body IDEMP_MAX_ENTRIES st x))) ->
  method (request y) = Js.lit "POST" ->
  getIdemKey (request y) = Some k ->
  arrival y - answered x < IDEMP_TTL_MS ->
  serve body missing_key_body IDEMP_MAX_ENTRIES st' y
  = ((if fst (answer x) =? 0 then 200 else fst (answer x), snd (answer x)), st')
  /\ handler_runs body missing_key_body st' y = false.
Proof.
  intros ND Hx Hkept Hsame Hm Hk Ht.
  unfold Idempotency.serve in Hkept, Hsame. rewrite Hx in Hkept, Hsame.
  cbn [snd] in Hkept, Hsame.
  destruct (JsMap.get k (idempotencyCache (record body IDEMP_MAX_ENTRIES k _ _ _ _ st))) as [e|] eqn:G;
    [|congruence].
  pose proof (record_entry _ _ _ _ _ _ _ ND G) as ->.
  assert (R : enforceIdempotency body missing_key_body st' (request y) (arrival y)
              = Reply (if fst (answer x) =? 0 then 200 else fst (answer x))
                      (snd (answer x)))
    by (apply (replay_cached st' (request y) (arrival y) k _ Hm Hk Hsame); exact Ht).
  unfold Idempotency.serve, handler_runs. rewrite R. split; reflexivity.
Qed.

End MiddlewareFacts.

Lemma replay_of_first_response_witness :
  let st := {| idempotencyCache := []; idemSetCounter := 0 |} in
  let st' := snd (serve string "MissingIdempotencyKey"%string 10000 st Examples.replay_first) in
  serve string "MissingIdempotencyKey"%string 10000 st' Examples.replay_second
  = ((200, "first"%string), st').
Proof.
  cbv zeta.
  refine (proj1 (replay_of_first_response "MissingIdempotencyKey"%string 10000
                   {| idempotencyCache := []; idemSetCounter := 0 |} _
                   Examples.replay_first Examples.replay_second (Js.lit "k")
                   _ _ _ _ _ _ _)).
  - constructor.
  - reflexivity.
  - vm_compute. discriminate.
  - reflexivity.
  - reflexivity.
  - reflexivity.
  - vm_compute. reflexivity.
Defined.

Lemma eviction_trace_answers :
  let answers :=
    fst (run string "MissingIdempotencyKey"%string 100
           {| idempotencyCache := []; idemSetCounter := 0 |} Examples.eviction_trace) in
  nth_error answers 0 = Some (200, "first"%string)
  /\ nth_error answers 101 = Some (200, "second"%string).
Proof. vm_compute. split; reflexivity. Qed.

Lemma eviction_trace_chronological : Spec.chronological 0 Examples.eviction_trace.
Proof. vm_compute. repeat split; discriminate. Qed.

(** The first and the last request of the eviction trace. *)
Lemma eviction_trace_requests :
  nth_error Examples.eviction_trace 0
  = Some (Examples.post "/prove" (Js.lit "k") 1000 "first")
  /\ nth_error Examples.eviction_trace 101
     = Some (Examples.post "/prove" (Js.lit "k") 2000 "second").
Proof. vm_compute. split; reflexivity. Qed.

(** C9 as stated fails: with the capacity at its least value, a hundred
    answers recorded under other keys evict the entry of the first
    request, and a second request with the same key, a second later, is
    handled afresh. *)
Lemma not_same_key_same_answer : ~ Spec.same_key_same_answer.
Proof.
  intros claim.
  destruct eviction_trace_answers as [A0 A101].
  destruct eviction_trace_requests as [R0 R101].
  assert (H100 : 100 <= 100) by lia.
  assert (Hlt : (0 < 101)%nat) by lia.
  assert (Ht : 2000 - 1000 < IDEMP_TTL_MS) by reflexivity.
  pose proof (claim string "MissingIdempotencyKey"%string 100 Examples.eviction_trace
                0%nat 101%nat _ _ (Js.lit "k") H100 eviction_trace_chronological
                R0 R101 Hlt eq_refl eq_refl eq_refl eq_refl Ht) as E.
  cbv zeta in E, A0, A101. rewrite A0, A101 in E. discriminate E.
Qed.

End IdempotencyFacts.

(** ** [index.ts]: a reconciliation cycle *)
Module IndexerFacts.
Import Indexer.

(** *** The selection *)

Lemma insert_by_ts_perm (r : ProofRow) (l : list ProofRow) :
  Permutation (r :: l) (insert_by_ts r l).
Proof.
  induction l as [|h t IH]; cbn [insert_by_ts]; [reflexivity|].
  destruct (ts r <=? ts h); [reflexivity|].
  rewrite perm_swap. now constructor.
Qed.

Lemma order_by_ts_perm (l : list ProofRow) : Permutation l (order_by_ts l).
Proof.
  induction l as [|h t IH]; cbn [order_by_ts fold_right]; [constructor|].
  rewrite <- insert_by_ts_perm. now constructor.
Qed.

Lemma insert_by_ts_sorted (r : ProofRow) (l : list ProofRow) :
  Sorted (fun a b => ts a <= ts b) l ->
  Sorted (fun a b => ts a <= ts b) (insert_by_ts r l).
Proof.
  induction l as [|h t IH]; intros S; cbn [insert_by_ts].
  - repeat constructor.
  - destruct (Z.leb_spec (ts r) (ts h)) as [L|L].
    + constructor; [exact S | now constructor].
    + inversion S as [|? ? St Hd]; subst. constructor; [now apply IH|].
      destruct t as [|h' t']; cbn [insert_by_ts].
      * constructor. lia.
      * destruct (ts r <=? ts h'); constructor; [lia | now inversion Hd].
Qed.

Lemma order_by_ts_sorted (l : list ProofRow) :
  StronglySorted (fun a b => ts a <= ts b) (order_by_ts l).
Proof.
  apply Sorted_StronglySorted; [intros a b c; lia|].
  induction l as [|h t IH]; cbn [order_by_ts fold_right]; [constructor|].
  now apply insert_by_ts_sorted.
Qed.

Lemma In_firstn {A} (n : nat) (x : A) (l : list A) : In x (firstn n l) -> In x l.
Proof.
  intros H. rewrite <- (firstn_skipn n l). apply in_or_app. now left.
Qed.

Lemma select_pending_In (db : Database) (r : ProofRow) :
  In r (select_pending db) -> In r (proofs db) /\ commitment_level r < 2.
Proof.
  unfold select_pending. intros H. apply In_firstn in H.
  apply (Permutation_in _ (Permutation_sym (order_by_ts_perm _))) in H.
  apply filter_In in H. destruct H as [H L]. split; [exact H | now apply Z.ltb_lt].
Qed.

Lemma select_pending_NoDup (db : Database) :
  NoDup (map txid (proofs db)) -> NoDup (map txid (select_pending db)).
Proof.
  intros ND. unfold select_pending.
  assert (N : NoDup (map txid (order_by_ts
                                 (filter (fun r => commitment_level r <? 2) (proofs db))))).
  { apply (Permutation_NoDup (Permutation_map txid (order_by_ts_perm _))).
    clear -ND. induction (proofs db) as [|h t IH]; cbn [filter]; [constructor|].
    inversion ND as [|? ? Hh Ht]; subst.
    destruct (commitment_level h <? 2); cbn [map]; [|now apply IH].
    constructor; [|now apply IH]. intros Hin. apply Hh.
    apply in_map_iff in Hin. destruct Hin as (x & <- & Hx).
    apply filter_In in Hx. apply in_map. tauto. }
  revert N. generalize (order_by_ts (filter (fun r => commitment_level r <? 2) (proofs db))).
  intros l N. rewrite <- (firstn_skipn 100 l), map_app in N.
  now apply NoDup_app_remove_r in N.
Qed.

(** *** One signature through the loop *)

Lemma lookup_deleted (sig : string) (db : Database) :
  lookup sig db = None <-> deleted sig db.
Proof.
  unfold lookup, deleted. split.
  - intros H r Hr E. pose proof (find_none _ _ H r Hr) as N. cbv beta in N.
    rewrite E, String.eqb_refl in N. discriminate.
  - intros H. destruct (find _ (proofs db)) as [r|] eqn:F; [|reflexivity].
    apply find_some in F. destruct F as [Hr E]. apply String.eqb_eq in E.
    now apply H in Hr.
Qed.

Lemma lookup_In (db : Database) (r : ProofRow) :
  NoDup (map txid (proofs db)) -> In r (proofs db) -> lookup (txid r) db = Some r.
Proof.
  unfold lookup. induction (proofs db) as [|h t IH]; intros ND Hr; [contradiction|].
  inversion ND as [|? ? Hh Ht]; subst. cbn [find].
  destruct Hr as [-> | Hr]; [now rewrite String.eqb_refl|].
  destruct (String.eqb_spec (txid h) (txid r)) as [E|E]; [|now apply IH].
  exfalso. apply Hh. rewrite E. now apply in_map.
Qed.

Lemma lookup_delete (s sig : string) (db : Database) :
  lookup s (delete_by_txid sig db)
  = if String.eqb s sig then None else lookup s db.
Proof.
  unfold lookup, delete_by_txid. cbn [proofs].
  induction (proofs db) as [|h t IH]; cbn [filter find].
  - now destruct (String.eqb s sig).
  - destruct (String.eqb (txid h) sig) eqn:E; cbn [negb find];
      destruct (String.eqb (txid h) s) eqn:E'; try exact IH.
    + apply String.eqb_eq in E, E'. subst. rewrite IH. now rewrite String.eqb_refl.
    + apply String.eqb_eq in E'. subst s. now rewrite E.
Qed.

Lemma lookup_update (s sig : string) (level : Z) (db : Database) :
  lookup s (update_level level sig db)
  = if String.eqb s sig then option_map (with_level level) (lookup s db)
    else lookup s db.
Proof.
  unfold lookup, update_level. cbn [proofs].
  induction (proofs db) as [|h t IH]; cbn [map find].
  - now destruct (String.eqb s sig).
  - destruct (String.eqb (txid h) sig) eqn:E; cbn [txid];
      destruct (String.eqb (txid h) s) eqn:E'; try exact IH.
    + apply String.eqb_eq in E, E'. subst. now rewrite String.eqb_refl.
    + apply String.eqb_eq in E'. subst s. now rewrite E.
Qed.

(** What the loop body does to the row stored under [s]. *)
Lemma lookup_reconcile_row (w : World) (db : Database) (row : Row) (s : string) :
  lookup s (reconcile_row w db row)
  = if String.eqb (row_txid row) EmptyString then lookup s db
    else if String.eqb s (row_txid row) then
      match getSignatureStatus w (row_txid row) with
      | Some {| err := false; confirmationStatus := cs |} =>
          option_map (with_level (level_of cs)) (lookup s db)
      | _ =>
          if older_than_60s (Date_now w (row_txid row)) (ts_epoch row)
          then None else lookup s db
      end
    else lookup s db.
Proof.
  unfold reconcile_row. destruct (String.eqb (row_txid row) EmptyString); [reflexivity|].
  destruct (getSignatureStatus w (row_txid row)) as [[[|] cs]|].
  - destruct (older_than_60s _ _); [rewrite lookup_delete|];
      destruct (String.eqb s (row_txid row)); reflexivity.
  - assert (U : forall d, lookup s (updateLastSignature (row_txid row) d) = lookup s d)
      by reflexivity.
    destruct (level_of cs >=? 1); rewrite ?U, lookup_update;
      destruct (String.eqb s (row_txid row)); reflexivity.
  - destruct (older_than_60s _ _); [rewrite lookup_delete|];
      destruct (String.eqb s (row_txid row)); reflexivity.
Qed.

Lemma lookup_fold_others (w : World) (rows : list Row) (db : Database) (s : string) :
  (forall row, In row rows -> row_txid row <> s) ->
  lookup s (fold_left (reconcile_row w) rows db) = lookup s db.
Proof.
  revert db; induction rows as [|row rows IH]; intros db H; cbn [fold_left];
    [reflexivity|].
  rewrite IH by (intros r Hr; apply H; now right).
  rewrite lookup_reconcile_row.
  destruct (String.eqb (row_txid row) EmptyString); [reflexivity|].
  destruct (String.eqb_spec s (row_txid row)) as [E|E]; [|reflexivity].
  exfalso. apply (H row); [now left | congruence].
Qed.

Lemma lookup_reconcilePending (w : World) (db : Database) (s : string) :
  lookup s (reconcilePending w db)
  = lookup s (fold_left (reconcile_row w) (map (to_row w) (select_pending db)) db).
Proof.
  unfold reconcilePending. destruct (map (to_row w) (select_pending db)); reflexivity.
Qed.

(** The row of a selected signature after the whole cycle. *)
Lemma lookup_selected (w : World) (db : Database) (r : ProofRow) :
  NoDup (map txid (proofs db)) ->
  In r (select_pending db) ->
  txid r <> EmptyString ->
  lookup (txid r) (reconcilePending w db)
  = match getSignatureStatus w (txid r) with
    | Some {| err := false; confirmationStatus := cs |} =>
        Some (with_level (level_of cs) r)
    | _ => if older_than_60s (Date_now w (txid r)) (Some (Number_ts_epoch w (ts r))) then None else Some r
    end.
Proof.
  intros ND Hr Hsig. rewrite lookup_reconcilePending.
  pose proof (select_pending_NoDup db ND) as NDs.
  pose proof (lookup_In db r ND (proj1 (select_pending_In db r Hr))) as L.
  revert NDs Hr. generalize (select_pending db). intros sel NDs Hr.
  apply in_split in Hr. destruct Hr as (before & after & ->).
  rewrite map_app in NDs. cbn [map] in NDs.
  rewrite map_app, fold_left_app. cbn [map fold_left].
  rewrite lookup_fold_others.
  - rewrite lookup_reconcile_row. cbn [to_row row_txid ts_epoch].
    destruct (String.eqb_spec (txid r) EmptyString) as [E|_]; [contradiction|].
    rewrite String.eqb_refl.
    rewrite lookup_fold_others, L; [reflexivity|].
    intros row Hrow E. apply in_map_iff in Hrow. destruct Hrow as (x & <- & Hx).
    cbn [to_row row_txid] in E.
    apply NoDup_remove_2 in NDs. apply NDs. apply in_or_app. left.
    rewrite <- E. now apply in_map.
  - intros row Hrow E. apply in_map_iff in Hrow. destruct Hrow as (x & <- & Hx).
    cbn [to_row row_txid] in E.
    apply NoDup_remove_2 in NDs. apply NDs. apply in_or_app. right.
    rewrite <- E. now apply in_map.
Qed.

(** The rows of a cycle: at most 100, all below level 2, the oldest
    ones, oldest first. *)
Lemma select_pending_oldest_first (db : Database) :
  (List.length (select_pending db) <= 100)%nat
  /\ exists rest,
       Permutation (select_pending db ++ rest)
                   (filter (fun r => commitment_level r <? 2) (proofs db))
       /\ StronglySorted (fun a b => ts a <= ts b) (select_pending db ++ rest)
       /\ (rest <> [] -> List.length (select_pending db) = 100%nat).
Proof.
  unfold select_pending.
  set (sorted := order_by_ts (filter (fun r => commitment_level r <? 2) (proofs db))).
  split; [rewrite length_firstn; lia|].
  exists (skipn 100 sorted). rewrite firstn_skipn. repeat split.
  - symmetry. apply order_by_ts_perm.
  - apply order_by_ts_sorted.
  - intros Hrest. rewrite length_firstn.
    destruct (Nat.le_gt_cases 100 (List.length sorted)) as [L|L]; [lia|].
    exfalso. apply Hrest. apply skipn_all2. lia.
Qed.

(** The amended C6.  In a cycle the engine selects at most 100 rows with
    [commitment_level < 2], the oldest ones, oldest first.  For a
    selected row with a signature: when the ledger returns a status
    without an error, the stored level becomes 2 for finalized, 1 for
    confirmed and 0 otherwise; the row is deleted exactly when the ledger
    returns no status or a status with an error, and the age the loop
    computes for the row, [Date.now() / 1000 - Number(row.ts_epoch)] in
    binary64 arithmetic, is greater than 60; otherwise it is left as it
    is. *)
Theorem reconcilePending_cycle (w : World) (db : Database) :
  NoDup (map txid (proofs db)) ->
  ((List.length (select_pending db) <= 100)%nat
   /\ (forall r, In r (select_pending db) -> In r (proofs db) /\ commitment_level r < 2)
   /\ exists rest,
        Permutation (select_pending db ++ rest)
                    (filter (fun r => commitment_level r <? 2) (proofs db))
        /\ StronglySorted (fun a b => ts a <= ts b) (select_pending db ++ rest)
        /\ (rest <> [] -> List.length (select_pending db) = 100%nat))
  /\ forall r,
       In r (select_pending db) ->
       txid r <> EmptyString ->
       let status := getSignatureStatus w (txid r) in
       let old := older_than_60s (Date_now w (txid r)) (Some (Number_ts_epoch w (ts r))) in
       let db' := reconcilePending w db in
       (forall cs,
           status = Some {| err := false; confirmationStatus := cs |} ->
           stored_level (txid r) db' = Some (level_of cs))
       /\ (deleted (txid r) db'
           <-> (forall s, status = Some s -> err s = true) /\ old = true)
       /\ ((forall s, status = Some s -> err s = true) -> old = false ->
           lookup (txid r) db' = Some r).
Proof.
  intros ND. split.
  - destruct (select_pending_oldest_first db) as [L R].
    split; [exact L|]. split; [apply select_pending_In | exact R].
  - intros r Hr Hsig. cbv zeta.
    pose proof (lookup_selected w db r ND Hr Hsig) as L.
    rewrite <- lookup_deleted. unfold stored_level. rewrite L.
    destruct (getSignatureStatus w (txid r)) as [[[|] cs]|].
    + split; [intros cs' [=]|]. split.
      * destruct (older_than_60s _ _); split; try discriminate; try tauto.
        -- intros _. split; [now intros s [= <-] | reflexivity].
        -- intros [_ F]. discriminate.
      * intros _ ->. reflexivity.
    + split; [now intros cs' [= <-]|]. split.
      * split; [discriminate|]. intros [E _]. now specialize (E _ eq_refl).
      * intros E. now specialize (E _ eq_refl).
    + split; [discriminate|]. split.
      * destruct (older_than_60s _ _); split; try discriminate; try tauto.
        -- intros _. split; [discriminate | reflexivity].
        -- intros [_ F]. discriminate.
      * intros _ ->. reflexivity.
Qed.

Lemma reconcilePending_cycle_witness :
  stored_level "sig" (reconcilePending Examples.finalized_world Examples.pending_db)
  = Some 2.
Proof.
  assert (ND : NoDup (map txid (proofs Examples.pending_db)))
    by (repeat constructor; intros []).
  destruct (reconcilePending_cycle Examples.finalized_world Examples.pending_db ND)
    as [_ H].
  destruct (H {| txid := "sig"; ts := 0; commitment_level := 0; seq := 1 |})
    as (L & _ & _).
  - left. reflexivity.
  - discriminate.
  - exact (L (Some finalized) eq_refl).
Defined.

(** The age is a float: a row stamped 4.019 s met at 64.019 s has the
    age 60.00000000000001 and counts as old, one stamped 4 s met at
    64 s has the age 60 and does not. *)
Lemma age_in_floats :
  older_than_60s (number_of_Z 64019) (Some (epoch_number 4019000)) = true
  /\ older_than_60s (number_of_Z 64000) (Some (epoch_number 4000000)) = false
  /\ older_than_60s (number_of_Z 64000) None = true.
Proof. repeat split; vm_compute; reflexivity. Qed.

Lemma failed_row_deleted :
  proofs (reconcilePending Examples.failed_world Examples.pending_db) = [].
Proof. vm_compute. reflexivity. Qed.

(** C6 as stated fails: a row older than 60 seconds is deleted also when
    the ledger does have a record of its signature, one that carries an
    error. *)
Lemma not_deleted_exactly_when_unknown : ~ Spec.deleted_exactly_when_unknown_and_old.
Proof.
  intros claim.
  assert (ND : NoDup (map txid (proofs Examples.pending_db)))
    by (repeat constructor; intros []).
  destruct (claim Examples.failed_world Examples.pending_db
              {| txid := "sig"; ts := 0; commitment_level := 0; seq := 1 |} ND)
    as [D _]; [left; reflexivity|].
  destruct D as [U _]; [|discriminate U].
  intros r Hr. rewrite failed_row_deleted in Hr. contradiction.
Qed.

End IndexerFacts.

(** ** [server.ts]: the key check and the signature of [/anchor] *)
Module AnchorFacts.
Import Buf Crypto Anchor AnchorNotions.

Lemma bytesEq_spec (a b : bytes) : bytesEq a b = true <-> a = b.
Proof.
  unfold bytesEq. destruct (Nat.eqb_spec (List.length a) (List.length b)) as [L|L];
    cbn [negb].
  - revert b L; induction a as [|x a IH]; intros [|y b] L; try discriminate.
    + split; reflexivity.
    + destruct (Byte.eqb x y) eqn:E; cbn [negb].
      * apply Byte.byte_dec_bl in E. subst y. injection L as L.
        rewrite (IH b L). split; [now intros -> | now intros [= ->]].
      * split; [discriminate|]. intros [= -> _].
        rewrite Byte.byte_dec_lb in E by reflexivity. discriminate.
  - split; [discriminate|]. intros ->. contradiction.
Qed.

Lemma loadAggregatorSecret_length (file : option KeyFile) (key : bytes) :
  loadAggregatorSecret file = Some key -> List.length key = 64%nat.
Proof.
  unfold loadAggregatorSecret, uint8array.
  destruct file as [[parsed | solana secretKey |]|]; try discriminate.
  - destruct (Nat.eqb_spec (List.length parsed) 64); [|discriminate].
    intros [= <-]. now rewrite length_map.
  - destruct solana as [l|].
    + destruct (Nat.eqb_spec (List.length l) 64).
      * intros [= <-]. now rewrite length_map.
      * destruct secretKey as [hex|]; [|discriminate].
        destruct (Nat.eqb_spec (List.length (from_hex hex)) 64); cbn [negb];
          [now intros [= <-] | discriminate].
    + destruct secretKey as [hex|]; [|discriminate].
      destruct (Nat.eqb_spec (List.length (from_hex hex)) 64); cbn [negb];
        [now intros [= <-] | discriminate].
Qed.

(** No row of the error table carries the code of the key check. *)
Lemma mapped_code_not_key_mismatch (e : Errors.thrown) :
  Errors.code (Errors.mapProgramError e) <> "AggregatorKeyMismatch"%string.
Proof.
  rewrite ErrorsFacts.mapProgramError_find.
  destruct (find _ Errors.table) as [row|] eqn:F; cbn [Errors.code]; [|discriminate].
  apply find_some in F. destruct F as [Hin _].
  unfold Errors.table in Hin. cbn [In] in Hin.
  repeat (destruct Hin as [<- | Hin]; [cbn; discriminate|]). contradiction.
Qed.

Lemma enc64_length (v : Z) (bs : bytes) : enc64 v = Some bs -> List.length bs = 8%nat.
Proof. intros H. now apply BufFacts.writeBigU_Int64LE_value in H. Qed.

Lemma buildDS_length (blake3hash : bytes -> bytes) (p : DSParams) (r : DSResult) :
  buildDS blake3hash p = Some r ->
  List.length (ds r)
  = (46 + List.length (programId p) + List.length (proofHash p))%nat
  /\ dsHash r = blake3hash (ds r).
Proof.
  unfold buildDS.
  destruct (enc64 (chainId p)) as [c|] eqn:Ec; [|discriminate].
  destruct (enc64 (startSlot p)) as [s|] eqn:Es; [|discriminate].
  destruct (enc64 (endSlot p)) as [e|] eqn:Ee; [|discriminate].
  destruct (enc64 (seq p)) as [q|] eqn:Eq; [|discriminate].
  intros H. assert (E : r = {| ds := List.concat [from_ascii "zKSL/anchor/v1"; c;
                                       programId p; proofHash p; s; e; q];
                               dsHash := blake3hash (List.concat
                                      [from_ascii "zKSL/anchor/v1"; c;
                                       programId p; proofHash p; s; e; q]) |})
    by congruence.
  subst r. cbn [ds dsHash List.concat]. split; [|reflexivity].
  rewrite !length_app, (enc64_length _ _ Ec), (enc64_length _ _ Es),
    (enc64_length _ _ Ee), (enc64_length _ _ Eq).
  cbn [List.length from_ascii]. change (List.length (from_ascii "zKSL/anchor/v1")) with 14%nat.
  lia.
Qed.

Section RouteFacts.
Context (blake3hash : bytes -> bytes) (ed25519_sign : bytes -> bytes -> bytes)
        {number : Type} (JSON_stringify_number : number -> Js.str)
        (BigInt : number -> option Z).

Lemma recompute_proof_hash_is_digest (artifact : Artifact number) (h : bytes) :
  recompute_proof_hash blake3hash number JSON_stringify_number artifact = Some h ->
  exists preimage, h = blake3hash preimage.
Proof.
  unfold recompute_proof_hash.
  destruct (normalizeHex32 _); [|discriminate].
  destruct (normalizeHex32 _); [|discriminate].
  destruct (canonicalize _ _) as [text|]; [|discriminate].
  intros H. exists (Utf8.encode text). congruence.
Qed.

(** An answer sent before the signing step is never the key mismatch. *)
Lemma before_signing_answer (env : Env number) (r : Response) :
  before_signing blake3hash ed25519_sign number JSON_stringify_number BigInt env = inl r ->
  r <> Failure 400 "AggregatorKeyMismatch".
Proof.
  unfold before_signing, unhandled.
  destruct (body_artifact_id env); [|intros [= <-]; discriminate].
  destruct (found_artifact env) as [artifact|]; [|intros [= <-]; discriminate].
  destruct (recompute_proof_hash _ _ _ artifact) as [proofHash|];
    [|intros [= <-]; discriminate].
  destruct (LOCAL_MODE env).
  { unfold anchor_local, unhandled.
    repeat match goal with
           | |- context [match ?x with Some _ => _ | None => _ end] =>
               destruct x; [|intros [= <-]; discriminate]
           end.
    intros [= <-]. discriminate. }
  repeat match goal with
         | |- context [match ?x with Some _ => _ | None => _ end] =>
             destruct x; [|intros [= <-]; discriminate]
         | |- context [if ?b then _ else _] =>
             destruct b; [intros [= <-]; discriminate|]
         end.
  discriminate.
Qed.

Lemma allowed_pubkey_code (cfg : Config) (seq : Z) :
  (if seq >=? activation_seq cfg then next_aggregator_pubkey cfg
   else aggregator_pubkey cfg)
  = Spec.allowed_pubkey cfg seq.
Proof.
  unfold Spec.allowed_pubkey.
  destruct (Z_ge_dec seq (activation_seq cfg)) as [G|G];
    destruct (Z.geb_spec seq (activation_seq cfg)); try reflexivity; lia.
Qed.

Lemma nacl_sign_detached_64 (message key : bytes) :
  List.length key = 64%nat ->
  nacl_sign_detached ed25519_sign message key = Some (ed25519_sign message key).
Proof. intros H. unfold nacl_sign_detached. now rewrite H. Qed.

(** The preimage built for a request is 110 bytes long. *)
Lemma built_length (env : Env number) (programId proofHash : bytes)
    (startSlot endSlot seq : Z) (artifact : Artifact number) (r : DSResult) :
  (forall m, List.length (blake3hash m) = 32%nat) ->
  (forall p, PROGRAM_ID env = Some p -> List.length p = 32%nat) ->
  PROGRAM_ID env = Some programId ->
  recompute_proof_hash blake3hash number JSON_stringify_number artifact
  = Some proofHash ->
  buildDS blake3hash
    {| chainId := CHAIN_ID env; programId := programId; proofHash := proofHash;
       startSlot := startSlot; endSlot := endSlot; Crypto.seq := seq |} = Some r ->
  List.length (ds r) = 110%nat /\ dsHash r = blake3hash (ds r).
Proof.
  intros Hb Hp Pid Ph B. apply buildDS_length in B. destruct B as [L D].
  split; [|exact D]. rewrite L. cbn [Crypto.programId Crypto.proofHash].
  rewrite (Hp _ Pid). apply recompute_proof_hash_is_digest in Ph.
  destruct Ph as [pre ->]. rewrite Hb. reflexivity.
Qed.

(** The signing step is reached exactly when everything before it
    succeeds, and then with these values. *)
Lemma before_signing_reached (env : Env number) (o : Obtained) :
  reaches_signing blake3hash JSON_stringify_number BigInt env o ->
  before_signing blake3hash ed25519_sign number JSON_stringify_number BigInt env
  = inr (signing_of o).
Proof.
  intros (Hb & Hf & Hh & Hl & Hs & Hss & Hes & Hc & Hch & Hp & Hd & Hk).
  unfold before_signing.
  destruct (body_artifact_id env); [|contradiction].
  rewrite Hf, Hh, Hl, Hs, Hss, Hes, Hc, Hch, Z.eqb_refl, Hp. cbn [negb].
  rewrite Hd, Hk. unfold signing_of, allowed_key, anchored_seq.
  now rewrite allowed_pubkey_code.
Qed.

Lemma before_signing_obtained (env : Env number) (s : Signing) :
  before_signing blake3hash ed25519_sign number JSON_stringify_number BigInt env = inr s ->
  exists o,
    reaches_signing blake3hash JSON_stringify_number BigInt env o /\ s = signing_of o.
Proof.
  unfold before_signing.
  destruct (body_artifact_id env) eqn:Hb; [|discriminate].
  destruct (found_artifact env) as [artifact|] eqn:Hf; [|discriminate].
  destruct (recompute_proof_hash _ _ _ artifact) as [proofHash|] eqn:P; [|discriminate].
  destruct (LOCAL_MODE env) eqn:Hl.
  { destruct (anchor_local _ _ _ _ _ _ _); discriminate. }
  destruct (fetched_last_seq env) as [lastSeq|] eqn:Hs; [|discriminate].
  destruct (slot_bigint _ _ (start_slot artifact)) as [startSlot|] eqn:Hss;
    [|discriminate].
  destruct (slot_bigint _ _ (end_slot artifact)) as [endSlot|] eqn:Hes; [|discriminate].
  destruct (fetched_config env) as [cfg|] eqn:Hc; [|discriminate].
  destruct (Z.eqb_spec (chain_id cfg) (CHAIN_ID env)) as [Hch|Hch]; [|discriminate].
  cbn [negb].
  destruct (PROGRAM_ID env) as [programId|] eqn:Hp; [|discriminate].
  destruct (buildDS _ _) as [r|] eqn:B; [|discriminate].
  destruct (loadAggregatorSecret _) as [sk|] eqn:K; [|discriminate].
  intros [= <-].
  exists {| the_artifact := artifact; the_proof_hash := proofHash; last_seq := lastSeq;
            the_start_slot := startSlot; the_end_slot := endSlot; the_config := cfg;
            program_id := programId; preimage := r; local_key := sk |}.
  split.
  - unfold reaches_signing.
    cbn [the_artifact the_proof_hash last_seq the_start_slot the_end_slot the_config
         program_id preimage local_key].
    split; [rewrite Hb; discriminate|]. repeat split; assumption.
  - unfold signing_of, allowed_key, anchored_seq.
    cbn [the_config last_seq preimage local_key]. now rewrite allowed_pubkey_code.
Qed.

(** The signing step itself: the key check, then the submission. *)
Lemma sign_and_submit_obtained (env : Env number) (o : Obtained) :
  reaches_signing blake3hash JSON_stringify_number BigInt env o ->
  keyPair_fromSecretKey (local_key o) = Some (subarray (local_key o) 32 32)
  /\ sign_and_submit ed25519_sign number env (signing_of o)
     = if bytesEq (subarray (local_key o) 32 32) (allowed_key o)
       then match submission env with
            | inr txid =>
                Anchored (toString_hex (ed25519_sign (ds (preimage o)) (local_key o)))
                  (toString_hex (dsHash (preimage o))) txid None
            | inl e =>
                Failure (Errors.http (Errors.mapProgramError e))
                  (Errors.code (Errors.mapProgramError e))
            end
       else Failure 400 "AggregatorKeyMismatch".
Proof.
  intros R.
  assert (K : loadAggregatorSecret (key_file env) = Some (local_key o)) by apply R.
  pose proof (loadAggregatorSecret_length _ _ K) as L64.
  unfold sign_and_submit, signing_of.
  cbn [built secretKey allowedAgg].
  rewrite (nacl_sign_detached_64 _ _ L64).
  unfold keyPair_fromSecretKey. rewrite L64. cbn [Nat.eqb].
  split; [reflexivity|].
  destruct (bytesEq (subarray (local_key o) 32 32) (allowed_key o)); reflexivity.
Qed.

Lemma preimage_length (env : Env number) (o : Obtained) :
  (forall m, List.length (blake3hash m) = 32%nat) ->
  (forall p, PROGRAM_ID env = Some p -> List.length p = 32%nat) ->
  reaches_signing blake3hash JSON_stringify_number BigInt env o ->
  List.length (ds (preimage o)) = 110%nat
  /\ dsHash (preimage o) = blake3hash (ds (preimage o)).
Proof.
  intros Hb Hp (_ & _ & Hh & _ & _ & _ & _ & _ & _ & Pid & B & _).
  exact (built_length env _ _ _ _ _ _ _ Hb Hp Pid Hh B).
Qed.

(** A successful answer carries the signature of the preimage built
    from the values of the request. *)
Lemma anchored_preimage (env : Env number) (sig dsh tx : string) (sq : option Z) :
  (forall m, List.length (blake3hash m) = 32%nat) ->
  (forall p, PROGRAM_ID env = Some p -> List.length p = 32%nat) ->
  anchor blake3hash ed25519_sign number JSON_stringify_number BigInt env
  = Anchored sig dsh tx sq ->
  exists artifact proofHash programId startSlot endSlot seq r sk,
    found_artifact env = Some artifact
    /\ recompute_proof_hash blake3hash number JSON_stringify_number artifact
       = Some proofHash
    /\ PROGRAM_ID env = Some programId
    /\ slot_bigint number BigInt (start_slot artifact) = Some startSlot
    /\ slot_bigint number BigInt (end_slot artifact) = Some endSlot
    /\ (if LOCAL_MODE env then seq = localSeq env + 1
        else exists lastSeq, fetched_last_seq env = Some lastSeq /\ seq = lastSeq + 1)
    /\ buildDS blake3hash
         {| chainId := CHAIN_ID env; programId := programId; proofHash := proofHash;
            startSlot := startSlot; endSlot := endSlot; Crypto.seq := seq |}
       = Some r
    /\ loadAggregatorSecret (key_file env) = Some sk
    /\ List.length (ds r) = 110%nat
    /\ dsHash r = blake3hash (ds r)
    /\ dsh = toString_hex (dsHash r)
    /\ sig = toString_hex (ed25519_sign (ds r) sk).
Proof.
  intros Hb Hp. unfold anchor.
  destruct (before_signing _ _ _ _ _ env) as [answer|s] eqn:E.
  - intros ->. unfold before_signing, unhandled in E.
    destruct (body_artifact_id env); [|discriminate E].
    destruct (found_artifact env) as [artifact|] eqn:Hf; [|discriminate E].
    destruct (recompute_proof_hash _ _ _ artifact) as [proofHash|] eqn:P;
      [|discriminate E].
    destruct (LOCAL_MODE env) eqn:Hl.
    + assert (A : anchor_local blake3hash ed25519_sign number BigInt env artifact
                    proofHash = inr (Anchored sig dsh tx sq)
                  \/ anchor_local blake3hash ed25519_sign number BigInt env artifact
                       proofHash = inl (Anchored sig dsh tx sq)).
      { destruct (anchor_local _ _ _ _ _ artifact proofHash) as [a|a];
          injection E as ->; auto. }
      clear E. revert A. unfold anchor_local, unhandled.
      destruct (slot_bigint _ _ (start_slot artifact)) as [startSlot|] eqn:Hss;
        [|intros [H|H]; discriminate H].
      destruct (slot_bigint _ _ (end_slot artifact)) as [endSlot|] eqn:Hes;
        [|intros [H|H]; discriminate H].
      destruct (PROGRAM_ID env) as [programId|] eqn:Pid;
        [|intros [H|H]; discriminate H].
      destruct (buildDS _ _) as [r|] eqn:B; [|intros [H|H]; discriminate H].
      destruct (loadAggregatorSecret _) as [sk|] eqn:K; [|intros [H|H]; discriminate H].
      rewrite (nacl_sign_detached_64 _ _ (loadAggregatorSecret_length _ _ K)).
      intros [H|H]; [|discriminate H]. injection H as <- <- _ _.
      assert (Hp' : forall p, PROGRAM_ID env = Some p -> List.length p = 32%nat)
        by (intros p E; apply Hp; congruence).
      destruct (built_length env _ _ _ _ _ _ r
                  Hb Hp' Pid P B) as [L D].
      exists artifact, proofHash, programId, startSlot, endSlot, (localSeq env + 1), r, sk.
      repeat split; assumption || reflexivity.
    + exfalso. revert E.
      repeat match goal with
             | |- context [match ?x with Some _ => _ | None => _ end] =>
                 destruct x; [|discriminate]
             | |- context [if ?b then _ else _] => destruct b; [discriminate|]
             end.
      discriminate.
  - destruct (before_signing_obtained env s E) as (o & R & ->).
    destruct (preimage_length env o Hb Hp R) as [L D].
    destruct (sign_and_submit_obtained env o R) as [_ S]. rewrite S.
    destruct R as (_ & Hf & Hh & Hl & Hs & Hss & Hes & _ & _ & Pid & B & K).
    destruct (bytesEq _ _); [|discriminate].
    destruct (submission env); [discriminate|].
    intros [= <- <- <- <-].
    exists (the_artifact o), (the_proof_hash o), (program_id o), (the_start_slot o),
      (the_end_slot o), (last_seq o + 1), (preimage o), (local_key o).
    rewrite Hl. repeat split; try assumption. exists (last_seq o). auto.
Qed.

(** C4.  The sequence number being anchored is [last_seq + 1], and the
    allowed key for it is [next_aggregator_pubkey] when
    [seq >= activation_seq] and [aggregator_pubkey] otherwise.  The
    route comes to sign for the ledger exactly when the artifact is
    found, outside [LOCAL_MODE] the last sequence number and the
    configuration are fetched, the chain ids agree, the preimage is
    built and the local key file is loaded.  Then it answers 400
    [AggregatorKeyMismatch] when the public key of the loaded secret
    differs from the allowed key, and otherwise submits and, on
    success, answers with the Ed25519 detached signature of the
    110-byte preimage itself next to the BLAKE3 digest of that
    preimage; it answers 400 [AggregatorKeyMismatch] in no other case.
    Every successful answer, in [LOCAL_MODE] too, carries the signature
    of the preimage built from the chain id, the program id, the
    recomputed proof hash, the slots of the artifact and the sequence
    number being anchored. *)
Theorem anchor_key_check (env : Env number) :
  (forall m, List.length (blake3hash m) = 32%nat) ->
  (forall p, PROGRAM_ID env = Some p -> List.length p = 32%nat) ->
  let route := anchor blake3hash ed25519_sign number JSON_stringify_number BigInt in
  let reaches := reaches_signing blake3hash JSON_stringify_number BigInt in
  (forall s,
      before_signing blake3hash ed25519_sign number JSON_stringify_number BigInt env
      = inr s
      <-> exists o, reaches env o /\ s = signing_of o)
  /\ (forall o,
         reaches env o ->
         anchored_seq o = last_seq o + 1
         /\ allowed_key o
            = (if Z_ge_dec (anchored_seq o) (activation_seq (the_config o))
               then next_aggregator_pubkey (the_config o)
               else aggregator_pubkey (the_config o))
         /\ List.length (ds (preimage o)) = 110%nat
         /\ dsHash (preimage o) = blake3hash (ds (preimage o))
         /\ exists public,
              keyPair_fromSecretKey (local_key o) = Some public
              /\ (public <> allowed_key o ->
                  route env = Failure 400 "AggregatorKeyMismatch")
              /\ (public = allowed_key o ->
                  route env
                  = match submission env with
                    | inr txid =>
                        Anchored
                          (toString_hex (ed25519_sign (ds (preimage o)) (local_key o)))
                          (toString_hex (dsHash (preimage o))) txid None
                    | inl e =>
                        Failure (Errors.http (Errors.mapProgramError e))
                          (Errors.code (Errors.mapProgramError e))
                    end))
  /\ (route env = Failure 400 "AggregatorKeyMismatch"
      <-> exists o public,
            reaches env o
            /\ keyPair_fromSecretKey (local_key o) = Some public
            /\ public <> allowed_key o)
  /\ (forall sig dsh tx sq,
         route env = Anchored sig dsh tx sq ->
         exists artifact proofHash programId startSlot endSlot seq r sk,
           found_artifact env = Some artifact
           /\ recompute_proof_hash blake3hash number JSON_stringify_number artifact
              = Some proofHash
           /\ PROGRAM_ID env = Some programId
           /\ slot_bigint number BigInt (start_slot artifact) = Some startSlot
           /\ slot_bigint number BigInt (end_slot artifact) = Some endSlot
           /\ (if LOCAL_MODE env then seq = localSeq env + 1
               else exists lastSeq,
                      fetched_last_seq env = Some lastSeq /\ seq = lastSeq + 1)
           /\ buildDS blake3hash
                {| chainId := CHAIN_ID env; programId := programId;
                   proofHash := proofHash; startSlot := startSlot;
                   endSlot := endSlot; Crypto.seq := seq |}
              = Some r
           /\ loadAggregatorSecret (key_file env) = Some sk
           /\ List.length (ds r) = 110%nat
           /\ dsHash r = blake3hash (ds r)
           /\ dsh = toString_hex (dsHash r)
           /\ sig = toString_hex (ed25519_sign (ds r) sk)).
Proof.
  intros Hb Hp. cbv zeta.
  assert (Route : forall o,
             reaches_signing blake3hash JSON_stringify_number BigInt env o ->
             anchor blake3hash ed25519_sign number JSON_stringify_number BigInt env
             = if bytesEq (subarray (local_key o) 32 32) (allowed_key o)
               then match submission env with
                    | inr txid =>
                        Anchored
                          (toString_hex (ed25519_sign (ds (preimage o)) (local_key o)))
                          (toString_hex (dsHash (preimage o))) txid None
                    | inl e =>
                        Failure (Errors.http (Errors.mapProgramError e))
                          (Errors.code (Errors.mapProgramError e))
                    end
               else Failure 400 "AggregatorKeyMismatch").
  { intros o R. unfold anchor. rewrite (before_signing_reached env o R).
    apply (sign_and_submit_obtained env o R). }
  split; [|split; [|split]].
  - intros s. split; [apply before_signing_obtained|].
    intros (o & R & ->). now apply before_signing_reached.
  - intros o R. split; [reflexivity|]. split; [reflexivity|].
    destruct (preimage_length env o Hb Hp R) as [L D].
    split; [exact L|]. split; [exact D|].
    exists (subarray (local_key o) 32 32).
    split; [apply (sign_and_submit_obtained env o R)|].
    rewrite (Route o R).
    destruct (bytesEq (subarray (local_key o) 32 32) (allowed_key o)) eqn:Q.
    + apply bytesEq_spec in Q. split; [intros N; contradiction | reflexivity].
    + split; [reflexivity|]. intros Q'. apply bytesEq_spec in Q'. congruence.
  - split.
    + intros A. unfold anchor in A.
      destruct (before_signing _ _ _ _ _ env) as [answer|s] eqn:E.
      * subst answer. now apply before_signing_answer in E.
      * destruct (before_signing_obtained env s E) as (o & R & ->).
        exists o, (subarray (local_key o) 32 32).
        split; [exact R|]. split; [apply (sign_and_submit_obtained env o R)|].
        destruct (sign_and_submit_obtained env o R) as [_ S]. rewrite S in A.
        intros Q. apply bytesEq_spec in Q. rewrite Q in A.
        destruct (submission env) as [e|txid]; [|discriminate A].
        injection A as _ C. now apply mapped_code_not_key_mismatch in C.
    + intros (o & public & R & K & N). rewrite (Route o R).
      destruct (sign_and_submit_obtained env o R) as [K' _].
      assert (public = subarray (local_key o) 32 32) as -> by congruence.
      destruct (bytesEq (subarray (local_key o) 32 32) (allowed_key o)) eqn:Q;
        [|reflexivity].
      apply bytesEq_spec in Q. contradiction.
  - intros sig dsh tx sq. now apply anchored_preimage.
Qed.

End RouteFacts.

Lemma toy_hash_length (m : bytes) : List.length (Examples.toy_hash m) = 32%nat.
Proof.
  unfold Examples.toy_hash. rewrite length_firstn, length_app, repeat_length. lia.
Qed.

Lemma anchor_key_check_witness :
  anchor Examples.toy_hash Examples.toy_sign Z (fun n => Js.lit (Codec.decimal n)) Some
    Examples.early_key_env
  = Failure 400 "AggregatorKeyMismatch"
  /\ exists signature ds_hash,
       anchor Examples.toy_hash Examples.toy_sign Z (fun n => Js.lit (Codec.decimal n))
         Some Examples.rotated_env
       = Anchored signature ds_hash "txid" None.
Proof.
  assert (P : forall env : Env Z,
             PROGRAM_ID env = Some (repeat x00 32) ->
             forall p, PROGRAM_ID env = Some p -> List.length p = 32%nat).
  { intros env E p E'. rewrite E in E'. injection E' as <-. reflexivity. }
  split.
  - destruct (anchor_key_check Examples.toy_hash Examples.toy_sign
                (fun n => Js.lit (Codec.decimal n)) Some Examples.early_key_env
                toy_hash_length (P Examples.early_key_env eq_refl)) as (A & B & _).
    destruct (before_signing Examples.toy_hash Examples.toy_sign Z
                (fun n => Js.lit (Codec.decimal n)) Some Examples.early_key_env)
      as [answer|s] eqn:E; [vm_compute in E; discriminate E|].
    destruct (proj1 (A s) eq_refl) as (o & R & _).
    destruct (B o R) as (_ & _ & _ & _ & public & K & Differ & _).
    apply Differ.
    destruct R as (_ & _ & _ & _ & Hs & _ & _ & Hc & _ & _ & _ & Hk).
    unfold allowed_key, anchored_seq.
    unfold Examples.early_key_env in Hs, Hc, Hk.
    cbn [fetched_last_seq fetched_config key_file] in Hs, Hc, Hk.
    change (loadAggregatorSecret (Some (KeyArray (repeat 7 64))))
      with (Some (uint8array (repeat 7 64))) in Hk.
    injection Hs as <-. injection Hc as <-. injection Hk as Ek.
    rewrite <- Ek in K. vm_compute in K. injection K as <-. vm_compute. discriminate.
  - destruct (anchor_key_check Examples.toy_hash Examples.toy_sign
                (fun n => Js.lit (Codec.decimal n)) Some Examples.rotated_env
                toy_hash_length (P Examples.rotated_env eq_refl)) as (A & B & _).
    destruct (before_signing Examples.toy_hash Examples.toy_sign Z
                (fun n => Js.lit (Codec.decimal n)) Some Examples.rotated_env)
      as [answer|s] eqn:E; [vm_compute in E; discriminate E|].
    destruct (proj1 (A s) eq_refl) as (o & R & _).
    destruct (B o R) as (_ & _ & _ & _ & public & K & _ & Same).
    rewrite Same; [do 2 eexists; reflexivity|].
    destruct R as (_ & _ & _ & _ & Hs & _ & _ & Hc & _ & _ & _ & Hk).
    unfold allowed_key, anchored_seq.
    unfold Examples.rotated_env in Hs, Hc, Hk.
    cbn [fetched_last_seq fetched_config key_file] in Hs, Hc, Hk.
    change (loadAggregatorSecret (Some (KeyArray (repeat 7 64))))
      with (Some (uint8array (repeat 7 64))) in Hk.
    injection Hs as <-. injection Hc as <-. injection Hk as Ek.
    rewrite <- Ek in K. vm_compute in K. injection K as <-. vm_compute. reflexivity.
Defined.

(** The guards that precede the loading of the key answer with their
    own codes: here the configured chain id differs from the ledger's. *)
Lemma chain_mismatch_answer :
  anchor Examples.toy_hash Examples.toy_sign Z (fun n => Js.lit (Codec.decimal n)) Some
    Examples.chain_mismatch_env
  = Failure 400 "ChainIdMismatch".
Proof. vm_compute. reflexivity. Qed.

(** Before the rotation is active the next key is refused. *)
Lemma early_key_answer :
  anchor Examples.toy_hash Examples.toy_sign Z (fun n => Js.lit (Codec.decimal n)) Some
    Examples.early_key_env
  = Failure 400 "AggregatorKeyMismatch".
Proof. vm_compute. reflexivity. Qed.

End AnchorFacts.

(** ** [crypto.ts]: the integer writers, read back *)
Module WireFacts.
Import Buf Crypto Spec BufFacts.

Lemma read_back (before bs after : bytes) :
  read_bytes (before ++ bs ++ after) (List.length before) (List.length bs) = Some bs.
Proof. apply read_bytes_at. Qed.

Lemma writeBigU_Int64LE_refuses (v lo hi : Z) :
  writeBigU_Int64LE v lo hi = None <-> ~ (lo <= v <= hi).
Proof.
  unfold writeBigU_Int64LE.
  destruct (Z.leb_spec lo v) as [A|A], (Z.leb_spec v hi) as [B|B]; cbn [andb];
    split; intros G; try discriminate G; try reflexivity; try lia;
    exfalso; apply G; lia.
Qed.

Lemma writeBigU_Int64LE_range (v lo hi : Z) (bs : bytes) :
  writeBigU_Int64LE v lo hi = Some bs -> lo <= v <= hi.
Proof.
  intros H. destruct (Z_le_dec lo v) as [A|A], (Z_le_dec v hi) as [B|B]; try lia;
    assert (N : writeBigU_Int64LE v lo hi = None)
      by (apply writeBigU_Int64LE_refuses; lia);
    congruence.
Qed.

(** X1.  [u64le] throws exactly when its argument is outside
    [0, 2^64); otherwise it yields 8 bytes that [readBigUInt64LE] reads
    back as the same number, at whatever offset they are placed in a
    buffer. *)
Theorem u64le_read_back (n : Z) :
  (u64le n = None <-> ~ is_u64 n)
  /\ forall bs,
       u64le n = Some bs ->
       List.length bs = 8%nat
       /\ forall before after,
            readBigUInt64LE (before ++ bs ++ after) (List.length before) = Some n.
Proof.
  unfold u64le, writeBigUInt64LE, is_u64. split.
  - rewrite writeBigU_Int64LE_refuses. split; intros H C; apply H; lia.
  - intros bs E. pose proof (writeBigU_Int64LE_range _ _ _ _ E) as R.
    apply writeBigU_Int64LE_value in E. destruct E as [L V].
    split; [exact L|]. intros before after.
    unfold readBigUInt64LE. rewrite <- L, read_back. cbn [option_map].
    rewrite V, Z.mod_small by lia. reflexivity.
Qed.

(** X2.  [i64le] throws exactly when its argument is outside
    [-2^63, 2^63); otherwise it yields 8 bytes, the two's complement of
    the number, that [readBigInt64LE] reads back as the same number. *)
Theorem i64le_read_back (n : Z) :
  (i64le n = None <-> ~ is_i64 n)
  /\ forall bs,
       i64le n = Some bs ->
       List.length bs = 8%nat
       /\ le_value bs = n mod 2 ^ 64
       /\ forall before after,
            readBigInt64LE (before ++ bs ++ after) (List.length before) = Some n.
Proof.
  unfold i64le, writeBigInt64LE, is_i64. split.
  - rewrite writeBigU_Int64LE_refuses. split; intros H C; apply H; lia.
  - intros bs E. pose proof (writeBigU_Int64LE_range _ _ _ _ E) as R.
    apply writeBigU_Int64LE_value in E. destruct E as [L V].
    split; [exact L|]. split; [exact V|]. intros before after.
    unfold readBigInt64LE. rewrite <- L, read_back. cbn [option_map].
    rewrite V, to_int64_mod by lia. reflexivity.
Qed.

(** X3.  [u32le] never throws: it keeps the low 32 bits of its
    argument ([n >>> 0]), so a negative or an oversized length is
    written as its residue modulo 2^32, which is what [readUInt32LE]
    reads back. *)
Theorem u32le_wraps (n : Z) :
  exists bs,
    u32le n = Some bs
    /\ List.length bs = 4%nat
    /\ forall before after,
         readUInt32LE (before ++ bs ++ after) (List.length before) = Some (n mod 2 ^ 32).
Proof.
  destruct (u32le_total n) as (bs & E & L & V).
  exists bs. split; [exact E|]. split; [exact L|]. intros before after.
  unfold readUInt32LE. rewrite <- L, read_back. cbn [option_map]. now rewrite V.
Qed.

End WireFacts.

(** ** Hexadecimal text: [normalizeHex32], [hexTo32], [toString("hex")] *)
Module HexFacts.
Import Buf Crypto Spec Anchor.

Lemma hex_char_cases (c : ascii) :
  isHexChar c = true ->
  is_lower_hex (toLowerChar c) = true
  /\ isHexChar (toLowerChar c) = true
  /\ toLowerChar (toLowerChar c) = toLowerChar c
  /\ hex_value (toLowerChar c) = hex_value c
  /\ exists x, hex_value c = Some x /\ 0 <= x < 16 /\ hex_digit x = toLowerChar c.
Proof.
  destruct c as [[] [] [] [] [] [] [] []]; vm_compute; intros H;
    try discriminate H;
    (repeat split; eexists; repeat split; discriminate).
Qed.

Lemma byte_of_digits (x y : Z) :
  0 <= x < 16 -> 0 <= y < 16 ->
  hex_hi (byte_of_Z (16 * x + y)) = hex_digit x
  /\ hex_lo (byte_of_Z (16 * x + y)) = hex_digit y.
Proof.
  intros Hx Hy. unfold hex_hi, hex_lo.
  rewrite BufFacts.Z_of_byte_of_Z, Z.mod_small by lia.
  rewrite Z.shiftr_div_pow2 by lia.
  change 15 with (Z.ones 4). rewrite Z.land_ones by lia.
  change (2 ^ 4) with 16.
  replace ((16 * x + y) / 16) with x by (apply Z.div_unique with y; lia).
  replace ((16 * x + y) mod 16) with y by (apply Z.mod_unique with x; lia).
  split; reflexivity.
Qed.

Lemma digits_of_byte (b : byte) :
  hex_value (hex_hi b) = Some (Z.shiftr (Z_of_byte b) 4)
  /\ hex_value (hex_lo b) = Some (Z.land (Z_of_byte b) 15)
  /\ byte_of_Z (16 * Z.shiftr (Z_of_byte b) 4 + Z.land (Z_of_byte b) 15) = b
  /\ Ascii.eqb (hex_hi b) "-" = false
  /\ Ascii.eqb (hex_lo b) "-" = false.
Proof. destruct b; vm_compute; repeat split; reflexivity. Qed.

(** Decoding what [toString("hex")] wrote gives the bytes back. *)
Lemma from_hex_toString_hex (bs : bytes) : from_hex (toString_hex bs) = bs.
Proof.
  unfold from_hex. induction bs as [|b bs IH]; [reflexivity|].
  cbn [toString_hex list_ascii_of_string from_hex_chars].
  destruct (digits_of_byte b) as (Hh & Hl & Hb & _).
  rewrite Hh, Hl, Hb, IH. reflexivity.
Qed.

Lemma toString_hex_length (bs : bytes) :
  String.length (toString_hex bs) = (2 * List.length bs)%nat.
Proof.
  induction bs as [|b bs IH]; [reflexivity|].
  cbn [toString_hex String.length List.length]. rewrite IH. lia.
Qed.

(** Decoding hexadecimal digits and writing them again gives the
    lower-case digits. *)
Lemma toString_hex_from_hex_chars (l : list ascii) :
  forallb isHexChar l = true ->
  Nat.even (List.length l) = true ->
  toString_hex (from_hex_chars l) = string_of_list_ascii (map toLowerChar l)
  /\ (2 * List.length (from_hex_chars l) = List.length l)%nat
  /\ from_hex_chars (map toLowerChar l) = from_hex_chars l.
Proof.
  revert l. fix IH 1. intros [|a [|b l]]; [repeat split | discriminate |].
  cbn [forallb List.length Nat.even]. rewrite !andb_true_iff.
  intros (Ha & Hb & Hl) He.
  destruct (hex_char_cases a Ha) as (_ & _ & _ & Va & x & Ex & Rx & Dx).
  destruct (hex_char_cases b Hb) as (_ & _ & _ & Vb & y & Ey & Ry & Dy).
  destruct (IH l Hl He) as (R & L & C).
  cbn [from_hex_chars map]. rewrite Va, Vb, Ex, Ey.
  cbn [toString_hex string_of_list_ascii List.length].
  destruct (byte_of_digits x y Rx Ry) as [Hh Hlo].
  rewrite Hh, Hlo, Dx, Dy, R, C. repeat split. lia.
Qed.

Lemma list_ascii_length (s : string) :
  List.length (list_ascii_of_string s) = String.length s.
Proof. induction s as [|c s IH]; [reflexivity|]. cbn. now rewrite IH. Qed.

Lemma string_of_list_length (l : list ascii) :
  String.length (string_of_list_ascii l) = List.length l.
Proof. induction l as [|c l IH]; [reflexivity|]. cbn. now rewrite IH. Qed.

Lemma normalizeHex32_result (s t : string) :
  normalizeHex32 s = Some t ->
  isHex32 s = true
  /\ t = string_of_list_ascii (map toLowerChar (list_ascii_of_string s)).
Proof.
  unfold normalizeHex32. destruct (isHex32 s); [|discriminate].
  intros [= <-]. split; reflexivity.
Qed.

Lemma lowered_chars (l : list ascii) :
  forallb isHexChar l = true ->
  forallb is_lower_hex (map toLowerChar l) = true
  /\ forallb isHexChar (map toLowerChar l) = true
  /\ map toLowerChar (map toLowerChar l) = map toLowerChar l.
Proof.
  induction l as [|c l IH]; [repeat split|].
  cbn [forallb map]. rewrite andb_true_iff. intros [Hc Hl].
  destruct (hex_char_cases c Hc) as (A & B & C & _).
  destruct (IH Hl) as (A' & B' & C').
  rewrite A, A', B, B', C, C'. repeat split.
Qed.

(** What [normalizeHex32] returns is in normal form. *)
Lemma normalizeHex32_fixed (s t : string) :
  normalizeHex32 s = Some t ->
  String.length t = 64%nat
  /\ forallb is_lower_hex (list_ascii_of_string t) = true
  /\ normalizeHex32 t = Some t.
Proof.
  intros H. apply normalizeHex32_result in H. destruct H as [Hs ->].
  unfold isHex32 in Hs. apply andb_true_iff in Hs. destruct Hs as [Hlen Hall].
  apply Nat.eqb_eq in Hlen.
  destruct (lowered_chars _ Hall) as (A & B & C).
  rewrite list_ascii_of_string_of_list_ascii.
  assert (L : String.length
                (string_of_list_ascii (map toLowerChar (list_ascii_of_string s)))
              = 64%nat)
    by (rewrite string_of_list_length, length_map, list_ascii_length; exact Hlen).
  split; [exact L|]. split; [exact A|].
  unfold normalizeHex32, isHex32.
  rewrite L, list_ascii_of_string_of_list_ascii, B, C. reflexivity.
Qed.

(** X4.  When [normalizeHex32] accepts a string, the result has 64
    characters, all of them digits or lower-case [a..f]; normalizing
    the result again returns it unchanged. *)
Theorem normalizeHex32_idempotent (s t : string) :
  normalizeHex32 s = Some t ->
  String.length t = 64%nat
  /\ forallb is_lower_hex (list_ascii_of_string t) = true
  /\ normalizeHex32 t = Some t.
Proof.
  apply normalizeHex32_fixed.
Qed.

Lemma normalizeHex32_idempotent_witness :
  normalizeHex32 "00112233445566778899AABBCCDDEEFF00112233445566778899aabbccddeeff"
  = Some "00112233445566778899aabbccddeeff00112233445566778899aabbccddeeff"%string
  /\ normalizeHex32 "00112233445566778899aabbccddeeff00112233445566778899aabbccddeeff"
     = Some "00112233445566778899aabbccddeeff00112233445566778899aabbccddeeff"%string.
Proof.
  assert (E : normalizeHex32
                "00112233445566778899AABBCCDDEEFF00112233445566778899aabbccddeeff"
              = Some "00112233445566778899aabbccddeeff00112233445566778899aabbccddeeff"%string)
    by reflexivity.
  split; [exact E|].
  exact (proj2 (proj2 (normalizeHex32_idempotent _ _ E))).
Defined.

(** X5.  For a string that [normalizeHex32] accepts, [hexTo32] of the
    normalized text is 32 bytes long, it is the same as [hexTo32] of the
    text as given, and writing it in hexadecimal gives the normalized
    text back. *)
Theorem hexTo32_round_trip (s t : string) :
  normalizeHex32 s = Some t ->
  List.length (Server.hexTo32 t) = 32%nat
  /\ Server.hexTo32 s = Server.hexTo32 t
  /\ toString_hex (Server.hexTo32 t) = t.
Proof.
  intros H. apply normalizeHex32_result in H. destruct H as [Hs ->].
  unfold isHex32 in Hs. apply andb_true_iff in Hs. destruct Hs as [Hlen Hall].
  apply Nat.eqb_eq in Hlen. rewrite <- list_ascii_length in Hlen.
  assert (He : Nat.even (List.length (list_ascii_of_string s)) = true)
    by (rewrite Hlen; reflexivity).
  destruct (toString_hex_from_hex_chars _ Hall He) as (R & L & C).
  unfold Server.hexTo32, from_hex.
  rewrite list_ascii_of_string_of_list_ascii, C.
  split; [lia|]. split; [reflexivity | exact R].
Qed.

Lemma hexTo32_round_trip_witness :
  toString_hex
    (Server.hexTo32 "00112233445566778899aabbccddeeff00112233445566778899aabbccddeeff")
  = "00112233445566778899aabbccddeeff00112233445566778899aabbccddeeff"%string.
Proof.
  refine (proj2 (proj2 (hexTo32_round_trip
    "00112233445566778899AABBCCDDEEFF00112233445566778899aabbccddeeff" _ _))).
  reflexivity.
Defined.

End HexFacts.
(** ** The artifact identifier between the orchestrator and the indexer *)
Module UuidBytesFacts.
Import Buf Crypto Spec.

Lemma filter_keep {A} (f : A -> bool) (x : A) (l : list A) :
  f x = true -> filter f (x :: l) = x :: filter f l.
Proof. intros H. cbn [filter]. now rewrite H. Qed.

Lemma filter_drop {A} (f : A -> bool) (x : A) (l : list A) :
  f x = false -> filter f (x :: l) = filter f l.
Proof. intros H. cbn [filter]. now rewrite H. Qed.

Lemma thirty_two {A} (l : list A) :
  List.length l = 32%nat ->
  exists c0 c1 c2 c3 c4 c5 c6 c7 c8 c9 c10 c11 c12 c13 c14 c15 c16 c17 c18 c19
         c20 c21 c22 c23 c24 c25 c26 c27 c28 c29 c30 c31,
    l = [c0; c1; c2; c3; c4; c5; c6; c7; c8; c9; c10; c11; c12; c13; c14; c15;
         c16; c17; c18; c19; c20; c21; c22; c23; c24; c25; c26; c27; c28; c29;
         c30; c31].
Proof.
  intros H.
  do 32 (destruct l as [|? l]; [discriminate H|]).
  destruct l; [|discriminate H]. repeat eexists.
Qed.

Lemma without_dashes_dashed_chars (l : list ascii) :
  List.length l = 32%nat ->
  Forall (fun c => Ascii.eqb c "-" = false) l ->
  Server.without_dashes (dashed (string_of_list_ascii l)) = string_of_list_ascii l.
Proof.
  intros L F.
  destruct (thirty_two l L)
    as (c0 & c1 & c2 & c3 & c4 & c5 & c6 & c7 & c8 & c9 & c10 & c11 & c12 & c13
          & c14 & c15 & c16 & c17 & c18 & c19 & c20 & c21 & c22 & c23 & c24
          & c25 & c26 & c27 & c28 & c29 & c30 & c31 & ->).
  repeat match goal with
         | H : Forall _ (_ :: _) |- _ => inversion H; subst; clear H
         end.
  unfold Server.without_dashes. f_equal.
  lazy -[filter Ascii.eqb negb].
  repeat first
    [ rewrite filter_keep
        by (cbv beta;
            match goal with
            | H : Ascii.eqb ?c _ = false |- negb (Ascii.eqb ?c _) = true =>
                rewrite H; reflexivity
            end)
    | rewrite filter_drop by reflexivity ].
  reflexivity.
Qed.

Lemma toString_hex_no_dash (bs : bytes) :
  Forall (fun c => Ascii.eqb c "-" = false) (list_ascii_of_string (toString_hex bs)).
Proof.
  induction bs as [|b bs IH]; [constructor|].
  cbn [toString_hex list_ascii_of_string].
  destruct (HexFacts.digits_of_byte b) as (_ & _ & _ & Hh & Hl).
  repeat constructor; assumption.
Qed.

(** Removing the dashes of the dashed rendering of 16 bytes leaves
    their 32 hexadecimal digits. *)
Lemma without_dashes_dashed (bs : bytes) :
  List.length bs = 16%nat ->
  Server.without_dashes (dashed (toString_hex bs)) = toString_hex bs.
Proof.
  intros H.
  rewrite <- (string_of_list_ascii_of_string (toString_hex bs)).
  apply without_dashes_dashed_chars; [|apply toString_hex_no_dash].
  rewrite HexFacts.list_ascii_length, HexFacts.toString_hex_length, H. reflexivity.
Qed.

(** X6.  The identifier [uuidFromHash32] renders is turned by
    [uuidToBytes] into the 16 bytes it was rendered from (the random
    fallback is not taken), and the indexer's [uuidFrom16] renders
    those bytes as the same identifier. *)
Theorem uuid_round_trip (randomBytes hash : bytes) (u : string) :
  uuidFromHash32 hash = Some u ->
  Server.uuidToBytes randomBytes u = Some (uuid_bytes hash)
  /\ List.length (uuid_bytes hash) = 16%nat
  /\ Codec.uuidFrom16 (uuid_bytes hash) = u.
Proof.
  intros H.
  assert (L : (16 <= List.length hash)%nat).
  { unfold uuidFromHash32 in H.
    destruct (Nat.ltb_spec (List.length hash) 16); [discriminate H | assumption]. }
  rewrite (UuidFacts.uuidFromHash32_bytes hash L) in H. injection H as <-.
  destruct (UuidFacts.uuid_bytes_is_v4 hash L) as [L16 _].
  split; [|split; [exact L16 | reflexivity]].
  unfold Server.uuidToBytes.
  rewrite (without_dashes_dashed _ L16), HexFacts.toString_hex_length, L16.
  cbn [Nat.mul Nat.add Nat.eqb negb].
  now rewrite HexFacts.from_hex_toString_hex.
Qed.

Lemma uuid_round_trip_witness :
  Server.uuidToBytes [] "ffffffff-ffff-4fff-bfff-ffffffffffff"
  = Some (uuid_bytes (repeat xff 32))
  /\ Codec.uuidFrom16 (uuid_bytes (repeat xff 32))
     = "ffffffff-ffff-4fff-bfff-ffffffffffff"%string.
Proof.
  destruct (uuid_round_trip [] (repeat xff 32) "ffffffff-ffff-4fff-bfff-ffffffffffff")
    as (A & _ & B); [reflexivity|].
  split; [exact A | exact B].
Defined.

Lemma randomUuidV4_bytes (randomBytes : bytes) :
  List.length randomBytes = 16%nat ->
  Server.randomUuidV4 randomBytes
  = Some (dashed (toString_hex (uuid_bytes randomBytes))).
Proof.
  intros H. rewrite <- (UuidFacts.uuidFromHash32_bytes randomBytes) by lia.
  unfold Server.randomUuidV4, uuidFromHash32, subarray. rewrite H.
  cbn [Nat.ltb Nat.leb skipn]. rewrite firstn_all2 by lia. reflexivity.
Qed.

Lemma from_hex_chars_length (l : list ascii) :
  (2 * List.length (Anchor.from_hex_chars l) <= List.length l)%nat.
Proof.
  revert l. fix IH 1.
  intros [|a [|b l]]; cbn [Anchor.from_hex_chars List.length]; try lia.
  destruct (Anchor.hex_value a); [|cbn [List.length]; lia].
  destruct (Anchor.hex_value b); [|cbn [List.length]; lia].
  cbn [List.length]. specialize (IH l). lia.
Qed.

(** X26.  [uuidToBytes] does not reject a malformed identifier.  When
    the identifier without its dashes is not 32 characters long, the
    result is 16 fresh random bytes with the version and variant bits
    set, and nothing of the identifier.  When it is 32 characters long
    it is decoded as hexadecimal without a check of the digits, so the
    result has at most 16 bytes. *)
Theorem uuidToBytes_fallback (randomBytes : bytes) (u : string) :
  List.length randomBytes = 16%nat ->
  (String.length (Server.without_dashes u) <> 32%nat ->
   Server.uuidToBytes randomBytes u = Some (uuid_bytes randomBytes)
   /\ List.length (uuid_bytes randomBytes) = 16%nat)
  /\ (String.length (Server.without_dashes u) = 32%nat ->
      Server.uuidToBytes randomBytes u
      = Some (Anchor.from_hex (Server.without_dashes u))
      /\ (List.length (Anchor.from_hex (Server.without_dashes u)) <= 16)%nat).
Proof.
  intros H. unfold Server.uuidToBytes. split; intros L.
  - destruct (Nat.eqb_spec (String.length (Server.without_dashes u)) 32) as [E|_];
      [contradiction|]. cbn [negb].
    destruct (UuidFacts.uuid_bytes_is_v4 randomBytes) as [L16 _]; [lia|].
    rewrite (randomUuidV4_bytes _ H), (without_dashes_dashed _ L16).
    now rewrite HexFacts.from_hex_toString_hex.
  - rewrite L. cbn [Nat.eqb negb]. split; [reflexivity|].
    unfold Anchor.from_hex.
    pose proof (from_hex_chars_length
                  (list_ascii_of_string (Server.without_dashes u))) as B.
    rewrite HexFacts.list_ascii_length, L in B. lia.
Qed.

Lemma uuidToBytes_fallback_witness :
  Server.uuidToBytes (repeat x00 16) "not-an-identifier"
  = Some (uuid_bytes (repeat x00 16))
  /\ List.length (uuid_bytes (repeat x00 16)) = 16%nat.
Proof.
  refine (proj1 (uuidToBytes_fallback (repeat x00 16) "not-an-identifier" _) _).
  - reflexivity.
  - vm_compute. discriminate.
Defined.

End UuidBytesFacts.

(** ** [crypto.ts]: the commitment preimage *)
Module PreimageFacts.
Import Buf Crypto Spec BufFacts.

Lemma app_same_length {A} (a a' b b' : list A) :
  List.length a = List.length a' -> a ++ b = a' ++ b' -> a = a' /\ b = b'.
Proof.
  revert a'; induction a as [|x a IH]; intros [|x' a'] L E; try discriminate L.
  - split; [reflexivity | exact E].
  - injection L as L. injection E as -> E. destruct (IH a' L E) as [-> ->].
    split; reflexivity.
Qed.

Lemma enc64_value (n : Z) (bs : bytes) :
  enc64 n = Some bs -> List.length bs = 8%nat /\ le_value bs = n /\ is_u64 n.
Proof.
  unfold enc64, writeBigUInt64LE, is_u64. intros E.
  pose proof (WireFacts.writeBigU_Int64LE_range _ _ _ _ E) as R.
  apply writeBigU_Int64LE_value in E. destruct E as [L V].
  rewrite Z.mod_small in V by lia. repeat split; try assumption; lia.
Qed.

Lemma enc64_refuses (n : Z) : enc64 n = None <-> ~ is_u64 n.
Proof.
  unfold enc64, writeBigUInt64LE, is_u64.
  rewrite WireFacts.writeBigU_Int64LE_refuses. split; intros H C; apply H; lia.
Qed.

Lemma buildDS_parts (blake3hash : bytes -> bytes) (p : DSParams) (r : DSResult) :
  buildDS blake3hash p = Some r ->
  exists c s e q,
    enc64 (chainId p) = Some c /\ enc64 (startSlot p) = Some s
    /\ enc64 (endSlot p) = Some e /\ enc64 (seq p) = Some q
    /\ ds r = from_ascii "zKSL/anchor/v1" ++ c ++ programId p ++ proofHash p
                ++ s ++ e ++ q
    /\ dsHash r = blake3hash (ds r).
Proof.
  unfold buildDS.
  destruct (enc64 (chainId p)) as [c|]; [|discriminate].
  destruct (enc64 (startSlot p)) as [s|]; [|discriminate].
  destruct (enc64 (endSlot p)) as [e|]; [|discriminate].
  destruct (enc64 (seq p)) as [q|]; [|discriminate].
  intros H. exists c, s, e, q.
  assert (E : r = {| ds := List.concat [from_ascii "zKSL/anchor/v1"; c;
                                       programId p; proofHash p; s; e; q];
                     dsHash := blake3hash (List.concat
                                      [from_ascii "zKSL/anchor/v1"; c;
                                       programId p; proofHash p; s; e; q]) |})
    by congruence.
  subst r. cbn [ds dsHash List.concat]. rewrite app_nil_r. repeat split.
Qed.

(** X7.  [buildDS] throws exactly when one of [chainId], [startSlot],
    [endSlot], [seq] is outside [0, 2^64).  It does not look at the
    lengths of [programId] and [proofHash]: the preimage is 46 bytes
    longer than the two together, whatever their lengths, and the
    digest is the hash of that preimage. *)
Theorem buildDS_failure (blake3hash : bytes -> bytes) (p : DSParams) :
  (buildDS blake3hash p = None
   <-> ~ (is_u64 (chainId p) /\ is_u64 (startSlot p) /\ is_u64 (endSlot p)
          /\ is_u64 (seq p)))
  /\ forall r,
       buildDS blake3hash p = Some r ->
       List.length (ds r)
       = (46 + List.length (programId p) + List.length (proofHash p))%nat
       /\ dsHash r = blake3hash (ds r).
Proof.
  split.
  - unfold buildDS.
    destruct (enc64 (chainId p)) as [c|] eqn:Ec.
    2:{ apply enc64_refuses in Ec. split; [tauto | reflexivity]. }
    destruct (enc64 (startSlot p)) as [s|] eqn:Es.
    2:{ apply enc64_refuses in Es. split; [tauto | reflexivity]. }
    destruct (enc64 (endSlot p)) as [e|] eqn:Ee.
    2:{ apply enc64_refuses in Ee. split; [tauto | reflexivity]. }
    destruct (enc64 (seq p)) as [q|] eqn:Eq.
    2:{ apply enc64_refuses in Eq. split; [tauto | reflexivity]. }
    split; [discriminate|]. intros H. exfalso. apply H.
    apply enc64_value in Ec, Es, Ee, Eq. tauto.
  - intros r H. destruct (buildDS_parts _ _ _ H) as (c & s & e & q & Ec & Es & Ee & Eq & D & Hh).
    split; [|exact Hh]. rewrite D.
    apply enc64_value in Ec, Es, Ee, Eq.
    destruct Ec as [Lc _], Es as [Ls _], Ee as [Le _], Eq as [Lq _].
    rewrite !length_app, Lc, Ls, Le, Lq.
    change (List.length (from_ascii "zKSL/anchor/v1")) with 14%nat. lia.
Qed.

(** X8.  With program ids and proof hashes of 32 bytes, the preimage
    determines the six inputs: two calls of [buildDS] that return the
    same preimage were given the same chain id, program id, proof
    hash, slots and sequence number. *)
Theorem buildDS_injective (blake3hash : bytes -> bytes) (p p' : DSParams)
    (r r' : DSResult) :
  List.length (programId p) = 32%nat -> List.length (proofHash p) = 32%nat ->
  List.length (programId p') = 32%nat -> List.length (proofHash p') = 32%nat ->
  buildDS blake3hash p = Some r ->
  buildDS blake3hash p' = Some r' ->
  ds r = ds r' ->
  p = p'.
Proof.
  intros Lp Lh Lp' Lh' B B' E.
  destruct (buildDS_parts _ _ _ B) as (c & s & e & q & Ec & Es & Ee & Eq & D & _).
  destruct (buildDS_parts _ _ _ B') as (c' & s' & e' & q' & Ec' & Es' & Ee' & Eq' & D' & _).
  rewrite D, D' in E.
  apply enc64_value in Ec, Es, Ee, Eq, Ec', Es', Ee', Eq'.
  destruct Ec as (Lc & Vc & _), Es as (Ls & Vs & _), Ee as (Le & Ve & _),
           Eq as (Lq & Vq & _), Ec' as (Lc' & Vc' & _), Es' as (Ls' & Vs' & _),
           Ee' as (Le' & Ve' & _), Eq' as (Lq' & Vq' & _).
  apply app_same_length in E; [|reflexivity]. destruct E as [_ E].
  apply app_same_length in E; [|congruence]. destruct E as [E1 E].
  apply app_same_length in E; [|congruence]. destruct E as [E2 E].
  apply app_same_length in E; [|congruence]. destruct E as [E3 E].
  apply app_same_length in E; [|congruence]. destruct E as [E4 E].
  apply app_same_length in E; [|congruence]. destruct E as [E5 E6].
  subst c' s' e' q'.
  destruct p as [a1 a2 a3 a4 a5 a6], p' as [b1 b2 b3 b4 b5 b6].
  cbn [chainId programId proofHash startSlot endSlot seq] in *.
  congruence.
Qed.

Lemma buildDS_injective_witness :
  {| chainId := 103; programId := repeat x07 32; proofHash := repeat x05 32;
     startSlot := 1; endSlot := 2; seq := 3 |}
  = {| chainId := 103; programId := repeat x07 32; proofHash := repeat x05 32;
       startSlot := 1; endSlot := 1 + 1; seq := 3 |}.
Proof.
  pose (p := {| chainId := 103; programId := repeat x07 32; proofHash := repeat x05 32;
                startSlot := 1; endSlot := 2; seq := 3 |}).
  destruct (buildDS Examples.toy_hash p) as [r|] eqn:B.
  - exact (buildDS_injective Examples.toy_hash p p r r eq_refl eq_refl eq_refl eq_refl
             B B eq_refl).
  - vm_compute in B. discriminate B.
Defined.

End PreimageFacts.

(** ** [crypto.ts]: canonical JSON does not depend on the order of keys *)
Module CanonicalOrderFacts.
Import Crypto Spec CanonicalFacts.

Lemma strictly_sorted_unique (l l' : list Js.str) :
  Sorted (fun a b => Js.ltb a b = true) l ->
  Sorted (fun a b => Js.ltb a b = true) l' ->
  (forall x, In x l <-> In x l') ->
  l = l'.
Proof.
  assert (T : Relations_1.Transitive (fun a b => Js.ltb a b = true)).
  { intros a b c. unfold Js.ltb.
    revert b c; induction a as [|x a IH]; intros [|y b] [|z c]; cbn;
      try discriminate; try reflexivity.
    destruct (N.compare_spec x y), (N.compare_spec y z); subst;
      try discriminate; intros H1 H2.
    - rewrite N.compare_refl. now apply (IH b c).
    - destruct (N.compare_spec y z); [lia | reflexivity | lia].
    - destruct (N.compare_spec x z); [lia | reflexivity | lia].
    - destruct (N.compare_spec x z); [lia | reflexivity | lia]. }
  assert (Irr : forall a, Js.ltb a a = true -> False).
  { intros a. unfold Js.ltb. induction a as [|x a IH]; cbn; [discriminate|].
    now rewrite N.compare_refl. }
  intros S S'. apply Sorted_StronglySorted in S; [|exact T].
  apply Sorted_StronglySorted in S'; [|exact T].
  revert l' S'; induction S as [|a l S IH Fa]; intros l' S' M.
  - destruct l' as [|b l']; [reflexivity|]. exfalso. apply (M b). now left.
  - destruct S' as [|b l' S' Fb].
    { exfalso. apply (M a). now left. }
    rewrite Forall_forall in Fa, Fb.
    assert (a = b).
    { destruct (proj1 (M a) (or_introl eq_refl)) as [->|Ha]; [reflexivity|].
      destruct (proj2 (M b) (or_introl eq_refl)) as [->|Hb]; [reflexivity|].
      exfalso. apply (Irr a). apply (T a b a); [now apply Fa | now apply Fb]. }
    subst b. f_equal. apply IH; [exact S'|].
    intros x. split; intros Hx.
    + destruct (proj1 (M x) (or_intror Hx)) as [->|H']; [|exact H'].
      exfalso. apply (Irr x). now apply Fa.
    + destruct (proj2 (M x) (or_intror Hx)) as [->|H']; [|exact H'].
      exfalso. apply (Irr x). now apply Fb.
Qed.

Section WithNumbers.
Context {number : Type} (JSON_stringify_number : number -> Js.str).

Lemma get_In_pair {A} (k : Js.str) (v : A) (props : list (Js.str * A)) :
  NoDup (map fst props) -> (get k props = Some v <-> In (k, v) props).
Proof.
  induction props as [|[k' v'] props IH]; intros ND; cbn [get In].
  - split; [discriminate | contradiction].
  - inversion ND as [|? ? Hk ND']; subst.
    destruct (Js.eqb k k') eqn:E.
    + apply eqb_eq in E. subst k'. split.
      * intros [= ->]. now left.
      * intros [[= ->]|Hin]; [reflexivity|].
        exfalso. apply Hk. change k with (fst (k, v)). now apply in_map.
    + rewrite (IH ND'). split; [now right|].
      intros [[= -> ->]|Hin]; [|exact Hin].
      assert (Js.eqb k k = true) by now apply eqb_eq. congruence.
Qed.

Lemma get_permutation {A} (k : Js.str) (props props' : list (Js.str * A)) :
  NoDup (map fst props) -> Permutation props props' ->
  get k props = get k props'.
Proof.
  intros ND P.
  assert (ND' : NoDup (map fst props'))
    by (eapply Permutation_NoDup; [apply Permutation_map; exact P | exact ND]).
  destruct (get k props) as [v|] eqn:G.
  - apply (get_In_pair _ _ _ ND) in G. symmetry. apply (get_In_pair _ _ _ ND').
    eapply Permutation_in; eassumption.
  - destruct (get k props') as [v'|] eqn:G'; [|reflexivity].
    apply (get_In_pair _ _ _ ND') in G'.
    apply (Permutation_in _ (Permutation_sym P)) in G'.
    apply (get_In_pair _ _ _ ND) in G'. congruence.
Qed.

Lemma canonical_keys_permutation (props props' : list (Js.str * value number)) :
  NoDup (object_keys props) -> Permutation props props' ->
  canonical_keys props = canonical_keys props'.
Proof.
  intros ND P.
  assert (ND' : NoDup (object_keys props'))
    by (eapply Permutation_NoDup; [apply Permutation_map; exact P | exact ND]).
  apply strictly_sorted_unique.
  - unfold canonical_keys. apply sorted_strict; [|apply sort_sorted].
    apply sort_NoDup. now apply NoDup_filter.
  - unfold canonical_keys. apply sorted_strict; [|apply sort_sorted].
    apply sort_NoDup. now apply NoDup_filter.
  - intros k. unfold canonical_keys. rewrite !In_sort, !filter_In.
    unfold keep. rewrite (get_permutation k props props' ND P).
    assert (In k (object_keys props) <-> In k (object_keys props')).
    { unfold object_keys. split; apply Permutation_in;
        [|apply Permutation_sym]; apply Permutation_map; exact P. }
    tauto.
Qed.

(** X9.  The canonical text of an object does not depend on the order
    in which its properties were inserted: two objects with the same
    properties in different orders render the same. *)
Theorem canonicalize_order_independent (props props' : list (Js.str * value number)) :
  NoDup (object_keys props) ->
  Permutation props props' ->
  canonicalize JSON_stringify_number (Object props)
  = canonicalize JSON_stringify_number (Object props').
Proof.
  intros ND P. unfold canonicalize. cbn [stringifyCanonical].
  rewrite (canonical_keys_permutation props props' ND P).
  do 4 f_equal. apply map_ext. intros k.
  rewrite !get_map, (get_permutation k props props' ND P). reflexivity.
Qed.

End WithNumbers.

Lemma canonicalize_order_independent_witness :
  canonicalize (fun n : Z => Js.lit (Codec.decimal n))
    (Object [ (Js.lit "b", Number 2); (Js.lit "a", Number 1) ])
  = canonicalize (fun n : Z => Js.lit (Codec.decimal n))
      (Object [ (Js.lit "a", Number 1); (Js.lit "b", Number 2) ]).
Proof.
  apply canonicalize_order_independent.
  - repeat constructor; cbn; intuition discriminate.
  - apply perm_swap.
Defined.

End CanonicalOrderFacts.
(** ** [codec.ts]: the validator account, and accounts that are too short *)
Module CodecBoundsFacts.
Import Buf Crypto Spec Codec BufFacts CodecFacts.

Lemma read_bytes_short (data : bytes) (o w : nat) :
  (0 < w)%nat ->
  (read_bytes data o w = None <-> (List.length data < o + w)%nat).
Proof.
  intros Hw. unfold read_bytes, subarray.
  rewrite length_firstn, length_skipn.
  destruct (Nat.eqb_spec (Nat.min w (List.length data - o)) w) as [E|E];
    split; intros H; try discriminate H; try reflexivity; lia.
Qed.

Lemma read_some (data : bytes) (o w : nat) :
  (o + w <= List.length data)%nat ->
  exists bs, read_bytes data o w = Some bs /\ List.length bs = w.
Proof.
  intros H. rewrite read_bytes_inside by exact H. eexists. split; [reflexivity|].
  rewrite length_firstn, length_skipn. lia.
Qed.

Ltac read_field_of :=
  repeat (first [ rewrite subarray_skip
                    by (rewrite ?length_le_bytes; cbn [List.length]; lia)
                | rewrite read_bytes_skip
                    by (rewrite ?length_le_bytes; cbn [List.length]; lia) ]);
  first [ apply subarray_here | apply read_bytes_here ];
  rewrite ?length_le_bytes; cbn [List.length]; lia.

(** [Number] is exact on the integers up to 2^53 in absolute value, and
    rounds beyond: 2^53 + 1 becomes 2^53. *)
Lemma Number_of_bigint_exact (n : Z) :
  Z.abs n <= 2 ^ 53 -> Number_of_bigint n = n.
Proof.
  intros H. unfold Number_of_bigint.
  destruct (Z.ltb_spec (Z.abs n) (2 ^ 53)) as [L|L]; [reflexivity|].
  assert (E : Z.abs n = 2 ^ 53) by lia.
  destruct (Z.abs_spec n) as [[_ A]|[_ A]]; rewrite A in E.
  - subst n. reflexivity.
  - assert (n = - 2 ^ 53) as -> by lia. reflexivity.
Qed.

Lemma Number_of_bigint_rounds :
  Number_of_bigint (2 ^ 53 + 1) = 2 ^ 53
  /\ Number_of_bigint (2 ^ 53 + 3) = 2 ^ 53 + 4
  /\ Number_of_bigint (- 2 ^ 63) = - 2 ^ 63
  /\ Number_of_bigint (2 ^ 63 - 1) = 2 ^ 63.
Proof. repeat split; reflexivity. Qed.

(** X10.  A validator account laid out as discriminator (8 bytes),
    validator key (32), escrow key (32), [lock_ts] (i64 little-endian),
    status byte, [num_accepts] (u64 little-endian) and any tail decodes
    to the base-58 renderings of the two keys, the number [Number]
    makes of [lock_ts], the status of the byte, and [num_accepts] in
    decimal.  The number is [lock_ts] itself when [lock_ts] is at most
    2^53 in absolute value. *)
Theorem decodeValidatorRecord_layout (disc validator escrow_key tail : bytes)
    (lock num : Z) (st : byte) :
  List.length disc = 8%nat ->
  List.length validator = 32%nat ->
  List.length escrow_key = 32%nat ->
  is_i64 lock -> is_u64 num ->
  decodeValidatorRecord
    (disc ++ validator ++ escrow_key ++ le_bytes 8 lock ++ [st] ++ le_bytes 8 num ++ tail)
  = Some {| pubkey := bs58_encode validator;
            escrow := bs58_encode escrow_key;
            lock_ts := Number_of_bigint lock;
            status := if Z_of_byte st =? 0 then Active else Unlocked;
            num_accepts := decimal num |}
  /\ (Z.abs lock <= 2 ^ 53 -> Number_of_bigint lock = lock).
Proof.
  intros Hd Hv He Hl Hn. split; [|apply Number_of_bigint_exact].
  set (data := disc ++ _).
  assert (E1 : subarray data 8 32 = validator) by (subst data; read_field_of).
  assert (E2 : subarray data 40 32 = escrow_key) by (subst data; read_field_of).
  assert (E3 : read_bytes data 72 8 = Some (le_bytes 8 lock))
    by (subst data; read_field_of).
  assert (E4 : read_bytes data 80 1 = Some [st]) by (subst data; read_field_of).
  assert (E5 : read_bytes data 81 8 = Some (le_bytes 8 num))
    by (subst data; read_field_of).
  unfold decodeValidatorRecord, readBigUInt64LE, readUInt8, readBigInt64LE.
  cbv zeta. cbn [Nat.add].
  rewrite E1, E2, E3, E4, E5. cbn [option_map]. rewrite !le_value_le_bytes.
  change (256 ^ Z.of_nat 8) with (2 ^ 64).
  rewrite (to_int64_mod _ Hl). unfold is_u64 in Hn.
  rewrite Z.mod_small by assumption.
  cbn [le_value]. rewrite Z.mul_0_r, Z.add_0_r. reflexivity.
Qed.

Lemma decodeValidatorRecord_layout_witness :
  decodeValidatorRecord
    (repeat x00 8 ++ repeat x00 32 ++ repeat x00 32 ++ le_bytes 8 (-1) ++ [x02]
       ++ le_bytes 8 7 ++ repeat x00 47)
  = Some {| pubkey := "11111111111111111111111111111111";
            escrow := "11111111111111111111111111111111";
            lock_ts := -1;
            status := Unlocked;
            num_accepts := "7" |}
  /\ decodeValidatorRecord
       (repeat x00 8 ++ repeat x00 32 ++ repeat x00 32 ++ le_bytes 8 (2 ^ 53 + 1)
          ++ [x00] ++ le_bytes 8 7 ++ repeat x00 47)
     = Some {| pubkey := "11111111111111111111111111111111";
               escrow := "11111111111111111111111111111111";
               lock_ts := 2 ^ 53;
               status := Active;
               num_accepts := "7" |}.
Proof.
  split.
  - rewrite (proj1 (decodeValidatorRecord_layout (repeat x00 8) (repeat x00 32)
                      (repeat x00 32) (repeat x00 47) (-1) 7 x02
                      eq_refl eq_refl eq_refl
                      ltac:(unfold is_i64; lia) ltac:(unfold is_u64; lia))).
    reflexivity.
  - rewrite (proj1 (decodeValidatorRecord_layout (repeat x00 8) (repeat x00 32)
                      (repeat x00 32) (repeat x00 47) (2 ^ 53 + 1) 7 x00
                      eq_refl eq_refl eq_refl
                      ltac:(unfold is_i64; lia) ltac:(unfold is_u64; lia))).
    reflexivity.
Defined.

(** X11.  [decodeValidatorRecord] throws exactly on buffers shorter
    than 89 bytes and [decodeProofRecord] exactly on buffers shorter
    than 220 bytes.  Nothing checks that the last field of a proof
    account is complete: a buffer of 220 to 251 bytes decodes, with a
    [ds_hash] of the bytes that are there. *)
Theorem decode_too_short (data : bytes) :
  (decodeValidatorRecord data = None <-> (List.length data < 89)%nat)
  /\ (decodeProofRecord data = None <-> (List.length data < 220)%nat)
  /\ forall r,
       decodeProofRecord data = Some r ->
       List.length (ds_hash r) = Nat.min 32 (List.length data - 220)
       /\ List.length (proof_hash r) = 32%nat.
Proof.
  split; [|split].
  - destruct (Nat.lt_ge_cases (List.length data) 89) as [S|S].
    + split; [intros _; exact S|]. intros _.
      unfold decodeValidatorRecord, readBigInt64LE, readUInt8, readBigUInt64LE.
      cbv zeta. cbn [Nat.add].
      destruct (read_bytes data 72 8) as [a|]; [|reflexivity]. cbn [option_map].
      destruct (read_bytes data 80 1) as [b|]; [|reflexivity]. cbn [option_map].
      assert (N : read_bytes data 81 8 = None) by (apply read_bytes_short; lia).
      rewrite N. reflexivity.
    + unfold decodeValidatorRecord, readBigInt64LE, readUInt8, readBigUInt64LE.
      cbv zeta. cbn [Nat.add].
      destruct (read_some data 72 8) as (a & -> & _); [lia|].
      destruct (read_some data 80 1) as (b & -> & _); [lia|].
      destruct (read_some data 81 8) as (c & -> & _); [lia|].
      cbn [option_map]. split; [discriminate | lia].
  - unfold decodeProofRecord, readBigUInt64LE, readUInt32LE, readBigInt64LE.
    cbv zeta. cbn [Nat.add].
    destruct (Nat.lt_ge_cases (List.length data) 220) as [S|S].
    + split; [intros _; exact S|]. intros _.
      destruct (read_bytes data 24 8) as [a|]; [|reflexivity]. cbn [option_map].
      destruct (read_bytes data 32 8) as [b|]; [|reflexivity]. cbn [option_map].
      destruct (read_bytes data 72 4) as [c|]; [|reflexivity]. cbn [option_map].
      destruct (read_bytes data 204 8) as [d|]; [|reflexivity]. cbn [option_map].
      assert (N : read_bytes data 212 8 = None) by (apply read_bytes_short; lia).
      rewrite N. reflexivity.
    + destruct (read_some data 24 8) as (a & -> & _); [lia|].
      destruct (read_some data 32 8) as (b & -> & _); [lia|].
      destruct (read_some data 72 4) as (c & -> & _); [lia|].
      destruct (read_some data 204 8) as (d & -> & _); [lia|].
      destruct (read_some data 212 8) as (e & -> & _); [lia|].
      cbn [option_map]. split; [discriminate | lia].
  - intros r H.
    assert (L : (220 <= List.length data)%nat).
    { destruct (Nat.lt_ge_cases (List.length data) 220) as [S|S]; [|exact S].
      exfalso. revert H.
      unfold decodeProofRecord, readBigUInt64LE, readUInt32LE, readBigInt64LE.
      cbv zeta. cbn [Nat.add].
      destruct (read_bytes data 24 8) as [a|]; [|discriminate]. cbn [option_map].
      destruct (read_bytes data 32 8) as [b|]; [|discriminate]. cbn [option_map].
      destruct (read_bytes data 72 4) as [c|]; [|discriminate]. cbn [option_map].
      destruct (read_bytes data 204 8) as [d|]; [|discriminate]. cbn [option_map].
      assert (N : read_bytes data 212 8 = None) by (apply read_bytes_short; lia).
      rewrite N. discriminate. }
    revert H.
    unfold decodeProofRecord, readBigUInt64LE, readUInt32LE, readBigInt64LE.
    cbv zeta. cbn [Nat.add].
    destruct (read_some data 24 8) as (a & -> & _); [lia|].
    destruct (read_some data 32 8) as (b & -> & _); [lia|].
    destruct (read_some data 72 4) as (c & -> & _); [lia|].
    destruct (read_some data 204 8) as (d & -> & _); [lia|].
    destruct (read_some data 212 8) as (e & -> & _); [lia|].
    cbn [option_map]. intros [= <-]. cbn [ds_hash proof_hash].
    unfold subarray. rewrite !length_firstn, !length_skipn. lia.
Qed.

End CodecBoundsFacts.

(** ** [onchain.ts]: the configuration and the last sequence number *)
Module OnchainFacts.
Import Buf Crypto Spec BufFacts CodecFacts Anchor Onchain.

(** X12.  From a configuration account laid out as discriminator (8
    bytes), mint (32), admin (32), the current and the next aggregator
    key (32 each), the activation sequence number and the chain id (u64
    little-endian each) and any tail, [fetchConfig] returns the two
    keys and the two numbers. *)
Theorem fetchConfig_layout (disc tail : bytes) (c : ConfigAccount) :
  List.length disc = 8%nat ->
  List.length (ca_zksl_mint c) = 32%nat ->
  List.length (ca_admin c) = 32%nat ->
  List.length (ca_aggregator_pubkey c) = 32%nat ->
  List.length (ca_next_aggregator_pubkey c) = 32%nat ->
  is_u64 (ca_activation_seq c) -> is_u64 (ca_chain_id c) ->
  fetchConfig (Account (disc ++ config_body c ++ tail))
  = Some {| aggregator_pubkey := ca_aggregator_pubkey c;
            next_aggregator_pubkey := ca_next_aggregator_pubkey c;
            activation_seq := ca_activation_seq c;
            chain_id := ca_chain_id c |}.
Proof.
  intros Hd Hm Ha Hk Hn Hs Hc.
  unfold config_body. rewrite <- !app_assoc.
  set (data := disc ++ _).
  assert (E1 : subarray data 72 32 = ca_aggregator_pubkey c) by (subst data; read_field).
  assert (E2 : subarray data 104 32 = ca_next_aggregator_pubkey c)
    by (subst data; read_field).
  assert (E3 : read_bytes data 136 8 = Some (le_bytes 8 (ca_activation_seq c)))
    by (subst data; read_field).
  assert (E4 : read_bytes data 144 8 = Some (le_bytes 8 (ca_chain_id c)))
    by (subst data; read_field).
  unfold fetchConfig, readBigUInt64LE. cbv zeta. cbn [Nat.add].
  rewrite E1, E2, E3, E4. cbn [option_map]. rewrite !le_value_le_bytes.
  change (256 ^ Z.of_nat 8) with (2 ^ 64). unfold is_u64 in Hs, Hc.
  rewrite !Z.mod_small by assumption. reflexivity.
Qed.

Lemma fetchConfig_layout_witness :
  option_map (fun cfg => (activation_seq cfg, chain_id cfg))
    (fetchConfig
       (Account
          (repeat x00 8
             ++ config_body
                  {| ca_zksl_mint := repeat x01 32; ca_admin := repeat x02 32;
                     ca_aggregator_pubkey := repeat x03 32;
                     ca_next_aggregator_pubkey := repeat x04 32;
                     ca_activation_seq := 5; ca_chain_id := 103 |}
             ++ [])))
  = Some (5, 103).
Proof.
  rewrite (fetchConfig_layout (repeat x00 8) []
             {| ca_zksl_mint := repeat x01 32; ca_admin := repeat x02 32;
                ca_aggregator_pubkey := repeat x03 32;
                ca_next_aggregator_pubkey := repeat x04 32;
                ca_activation_seq := 5; ca_chain_id := 103 |});
    try reflexivity; unfold is_u64; cbn; lia.
Defined.

(** X13.  [fetchConfig] throws when the program id or the endpoint is
    refused ([new web3.PublicKey], [new web3.Connection]), when the
    derivation of the address or the call fails, when there is no
    account, and when the account holds fewer than 152 bytes, and only
    then; a configuration it returns has two keys of 32 bytes and two
    numbers below 2^64.  [fetchLastSeq] returns 0 when there is no
    account, and throws when the program id or the endpoint is
    refused, when the derivation or the call fails, and when the
    account holds fewer than 48 bytes, and only then.  A program id
    that [new web3.PublicKey] refuses makes both throw whatever the
    ledger holds. *)
Theorem onchain_reads (acc : AccountInfo) :
  (fetchConfig acc = None
   <-> match acc with
       | Account data => (List.length data < 152)%nat
       | _ => True
       end)
  /\ (forall cfg,
        fetchConfig acc = Some cfg ->
        List.length (aggregator_pubkey cfg) = 32%nat
        /\ List.length (next_aggregator_pubkey cfg) = 32%nat
        /\ is_u64 (activation_seq cfg) /\ is_u64 (chain_id cfg))
  /\ (fetchLastSeq acc = None
      <-> match acc with
          | NoAccount => False
          | Account data => (List.length data < 48)%nat
          | _ => True
          end)
  /\ (acc = NoAccount -> fetchLastSeq acc = Some 0)
  /\ (forall n, fetchLastSeq acc = Some n -> is_u64 n)
  /\ forall (web3 : Web3) (seed programIdStr rpcUrl : string),
       let reached := account_info web3 seed programIdStr rpcUrl in
       (PublicKey web3 programIdStr = None ->
        fetchConfig reached = None /\ fetchLastSeq reached = None)
       /\ (Connection web3 rpcUrl = false ->
           fetchConfig reached = None /\ fetchLastSeq reached = None)
       /\ forall data,
            reached = Account data
            <-> exists programId pda,
                  PublicKey web3 programIdStr = Some programId
                  /\ Connection web3 rpcUrl = true
                  /\ findProgramAddressSync web3
                       [from_ascii "zksl"; from_ascii seed] programId = Some pda
                  /\ getAccountInfo web3 rpcUrl pda = Some (Some data).
Proof.
  assert (U : forall bs, List.length bs = 8%nat -> is_u64 (le_value bs)).
  { intros bs L. pose proof (le_value_range bs) as R. rewrite L in R. exact R. }
  assert (W : forall (web3 : Web3) (seed programIdStr rpcUrl : string),
             let reached := account_info web3 seed programIdStr rpcUrl in
             (PublicKey web3 programIdStr = None ->
              fetchConfig reached = None /\ fetchLastSeq reached = None)
             /\ (Connection web3 rpcUrl = false ->
                 fetchConfig reached = None /\ fetchLastSeq reached = None)
             /\ forall data,
                  reached = Account data
                  <-> exists programId pda,
                        PublicKey web3 programIdStr = Some programId
                        /\ Connection web3 rpcUrl = true
                        /\ findProgramAddressSync web3
                             [from_ascii "zksl"; from_ascii seed] programId = Some pda
                        /\ getAccountInfo web3 rpcUrl pda = Some (Some data)).
  { intros web3 seed programIdStr rpcUrl. cbv zeta. unfold account_info.
    destruct (PublicKey web3 programIdStr) as [programId|].
    - destruct (Connection web3 rpcUrl); cbn [negb].
      + split; [discriminate|]. split; [discriminate|]. intros data.
        destruct (findProgramAddressSync web3 _ programId) as [pda|] eqn:F.
        * destruct (getAccountInfo web3 rpcUrl pda) as [[d|]|] eqn:G.
          -- split.
             ++ intros [= ->]. exists programId, pda. auto.
             ++ intros (p' & a' & [= <-] & _ & F' & G').
                assert (a' = pda) by congruence. subst a'. congruence.
          -- split; [discriminate|].
             intros (p' & a' & [= <-] & _ & F' & G').
             assert (a' = pda) by congruence. subst a'. congruence.
          -- split; [discriminate|].
             intros (p' & a' & [= <-] & _ & F' & G').
             assert (a' = pda) by congruence. subst a'. congruence.
        * split; [discriminate|]. intros (p' & a' & [= <-] & _ & F' & _).
          congruence.
      + split; [discriminate|]. split; [intros _; split; reflexivity|].
        intros data. split; [discriminate|].
        intros (p' & a' & _ & F & _). discriminate F.
    - split; [intros _; split; reflexivity|]. split.
      + intros _. split; reflexivity.
      + intros data. split; [discriminate|].
        intros (p' & a' & F & _). discriminate F. }
  destruct acc as [| | | |data]; cbn [fetchConfig fetchLastSeq].
  - split; [tauto|]. split; [discriminate|]. split; [tauto|].
    split; [discriminate|]. split; [discriminate | exact W].
  - split; [tauto|]. split; [discriminate|]. split; [tauto|].
    split; [discriminate|]. split; [discriminate | exact W].
  - split; [tauto|]. split; [discriminate|]. split; [tauto|].
    split; [discriminate|]. split; [discriminate | exact W].
  - split; [tauto|]. split; [discriminate|]. split; [split; [discriminate|tauto]|].
    split; [reflexivity|]. split; [|exact W]. intros n [= <-]. unfold is_u64. lia.
  - unfold readBigUInt64LE. cbv zeta. cbn [Nat.add].
    destruct (Nat.lt_ge_cases (List.length data) 152) as [S|S].
    + assert (N : read_bytes data 144 8 = None)
        by (apply CodecBoundsFacts.read_bytes_short; lia).
      rewrite N.
      assert (F : match option_map le_value (read_bytes data 136 8) with
                  | Some _ => @None Config
                  | None => None
                  end = None)
        by (destruct (option_map le_value (read_bytes data 136 8)); reflexivity).
      cbn [option_map]. rewrite F.
      split; [tauto|]. split; [discriminate|].
      split; [|split; [discriminate|split; [|exact W]]].
      * rewrite <- (CodecBoundsFacts.read_bytes_short data 40 8) by lia.
        destruct (read_bytes data 40 8); cbn [option_map]; split; congruence.
      * destruct (read_bytes data 40 8) as [bs|] eqn:R; cbn [option_map];
          [|discriminate].
        intros n [= <-]. apply U.
        unfold read_bytes in R.
        destruct (Nat.eqb_spec (List.length (subarray data 40 8)) 8); congruence.
    + destruct (CodecBoundsFacts.read_some data 136 8) as (a & -> & La); [lia|].
      destruct (CodecBoundsFacts.read_some data 144 8) as (b & -> & Lb); [lia|].
      destruct (CodecBoundsFacts.read_some data 40 8) as (c & -> & Lc); [lia|].
      cbn [option_map]. split; [split; [discriminate | lia]|].
      split.
      { intros cfg [= <-].
        cbn [aggregator_pubkey next_aggregator_pubkey activation_seq chain_id].
        unfold subarray. rewrite !length_firstn, !length_skipn.
        repeat split; try lia; apply U; assumption. }
      split; [split; [discriminate | lia]|].
      split; [discriminate|]. split; [|exact W]. intros n [= <-]. now apply U.
Qed.

End OnchainFacts.
(** ** [String.prototype.trim] and the header keys *)
Module TrimFacts.
Import Idempotency Notions.

Lemma trim_start_spec (s : Js.str) :
  exists ws,
    s = ws ++ trim_start s /\ blank ws
    /\ forall c r, trim_start s = c :: r -> is_space c = false.
Proof.
  induction s as [|c s (ws & E & B & H)]; cbn [trim_start].
  - exists []. repeat split; [constructor | discriminate].
  - destruct (is_space c) eqn:S.
    + exists (c :: ws). split; [cbn; now rewrite <- E|]. split; [now constructor|exact H].
    + exists []. split; [reflexivity|]. split; [constructor|].
      intros c' r [= <- _]. exact S.
Qed.

Lemma trim_start_fixed (s : Js.str) :
  (forall c r, s = c :: r -> is_space c = false) -> trim_start s = s.
Proof.
  destruct s as [|c s]; [reflexivity|]. intros H. cbn [trim_start].
  now rewrite (H c s eq_refl).
Qed.

Lemma blank_rev (s : Js.str) : blank s -> blank (rev s).
Proof. unfold blank. apply Forall_rev. Qed.

Lemma trim_spec (s : Js.str) :
  exists before after,
    s = before ++ trim s ++ after /\ blank before /\ blank after /\ tight (trim s).
Proof.
  unfold trim.
  destruct (trim_start_spec s) as (ws & E & B & H).
  destruct (trim_start_spec (rev (trim_start s))) as (ws' & E' & B' & H').
  set (u := trim_start (rev (trim_start s))) in *.
  assert (Et : trim_start s = rev u ++ rev ws').
  { rewrite <- (rev_involutive (trim_start s)), E', rev_app_distr. reflexivity. }
  exists ws, (rev ws'). split; [now rewrite <- Et|].
  split; [exact B|]. split; [now apply blank_rev|]. split.
  - intros c r Er. destruct (rev u) as [|c' r'] eqn:Ru; [discriminate Er|].
    injection Er as -> ->. apply (H c (r ++ rev ws')). now rewrite Et.
  - intros r c Er. apply (H' c (rev r)).
    rewrite <- (rev_involutive u), Er, rev_app_distr. reflexivity.
Qed.

Lemma trim_tight (s : Js.str) : tight s -> trim s = s.
Proof.
  intros [Hh Hl]. unfold trim. rewrite (trim_start_fixed s Hh).
  rewrite trim_start_fixed; [apply rev_involutive|].
  intros c r E. apply (Hl (rev r) c).
  rewrite <- (rev_involutive s), E. reflexivity.
Qed.

Lemma trim_idempotent (s : Js.str) : trim (trim s) = trim s.
Proof. destruct (trim_spec s) as (_ & _ & _ & _ & _ & T). now apply trim_tight. Qed.

Lemma trim_blank (s : Js.str) : trim s = [] <-> blank s.
Proof.
  destruct (trim_spec s) as (before & after & E & B & A & [Hh _]). split.
  - intros Z. rewrite Z in E. cbn in E. subst s. now apply Forall_app.
  - intros Bs. destruct (trim s) as [|c r] eqn:T; [reflexivity|].
    exfalso. pose proof (Hh c r eq_refl) as N.
    rewrite E in Bs. unfold blank in Bs. rewrite !Forall_app in Bs.
    destruct Bs as (_ & Bt & _). inversion Bt; subst. congruence.
Qed.

End TrimFacts.

(** ** [server.ts]: the idempotency key and the size of the cache *)
Module CacheFacts.
Import Idempotency Notions TrimFacts IdempotencyFacts.

(** X14.  [getIdemKey] returns no key exactly when the header is
    missing or consists of white space only (the first value counts when
    the header is repeated).  A key it returns is the header value
    without the white space around it: it is not empty and it neither
    starts nor ends with white space. *)
Theorem getIdemKey_trimmed {body : Type} (req : Request body) :
  (getIdemKey req = None
   <-> match Server.first_value (idempotency_key req) with
       | None => True
       | Some v => blank v
       end)
  /\ forall k,
       getIdemKey req = Some k ->
       k <> [] /\ tight k /\ trim k = k
       /\ exists v before after,
            Server.first_value (idempotency_key req) = Some v
            /\ v = before ++ k ++ after /\ blank before /\ blank after.
Proof.
  unfold getIdemKey, Server.first_value.
  set (h := match idempotency_key req with
            | Absent => None
            | Single v => Some v
            | Repeated vs => match vs with v :: _ => Some v | [] => None end
            end).
  destruct h as [[|c v]|].
  - split; [split; [intros _; constructor | reflexivity] | discriminate].
  - destruct (trim_spec (c :: v)) as (before & after & E & B & A & T).
    pose proof (trim_blank (c :: v)) as Z.
    destruct (trim (c :: v)) as [|c' k'] eqn:Tk; cbn [List.length Nat.ltb Nat.leb].
    + split; [split; [intros _; now apply Z | reflexivity] | discriminate].
    + split.
      * split; [discriminate|]. intros Bv. apply Z in Bv. discriminate Bv.
      * intros k [= <-]. split; [discriminate|]. split; [exact T|].
        split; [rewrite <- Tk; apply trim_idempotent|].
        exists (c :: v), before, after. repeat split; assumption.
  - split; [split; [tauto | reflexivity] | discriminate].
Qed.

Lemma getIdemKey_nonempty {body : Type} (req : Request body) (k : Js.str) :
  getIdemKey req = Some k -> k <> [].
Proof.
  unfold getIdemKey.
  destruct (match idempotency_key req with
            | Absent => None
            | Single v => Some v
            | Repeated vs => match vs with v :: _ => Some v | [] => None end
            end) as [[|c v]|]; try discriminate.
  destruct (trim (c :: v)) as [|c' k']; cbn [List.length Nat.ltb Nat.leb];
    [discriminate|].
  intros [= <-]. discriminate.
Qed.

Section Bound.
Context {body : Type} (missing_key_body : body) (IDEMP_MAX_ENTRIES : Z).

Lemma recording_key (st : State body) (req : Request body) (now : Z) (key : Js.str) :
  enforceIdempotency body missing_key_body st req now = NextRecording key ->
  key <> [].
Proof.
  unfold enforceIdempotency. destruct (negb _); [discriminate|].
  destruct (getIdemKey req) as [k|] eqn:G; [|discriminate].
  intros H.
  assert (key = k).
  { destruct (JsMap.get k (idempotencyCache st)) as [e|].
    - destruct (now - ts e <? IDEMP_TTL_MS); [discriminate H | congruence].
    - congruence. }
  subst k. now apply getIdemKey_nonempty in G.
Qed.

Lemma set_entries {V} (P : Js.str * V -> Prop) (k : Js.str) (v : V) (m : JsMap.t V) :
  Forall P m -> P (k, v) -> (forall v', In (k, v') m -> P (k, v)) ->
  Forall P (JsMap.set k v m).
Proof.
  intros F Pk _. induction m as [|[k' v'] m IH]; cbn [JsMap.set].
  - repeat constructor. exact Pk.
  - inversion F; subst. destruct (Js.eqb k k') eqn:E.
    + apply js_eqb_eq in E. subst k'. constructor; assumption.
    + constructor; [assumption | now apply IH].
Qed.

Lemma set_length {V} (k : Js.str) (v : V) (m : JsMap.t V) :
  (List.length (JsMap.set k v m) <= S (List.length m))%nat.
Proof.
  induction m as [|[k' v'] m IH]; cbn [JsMap.set List.length]; [lia|].
  destruct (Js.eqb k k'); cbn [List.length]; lia.
Qed.

Lemma filter_length_le {A} (p : A -> bool) (l : list A) :
  (List.length (filter p l) <= List.length l)%nat.
Proof.
  induction l as [|a l IH]; cbn [filter List.length]; [lia|].
  destruct (p a); cbn [List.length]; lia.
Qed.

Lemma filter_Forall {A} (P : A -> Prop) (p : A -> bool) (l : list A) :
  Forall P l -> Forall P (filter p l).
Proof.
  intros F. apply Forall_forall. intros x Hx. apply filter_In in Hx.
  rewrite Forall_forall in F. now apply F.
Qed.

Lemma delete_absent {V} (k : Js.str) (m : JsMap.t V) :
  ~ In k (map fst m) -> JsMap.delete k m = m.
Proof.
  unfold JsMap.delete. induction m as [|[k' v'] m IH]; intros N; cbn [filter fst];
    [reflexivity|].
  destruct (Js.eqb k k') eqn:E.
  - apply js_eqb_eq in E. subst k'. exfalso. apply N. now left.
  - cbn [negb]. f_equal. apply IH. intros H. apply N. now right.
Qed.

Lemma delete_length {V} (k : Js.str) (m : JsMap.t V) :
  NoDup (map fst m) -> In k (map fst m) ->
  S (List.length (JsMap.delete k m)) = List.length m.
Proof.
  induction m as [|[k' v'] m IH]; intros ND Hin; [contradiction|].
  inversion ND as [|? ? Hk ND']; subst.
  unfold JsMap.delete. cbn [filter fst].
  destruct (Js.eqb k k') eqn:E; cbn [negb List.length].
  - apply js_eqb_eq in E. subst k'.
    fold (JsMap.delete k m). now rewrite (delete_absent k m Hk).
  - fold (JsMap.delete k m). f_equal. apply IH; [exact ND'|].
    destruct Hin as [<-|Hin]; [|exact Hin].
    rewrite js_eqb_refl in E. discriminate E.
Qed.

(** The scan finds an entry as soon as one has a time stamp below the
    starting bound. *)
Lemma oldest_found (m : JsMap.t (CachedResponse body)) (acc : option Js.str * Z) :
  let r := fold_left
             (fun acc kv =>
                if ts (snd kv) <? snd acc then (Some (fst kv), ts (snd kv)) else acc)
             m acc in
  (fst r = fst acc \/ exists k, fst r = Some k /\ In k (map fst m))
  /\ (fst acc <> None -> fst r <> None)
  /\ (forall kv, In kv m -> ts (snd kv) < snd acc -> fst r <> None).
Proof.
  revert acc; induction m as [|kv m IH]; intros acc; cbn [fold_left map In].
  - repeat split; [now left | tauto | contradiction].
  - destruct (Z.ltb_spec (ts (snd kv)) (snd acc)) as [L|L].
    + destruct (IH (Some (fst kv), ts (snd kv))) as (A & B & C).
      cbn [fst snd] in A, B, C. cbv zeta. repeat split.
      * destruct A as [A|(k & A & Hk)]; [|right; exists k; auto].
        right. exists (fst kv). split; [exact A | now left].
      * intros _. apply B. discriminate.
      * intros kv' _ _. apply B. discriminate.
    + destruct (IH acc) as (A & B & C). cbv zeta. repeat split.
      * destruct A as [A|(k & A & Hk)]; [now left | right; exists k; auto].
      * exact B.
      * intros kv' [<-|Hin] Hlt; [lia | now apply (C kv')].
Qed.

Lemma record_well_kept (st : State body) (key : Js.str) (sc : Z) (b : body)
    (now now' : Z) :
  key <> [] -> now < MAX_SAFE_INTEGER ->
  well_kept IDEMP_MAX_ENTRIES st ->
  well_kept IDEMP_MAX_ENTRIES (record body IDEMP_MAX_ENTRIES key sc b now now' st).
Proof.
  intros Hk Hnow (ND & F & Sz). unfold Idempotency.record, well_kept.
  cbn [idempotencyCache].
  set (e := {| status := if sc =? 0 then 200 else sc; cached_body := b; ts := now |}).
  set (c1 := JsMap.set key e (idempotencyCache st)).
  assert (ND1 : NoDup (map fst c1)) by now apply set_NoDup.
  assert (F1 : Forall (fun kv => fst kv <> [] /\ ts (snd kv) < MAX_SAFE_INTEGER) c1)
    by (apply set_entries; [exact F | split; assumption | intros; split; assumption]).
  assert (Sz1 : JsMap.size c1 <= IDEMP_MAX_ENTRIES + 1).
  { assert (SL : (List.length c1 <= S (List.length (idempotencyCache st)))%nat)
      by apply set_length.
    unfold JsMap.size in *. lia. }
  set (c2 := if (idemSetCounter st + 1) mod 100 =? 0
             then filter (fun kv => negb (now' - ts (snd kv) >=? IDEMP_TTL_MS)) c1
             else c1).
  assert (ND2 : NoDup (map fst c2))
    by (subst c2; destruct ((idemSetCounter st + 1) mod 100 =? 0); [now apply filter_keys_NoDup | exact ND1]).
  assert (F2 : Forall (fun kv => fst kv <> [] /\ ts (snd kv) < MAX_SAFE_INTEGER) c2)
    by (subst c2; destruct ((idemSetCounter st + 1) mod 100 =? 0); [now apply filter_Forall | exact F1]).
  assert (Sz2 : JsMap.size c2 <= IDEMP_MAX_ENTRIES + 1).
  { subst c2. destruct ((idemSetCounter st + 1) mod 100 =? 0); [|exact Sz1]. unfold JsMap.size in *.
    pose proof (filter_length_le
                  (fun kv : Js.str * CachedResponse body =>
                     negb (now' - ts (snd kv) >=? IDEMP_TTL_MS)) c1). lia. }
  clearbody c2. clear c1 ND1 F1 Sz1.
  destruct (Z.gtb_spec (JsMap.size c2) IDEMP_MAX_ENTRIES) as [G|G].
  2:{ repeat split; assumption. }
  destruct c2 as [|kv0 c2'] eqn:Ec.
  { unfold JsMap.size in G, Sz. cbn [List.length] in G. lia. }
  rewrite <- Ec in *.
  destruct (oldest_found c2 (None, MAX_SAFE_INTEGER)) as (A & _ & C).
  fold (oldest body c2) in A, C. cbn [fst snd] in A, C.
  assert (Hsome : fst (oldest body c2) <> None).
  { apply (C kv0); [rewrite Ec; now left|].
    rewrite Forall_forall in F2. apply F2. rewrite Ec. now left. }
  destruct A as [A|(k & A & Hin)]; [congruence|].
  rewrite A.
  assert (Kne : k <> []).
  { apply in_map_iff in Hin. destruct Hin as (kv & <- & Hkv).
    rewrite Forall_forall in F2. now apply F2. }
  destruct k as [|ch k]; [congruence|].
  repeat split.
  - unfold JsMap.delete. now apply filter_keys_NoDup.
  - unfold JsMap.delete. now apply filter_Forall.
  - pose proof (delete_length (ch :: k) c2 ND2 Hin) as D.
    unfold JsMap.size in *. lia.
Qed.

Lemma serve_well_kept (st : State body) (x : Exchange body) :
  answered x < MAX_SAFE_INTEGER ->
  well_kept IDEMP_MAX_ENTRIES st ->
  well_kept IDEMP_MAX_ENTRIES
    (snd (serve body missing_key_body IDEMP_MAX_ENTRIES st x)).
Proof.
  intros Ha W. unfold Idempotency.serve.
  destruct (enforceIdempotency body missing_key_body st (request x) (arrival x))
    as [|code b|key] eqn:E; cbn [snd]; try exact W.
  apply record_well_kept; [|exact Ha|exact W].
  now apply recording_key in E.
Qed.

(** X15.  The cache never holds more than [IDEMP_MAX_ENTRIES]
    entries: on a server started with an empty cache, whatever requests
    are served, the number of stored responses stays within the
    capacity, and no two entries share a key. *)
Theorem cache_within_capacity (xs : list (Exchange body)) :
  0 <= IDEMP_MAX_ENTRIES ->
  Forall (fun x => answered x < MAX_SAFE_INTEGER) xs ->
  let st := snd (run body missing_key_body IDEMP_MAX_ENTRIES
                   {| idempotencyCache := []; idemSetCounter := 0 |} xs) in
  JsMap.size (idempotencyCache st) <= IDEMP_MAX_ENTRIES
  /\ NoDup (map fst (idempotencyCache st)).
Proof.
  intros Hcap F. cbv zeta.
  assert (W0 : @well_kept body IDEMP_MAX_ENTRIES
                 {| idempotencyCache := []; idemSetCounter := 0 |}).
  { repeat split; cbn; [constructor | constructor | exact Hcap]. }
  revert W0. generalize {| idempotencyCache := @nil (Js.str * CachedResponse body);
                           idemSetCounter := 0 |}.
  induction F as [|x xs Hx F IH]; intros st W.
  - cbn. destruct W as (ND & _ & S). split; assumption.
  - cbn [run].
    pose proof (serve_well_kept st x Hx W) as W'.
    destruct (serve body missing_key_body IDEMP_MAX_ENTRIES st x) as [r st'].
    cbn [snd] in W'. specialize (IH st' W').
    destruct (run body missing_key_body IDEMP_MAX_ENTRIES st' xs) as [rs st''].
    exact IH.
Qed.

End Bound.

Lemma cache_within_capacity_witness :
  JsMap.size
    (idempotencyCache
       (snd (run string "MissingIdempotencyKey"%string 100
               {| idempotencyCache := []; idemSetCounter := 0 |}
               Examples.eviction_trace)))
  <= 100.
Proof.
  refine (proj1 (cache_within_capacity "MissingIdempotencyKey"%string 100
                   Examples.eviction_trace _ _)).
  - lia.
  - unfold Examples.eviction_trace. repeat constructor.
Defined.

End CacheFacts.
(** ** [server.ts]: the rate limiter *)
Module LimiterFacts.
Import Server Notions IdempotencyFacts.

Lemma get_set_other {V} (k k' : Js.str) (v : V) (m : JsMap.t V) :
  Js.eqb k' k = false -> JsMap.get k' (JsMap.set k v m) = JsMap.get k' m.
Proof.
  intros N. induction m as [|[k0 v0] m IH]; cbn [JsMap.set JsMap.get].
  - now rewrite N.
  - destruct (Js.eqb k k0) eqn:E; cbn [JsMap.get].
    + apply js_eqb_eq in E. subst k0. now rewrite N.
    + destruct (Js.eqb k' k0); [reflexivity | exact IH].
Qed.

Lemma passed_snoc (ip : Js.str) (since : Z) (log : Log) (hp : Hit * bool) :
  passed ip since (log ++ [hp])
  = passed ip since log
    + (if Js.eqb (hit_ip (fst hp)) ip && snd hp && (since <=? hit_time (fst hp))
       then 1 else 0).
Proof.
  unfold passed. rewrite filter_app, length_app. cbn [filter].
  destruct (Js.eqb (hit_ip (fst hp)) ip && snd hp && (since <=? hit_time (fst hp)));
    cbn [List.length]; lia.
Qed.

Lemma passed_nonneg (ip : Js.str) (since : Z) (log : Log) : 0 <= passed ip since log.
Proof. unfold passed. lia. Qed.

Lemma passed_none (ip : Js.str) (since : Z) (log : Log) :
  (forall hp, In hp log -> hit_ip (fst hp) = ip -> snd hp = true ->
              hit_time (fst hp) < since) ->
  passed ip since log = 0.
Proof.
  intros H. unfold passed.
  rewrite (proj2 (List.length_zero_iff_nil _)); [reflexivity|].
  destruct (filter _ log) as [|hp l] eqn:F; [reflexivity|].
  exfalso. assert (Hin : In hp (filter
      (fun hp => Js.eqb (hit_ip (fst hp)) ip && snd hp && (since <=? hit_time (fst hp)))
      log)) by (rewrite F; now left).
  apply filter_In in Hin. destruct Hin as [Hin T].
  apply andb_true_iff in T. destruct T as [T T3].
  apply andb_true_iff in T. destruct T as [T1 T2].
  apply js_eqb_eq in T1. apply Z.leb_le in T3.
  specialize (H hp Hin T1 T2). lia.
Qed.

Lemma passed_some (ip : Js.str) (since : Z) (log : Log) (hp : Hit * bool) :
  In hp log -> hit_ip (fst hp) = ip -> snd hp = true -> since <= hit_time (fst hp) ->
  0 < passed ip since log.
Proof.
  intros Hin Hip Hp Ht. unfold passed.
  assert (In hp (filter
      (fun hp => Js.eqb (hit_ip (fst hp)) ip && snd hp && (since <=? hit_time (fst hp)))
      log)).
  { apply filter_In. split; [exact Hin|].
    rewrite Hip, js_eqb_refl, Hp. cbn [andb]. now apply Z.leb_le. }
  destruct (filter _ log); [contradiction | cbn [List.length]; lia].
Qed.

Section Limiter.
Variables RATELIMIT_MAX RATELIMIT_WINDOW_MS : Z.
Hypothesis window_nonneg : 0 <= RATELIMIT_WINDOW_MS.

Lemma rateLimit_accounted (now : Z) (log : Log) (rl : JsMap.t Window) (h : Hit) :
  now <= hit_time h ->
  accounted RATELIMIT_MAX RATELIMIT_WINDOW_MS now log rl ->
  let r := rateLimit RATELIMIT_MAX RATELIMIT_WINDOW_MS rl (hit_ip h) (hit_time h) in
  accounted RATELIMIT_MAX RATELIMIT_WINDOW_MS (hit_time h) (log ++ [(h, fst r)]) (snd r).
Proof.
  intros Hnow [A B]. cbv zeta. unfold rateLimit.
  assert (Other : forall (p : bool) ip' w,
             Js.eqb ip' (hit_ip h) = false ->
             JsMap.get ip' rl = Some w ->
             1 <= count w <= Z.max 1 RATELIMIT_MAX
             /\ passed ip' (window_ts w) (log ++ [(h, p)]) = count w
             /\ window_ts w <= hit_time h
             /\ forall hp, In hp (log ++ [(h, p)]) -> hit_ip (fst hp) = ip' ->
                           snd hp = true ->
                           hit_time (fst hp) <= window_ts w + RATELIMIT_WINDOW_MS).
  { intros p ip' w N G. destruct (B ip' w G) as (C & P & T & L).
    split; [exact C|]. split; [|split; [lia|]].
    - rewrite passed_snoc. cbn [fst snd].
      assert (Js.eqb (hit_ip h) ip' = false).
      { destruct (Js.eqb (hit_ip h) ip') eqn:E; [|reflexivity].
        apply js_eqb_eq in E. rewrite <- E, js_eqb_refl in N. discriminate N. }
      rewrite H. cbn [andb]. lia.
    - intros hp Hin Hip Hp. apply in_app_or in Hin.
      destruct Hin as [Hin|[<-|[]]]; [now apply L|].
      cbn [fst] in Hip. rewrite Hip, js_eqb_refl in N. discriminate N. }
  assert (OtherNone : forall (p : bool) ip',
             Js.eqb ip' (hit_ip h) = false ->
             JsMap.get ip' rl = None ->
             forall hp, In hp (log ++ [(h, p)]) -> hit_ip (fst hp) <> ip').
  { intros p ip' N G hp Hin. apply in_app_or in Hin.
    destruct Hin as [Hin|[<-|[]]]; [now apply (A ip' G)|].
    cbn [fst]. intros E. rewrite E, js_eqb_refl in N. discriminate N. }
  assert (Fresh : forall log',
             (forall hp, In hp log' -> hit_ip (fst hp) = hit_ip h -> snd hp = true ->
                         hit_time (fst hp) < hit_time h) ->
             forall w,
               Some {| count := 1; window_ts := hit_time h |} = Some w ->
               1 <= count w <= Z.max 1 RATELIMIT_MAX
               /\ passed (hit_ip h) (window_ts w) (log' ++ [(h, true)]) = count w
               /\ window_ts w <= hit_time h
               /\ forall hp, In hp (log' ++ [(h, true)]) ->
                             hit_ip (fst hp) = hit_ip h -> snd hp = true ->
                             hit_time (fst hp) <= window_ts w + RATELIMIT_WINDOW_MS).
  { intros log' Hold w [= <-]. cbn [count window_ts].
    split; [lia|]. split; [|split; [lia|]].
    - rewrite passed_snoc, (passed_none _ _ _ Hold). cbn [fst snd].
      rewrite js_eqb_refl, Z.leb_refl. reflexivity.
    - intros hp Hin Hip Hp. apply in_app_or in Hin.
      destruct Hin as [Hin|[<-|[]]]; [|cbn [fst]; lia].
      specialize (Hold hp Hin Hip Hp). lia. }
  destruct (JsMap.get (hit_ip h) rl) as [cur|] eqn:G; cbn [fst snd].
  - destruct (B _ _ G) as (C & P & T & L).
    destruct (Z.gtb_spec (hit_time h - window_ts cur) RATELIMIT_WINDOW_MS) as [W|W];
      cbn [fst snd].
    + split.
      * intros ip' N. destruct (Js.eqb ip' (hit_ip h)) eqn:E.
        -- apply js_eqb_eq in E. subst ip'. rewrite get_set_same in N. discriminate N.
        -- rewrite (get_set_other _ _ _ _ E) in N. now apply OtherNone.
      * intros ip' w Gw. destruct (Js.eqb ip' (hit_ip h)) eqn:E.
        -- apply js_eqb_eq in E. subst ip'. rewrite get_set_same in Gw.
           apply (Fresh log); [|exact Gw].
           intros hp Hin Hip Hp. specialize (L hp Hin Hip Hp). lia.
        -- rewrite (get_set_other _ _ _ _ E) in Gw. now apply Other.
    + destruct (Z.geb_spec (count cur) RATELIMIT_MAX) as [M|M]; cbn [fst snd].
      * split.
        -- intros ip' N. destruct (Js.eqb ip' (hit_ip h)) eqn:E;
             [apply js_eqb_eq in E; subst ip'; congruence | now apply OtherNone].
        -- intros ip' w Gw. destruct (Js.eqb ip' (hit_ip h)) eqn:E;
             [|now apply Other].
           apply js_eqb_eq in E. subst ip'.
           assert (w = cur) by congruence. subst w.
           split; [exact C|]. split; [|split; [lia|]].
           ++ rewrite passed_snoc. cbn [fst snd]. rewrite andb_false_r. cbn [andb]. lia.
           ++ intros hp Hin Hip Hp. apply in_app_or in Hin.
              destruct Hin as [Hin|[<-|[]]]; [now apply L | discriminate Hp].
      * split.
        -- intros ip' N. destruct (Js.eqb ip' (hit_ip h)) eqn:E.
           ++ apply js_eqb_eq in E. subst ip'. rewrite get_set_same in N. discriminate N.
           ++ rewrite (get_set_other _ _ _ _ E) in N. now apply OtherNone.
        -- intros ip' w Gw. destruct (Js.eqb ip' (hit_ip h)) eqn:E.
           ++ apply js_eqb_eq in E. subst ip'. rewrite get_set_same in Gw.
              injection Gw as <-. cbn [count window_ts].
              split; [lia|]. split; [|split; [lia|]].
              ** rewrite passed_snoc, P. cbn [fst snd]. rewrite js_eqb_refl.
                 cbn [andb].
                 destruct (Z.leb_spec (window_ts cur) (hit_time h)); lia.
              ** intros hp Hin Hip Hp. apply in_app_or in Hin.
                 destruct Hin as [Hin|[<-|[]]]; [now apply L | cbn [fst]; lia].
           ++ rewrite (get_set_other _ _ _ _ E) in Gw. now apply Other.
  - split.
    + intros ip' N. destruct (Js.eqb ip' (hit_ip h)) eqn:E.
      * apply js_eqb_eq in E. subst ip'. rewrite get_set_same in N. discriminate N.
      * rewrite (get_set_other _ _ _ _ E) in N. now apply OtherNone.
    + intros ip' w Gw. destruct (Js.eqb ip' (hit_ip h)) eqn:E.
      * apply js_eqb_eq in E. subst ip'. rewrite get_set_same in Gw.
        apply (Fresh log); [|exact Gw].
        intros hp Hin Hip _. exfalso. now apply (A _ G hp Hin).
      * rewrite (get_set_other _ _ _ _ E) in Gw. now apply Other.
Qed.

Lemma limit_all_accounted (hits : list Hit) (now : Z) (log : Log) (rl : JsMap.t Window) :
  in_order now hits ->
  accounted RATELIMIT_MAX RATELIMIT_WINDOW_MS now log rl ->
  let r := limit_all RATELIMIT_MAX RATELIMIT_WINDOW_MS rl hits in
  exists last, accounted RATELIMIT_MAX RATELIMIT_WINDOW_MS last (log ++ combine hits (fst r)) (snd r).
Proof.
  revert now log rl; induction hits as [|h hits IH]; intros now log rl O Acc; cbv zeta.
  - exists now. cbn. now rewrite app_nil_r.
  - destruct O as [Hnow O]. cbn [limit_all].
    pose proof (rateLimit_accounted now log rl h Hnow Acc) as Step. cbv zeta in Step.
    destruct (rateLimit RATELIMIT_MAX RATELIMIT_WINDOW_MS rl (hit_ip h) (hit_time h))
      as [p rl'].
    cbn [fst snd] in Step.
    destruct (IH (hit_time h) (log ++ [(h, p)]) rl' O Step) as (last & Acc').
    cbv zeta in Acc'.
    destruct (limit_all RATELIMIT_MAX RATELIMIT_WINDOW_MS rl' hits) as [ps rl''].
    cbn [fst snd combine] in *. exists last.
    now rewrite <- app_assoc in Acc'.
Qed.

End Limiter.

(** X16.  The limiter's counter is exact and bounded.  After any
    sequence of requests arriving in the order of their times, the
    entry of an address counts the requests of that address let through
    since the entry's window began, and the count is at least 1 and at
    most the larger of 1 and [RATELIMIT_MAX]: the first request of a
    window is always let through, the others only below the limit. *)
Theorem rateLimit_counts (RATELIMIT_MAX RATELIMIT_WINDOW_MS : Z) (since : Z)
    (hits : list Hit) (ip : Js.str) (w : Window) :
  0 <= RATELIMIT_WINDOW_MS ->
  in_order since hits ->
  let r := limit_all RATELIMIT_MAX RATELIMIT_WINDOW_MS [] hits in
  JsMap.get ip (snd r) = Some w ->
  1 <= count w <= Z.max 1 RATELIMIT_MAX
  /\ passed ip (window_ts w) (combine hits (fst r)) = count w
  /\ forall hp, In hp (combine hits (fst r)) -> hit_ip (fst hp) = ip -> snd hp = true ->
                hit_time (fst hp) <= window_ts w + RATELIMIT_WINDOW_MS.
Proof.
  intros Hw O. cbv zeta. intros G.
  assert (Acc0 : accounted RATELIMIT_MAX RATELIMIT_WINDOW_MS since [] []).
  { split; [intros ? _ ? []|]. intros ? ? [=]. }
  destruct (limit_all_accounted RATELIMIT_MAX RATELIMIT_WINDOW_MS Hw hits since [] []
              O Acc0) as (last & [_ B]).
  cbv zeta in B. cbn [app] in B.
  destruct (B ip w G) as (C & P & _ & L). auto.
Qed.

Lemma rateLimit_counts_witness :
  let hits := [ {| hit_ip := Js.lit "a"; hit_time := 0 |};
                {| hit_ip := Js.lit "a"; hit_time := 10 |};
                {| hit_ip := Js.lit "a"; hit_time := 20 |} ] in
  fst (limit_all 2 60000 [] hits) = [true; true; false]
  /\ passed (Js.lit "a") 0 (combine hits (fst (limit_all 2 60000 [] hits))) = 2.
Proof.
  cbv zeta. split; [reflexivity|].
  refine (proj1 (proj2 (rateLimit_counts 2 60000 0
                          [ {| hit_ip := Js.lit "a"; hit_time := 0 |};
                            {| hit_ip := Js.lit "a"; hit_time := 10 |};
                            {| hit_ip := Js.lit "a"; hit_time := 20 |} ]
                          (Js.lit "a") {| count := 2; window_ts := 0 |} _ _ _))).
  - lia.
  - cbn. lia.
  - reflexivity.
Defined.

End LimiterFacts.

(** ** [server.ts]: the API keys *)
Module ApiKeyFacts.
Import Idempotency Server Notions TrimFacts IdempotencyFacts.

Lemma split_commas_no_comma (s : Js.str) :
  Forall (fun piece => ~ In 44%N piece) (split_commas s).
Proof.
  induction s as [|c s IH]; cbn [split_commas].
  - repeat constructor. intros [].
  - destruct (N.eqb_spec c 44) as [E|E].
    + constructor; [intros []|exact IH].
    + destruct (split_commas s) as [|piece pieces].
      * repeat constructor. intros [H|[]]. congruence.
      * inversion IH; subst. constructor; [|assumption].
        intros [H|H]; [congruence | contradiction].
Qed.

Lemma API_KEYS_shape (env_API_KEYS env_API_KEY : option Js.str) (k : Js.str) :
  In k (API_KEYS env_API_KEYS env_API_KEY) ->
  k <> [] /\ tight k /\ ~ In 44%N k.
Proof.
  unfold API_KEYS. intros H. apply filter_In in H. destruct H as [H L].
  apply in_map_iff in H. destruct H as (piece & <- & Hp).
  split; [intros E; rewrite E in L; discriminate L|].
  destruct (trim_spec piece) as (before & after & E & _ & _ & T).
  split; [exact T|].
  pose proof (split_commas_no_comma
                (or_else env_API_KEYS (or_else env_API_KEY []))) as F.
  rewrite Forall_forall in F. specialize (F piece Hp).
  intros C. apply F. rewrite E. apply in_or_app. right. apply in_or_app. now left.
Qed.

(** X17.  Outside test mode [requireApiKey] lets a request through
    exactly when the first value of its [x-api-key] header is one of the
    configured keys; in test mode it lets everything through.  A
    configured key is a comma-separated piece of the setting with the
    white space around it removed: it is never empty, has no white
    space at either end and holds no comma, so a header value that is
    empty or padded with white space is never accepted. *)
Theorem requireApiKey_accepts (env_API_KEYS env_API_KEY : option Js.str)
    (x_api_key : header) :
  let keys := API_KEYS env_API_KEYS env_API_KEY in
  (requireApiKey false keys x_api_key = None
   <-> exists k, first_value x_api_key = Some k /\ In k keys)
  /\ requireApiKey true keys x_api_key = None
  /\ forall k, In k keys -> k <> [] /\ tight k /\ ~ In 44%N k.
Proof.
  cbv zeta. split; [|split; [reflexivity | apply API_KEYS_shape]].
  unfold requireApiKey.
  pose proof (API_KEYS_shape env_API_KEYS env_API_KEY) as Shape.
  destruct (API_KEYS env_API_KEYS env_API_KEY) as [|k0 keys] eqn:K; cbn [List.length Nat.eqb].
  - split; [discriminate|]. intros (k & _ & []).
  - destruct (first_value x_api_key) as [[|c s]|].
    + split; [discriminate|]. intros (k & [= <-] & Hin).
      exfalso. now destruct (Shape [] Hin).
    + destruct (existsb (Js.eqb (c :: s)) (k0 :: keys)) eqn:Ex; cbn [negb].
      * split; [intros _|reflexivity].
        apply existsb_exists in Ex. destruct Ex as (k & Hin & E).
        apply js_eqb_eq in E. subst k. now exists (c :: s).
      * split; [discriminate|]. intros (k & [= <-] & Hin).
        assert (existsb (Js.eqb (c :: s)) (k0 :: keys) = true)
          by (apply existsb_exists; exists (c :: s); split;
              [exact Hin | apply js_eqb_refl]).
        congruence.
    + split; [discriminate|]. intros (k & [=] & _).
Qed.

End ApiKeyFacts.

(** ** [server.ts]: the order of the middleware *)
Module ChainFacts.
Import Idempotency Server IdempotencyFacts.

Section Chain.
Context {body : Type} (error_body : string -> body) (IDEMP_MAX_ENTRIES : Z).

Lemma get_filter_kept {V} (p : Js.str * V -> bool) (k : Js.str) (e : V) (m : JsMap.t V) :
  JsMap.get k m = Some e -> p (k, e) = true -> JsMap.get k (filter p m) = Some e.
Proof.
  induction m as [|[k' v'] m IH]; cbn [JsMap.get filter]; [discriminate|].
  destruct (Js.eqb k k') eqn:E.
  - apply js_eqb_eq in E. subst k'. intros [= ->] P. rewrite P.
    cbn [JsMap.get]. now rewrite js_eqb_refl.
  - intros G P. destruct (p (k', v')); cbn [JsMap.get]; rewrite ?E; now apply IH.
Qed.

(** Below its capacity the cache keeps the response it has just been
    given. *)
Lemma record_present (st : State body) (key : Js.str) (sc : Z) (b : body) (now : Z) :
  JsMap.size (idempotencyCache st) < IDEMP_MAX_ENTRIES ->
  JsMap.get key (idempotencyCache (record body IDEMP_MAX_ENTRIES key sc b now now st))
  = Some {| status := if sc =? 0 then 200 else sc; cached_body := b; ts := now |}.
Proof.
  intros Sz. unfold Idempotency.record. cbn [idempotencyCache].
  set (e := {| status := if sc =? 0 then 200 else sc; cached_body := b; ts := now |}).
  set (c1 := JsMap.set key e (idempotencyCache st)).
  assert (G1 : JsMap.get key c1 = Some e) by apply get_set_same.
  assert (L1 : (List.length c1 <= S (List.length (idempotencyCache st)))%nat)
    by apply CacheFacts.set_length.
  set (c2 := if (idemSetCounter st + 1) mod 100 =? 0
             then filter (fun kv => negb (now - ts (snd kv) >=? IDEMP_TTL_MS)) c1
             else c1).
  assert (G2 : JsMap.get key c2 = Some e).
  { subst c2. destruct ((idemSetCounter st + 1) mod 100 =? 0); [|exact G1].
    apply get_filter_kept; [exact G1|]. cbn [snd]. subst e. cbn [ts].
    rewrite Z.sub_diag. reflexivity. }
  assert (L2 : (List.length c2 <= List.length c1)%nat).
  { subst c2. destruct ((idemSetCounter st + 1) mod 100 =? 0); [|lia].
    apply CacheFacts.filter_length_le. }
  destruct (Z.gtb_spec (JsMap.size c2) IDEMP_MAX_ENTRIES) as [G|G]; [|exact G2].
  exfalso. unfold JsMap.size in *. lia.
Qed.

Context (RATELIMIT_MAX RATELIMIT_WINDOW_MS : Z) (test_mode : bool) (keys : list Js.str).

Lemma serve_chain_replay (st : ServerState body) (x : Incoming body) (k : Js.str)
    (e : CachedResponse body) :
  method (base x) = Js.lit "POST" ->
  getIdemKey (base x) = Some k ->
  JsMap.get k (idempotencyCache (idem st)) = Some e ->
  arrival x - ts e < IDEMP_TTL_MS ->
  serve_chain body error_body IDEMP_MAX_ENTRIES RATELIMIT_MAX RATELIMIT_WINDOW_MS
    test_mode keys st x
  = ((status e, cached_body e), st).
Proof.
  intros Hm Hk Hg Ht. unfold serve_chain.
  now rewrite (replay_cached (error_body "MissingIdempotencyKey") (idem st) (base x)
                 (arrival x) k e Hm Hk Hg Ht).
Qed.

(** X18.  A POST whose Idempotency-Key has an entry younger than 24
    hours in the cache is answered from the cache before the rate
    limiter and the API-key check are reached: the answer is the
    stored one whatever the [x-api-key] header and the configured keys
    are, the limiter's counters are left as they were, and the route's
    handler is not run. *)
Theorem replay_precedes_limiter_and_key_check (st : ServerState body)
    (x : Incoming body) (k : Js.str) (e : CachedResponse body) :
  method (base x) = Js.lit "POST" ->
  getIdemKey (base x) = Some k ->
  JsMap.get k (idempotencyCache (idem st)) = Some e ->
  arrival x - ts e < IDEMP_TTL_MS ->
  serve_chain body error_body IDEMP_MAX_ENTRIES RATELIMIT_MAX RATELIMIT_WINDOW_MS
    test_mode keys st x
  = ((status e, cached_body e), st).
Proof. apply serve_chain_replay. Qed.

(** X19.  A request turned away by the rate limiter leaves its 429
    answer in the cache under its Idempotency-Key: with the cache below
    its capacity, a later POST with the same key within 24 hours is
    answered 429 again, whatever the limiter's counters are by then,
    without running the handler. *)
Theorem refusal_is_replayed (st : ServerState body) (x y : Incoming body)
    (k : Js.str) (limits : JsMap.t Window) :
  JsMap.size (idempotencyCache (idem st)) < IDEMP_MAX_ENTRIES ->
  enforceIdempotency body (error_body "MissingIdempotencyKey") (idem st) (base x)
    (arrival x) = NextRecording k ->
  fst (rateLimit RATELIMIT_MAX RATELIMIT_WINDOW_MS (rl st)
         (client (ip x) (x_forwarded_for x)) (limited x)) = false ->
  method (base y) = Js.lit "POST" ->
  getIdemKey (base y) = Some k ->
  arrival y - answered x < IDEMP_TTL_MS ->
  let served :=
    serve_chain body error_body IDEMP_MAX_ENTRIES RATELIMIT_MAX RATELIMIT_WINDOW_MS
      test_mode keys st x in
  let later := {| idem := idem (snd served); rl := limits |} in
  fst served = (429, error_body "RateLimitExceeded")
  /\ serve_chain body error_body IDEMP_MAX_ENTRIES RATELIMIT_MAX RATELIMIT_WINDOW_MS
       test_mode keys later y
     = ((429, error_body "RateLimitExceeded"), later).
Proof.
  intros Sz Hx Hr Hm Hk Ht. cbv zeta.
  assert (S1 : serve_chain body error_body IDEMP_MAX_ENTRIES RATELIMIT_MAX
                 RATELIMIT_WINDOW_MS test_mode keys st x
               = ((429, error_body "RateLimitExceeded"),
                  {| idem := record body IDEMP_MAX_ENTRIES k 429
                               (error_body "RateLimitExceeded") (answered x)
                               (answered x) (idem st);
                     rl := snd (rateLimit RATELIMIT_MAX RATELIMIT_WINDOW_MS (rl st)
                                  (client (ip x) (x_forwarded_for x)) (limited x)) |})).
  { unfold serve_chain. rewrite Hx. unfold downstream.
    destruct (rateLimit RATELIMIT_MAX RATELIMIT_WINDOW_MS (rl st)
                (client (ip x) (x_forwarded_for x)) (limited x)) as [pass limits'].
    cbn [fst] in Hr. subst pass. reflexivity. }
  rewrite S1. cbn [fst snd idem]. split; [reflexivity|].
  apply (serve_chain_replay
           {| idem := record body IDEMP_MAX_ENTRIES k 429
                        (error_body "RateLimitExceeded") (answered x) (answered x)
                        (idem st);
              rl := limits |}
           y k
           {| status := 429; cached_body := error_body "RateLimitExceeded";
              ts := answered x |} Hm Hk).
  - cbn [idem]. now rewrite record_present.
  - exact Ht.
Qed.

End Chain.

Lemma replay_precedes_limiter_and_key_check_witness :
  serve_chain string (fun code => code) 100 60 60000 false []
    {| idem := {| idempotencyCache :=
                    [ (Js.lit "k",
                       {| status := 200; cached_body := "first"%string; ts := 1000 |}) ];
                  idemSetCounter := 1 |};
       rl := [] |}
    {| base := {| method := Js.lit "POST"; url := Js.lit "/anchor";
                  idempotency_key := Single (Js.lit " k ");
                  payload := "second"%string |};
       ip := None; x_forwarded_for := None; x_api_key := Absent;
       key_required := true;
       arrival := 2000; limited := 2000; answered := 2001;
       handler_answer := (200, "second"%string) |}
  = ((200, "first"%string),
     {| idem := {| idempotencyCache :=
                     [ (Js.lit "k",
                        {| status := 200; cached_body := "first"%string; ts := 1000 |}) ];
                   idemSetCounter := 1 |};
        rl := [] |}).
Proof.
  refine (replay_precedes_limiter_and_key_check (fun code => code) 100 60 60000 false []
            _ _ (Js.lit "k")
            {| status := 200; cached_body := "first"%string; ts := 1000 |} _ _ _ _).
  - reflexivity.
  - reflexivity.
  - reflexivity.
  - cbn. unfold IDEMP_TTL_MS. lia.
Defined.

Lemma refusal_is_replayed_witness :
  fst (serve_chain string (fun code => code) 100 1 60000 false []
         {| idem := {| idempotencyCache := []; idemSetCounter := 0 |};
            rl := [ (Js.lit "unknown", {| count := 1; window_ts := 0 |}) ] |}
         {| base := {| method := Js.lit "POST"; url := Js.lit "/prove";
                       idempotency_key := Single (Js.lit "k");
                       payload := "first"%string |};
            ip := None; x_forwarded_for := None; x_api_key := Absent;
            key_required := true;
            arrival := 10; limited := 10; answered := 11;
            handler_answer := (200, "first"%string) |})
  = (429, "RateLimitExceeded"%string).
Proof.
  refine (proj1 (refusal_is_replayed (fun code => code) 100 1 60000 false []
                   {| idem := {| idempotencyCache := []; idemSetCounter := 0 |};
                      rl := [ (Js.lit "unknown", {| count := 1; window_ts := 0 |}) ] |}
                   _
                   {| base := {| method := Js.lit "POST"; url := Js.lit "/prove";
                                 idempotency_key := Single (Js.lit "k");
                                 payload := "second"%string |};
                      ip := None; x_forwarded_for := None; x_api_key := Absent;
            key_required := true;
                      arrival := 100000; limited := 100000; answered := 100001;
                      handler_answer := (200, "second"%string) |}
                   (Js.lit "k") [] _ _ _ _ _ _)).
  - cbn. lia.
  - reflexivity.
  - reflexivity.
  - reflexivity.
  - reflexivity.
  - cbn. unfold IDEMP_TTL_MS. lia.
Defined.

End ChainFacts.
(** ** [server.ts]: [/prove] and [/anchor] agree on the proof hash *)
Module ProveFacts.
Import Buf Crypto Server.

Section ProveFacts.
Context (blake3hash : bytes -> bytes) {number : Type}
        (JSON_stringify_number : number -> Js.str)
        (number_lt window_exceeds : number -> number -> bool)
        (number_of_nat : nat -> number).

Lemma normalizeHex32_js_fixed (s : Js.str) (t : string) :
  normalizeHex32_js s = Some t -> normalizeHex32 t = Some t.
Proof.
  unfold normalizeHex32_js. destruct (text_of s) as [u|]; [|discriminate].
  intros H. now destruct (HexFacts.normalizeHex32_fixed u t H) as (_ & _ & F).
Qed.

(** X20.  What [/prove] stores is what [/anchor] recomputes.  When the
    handler answers with an artifact id and a proof hash, the proof
    hash that [/anchor] later recomputes from the stored artifact is
    defined, its hexadecimal text is the proof hash of the answer, and
    the identifier derived from it is the artifact id of the answer,
    under which the artifact was stored. *)
Theorem prove_hash_is_recomputed (artifact : value number) (written : bool)
    (id hash : string) (kept : string * Stored number) :
  prove blake3hash number JSON_stringify_number number_lt window_exceeds number_of_nat
    artifact written
  = Some (Proved id hash, Some kept) ->
  fst kept = id
  /\ stored_proof_hash (snd kept) = hash
  /\ Anchor.artifact_id (stored_artifact (snd kept)) = Some id
  /\ exists h,
       Anchor.recompute_proof_hash blake3hash number JSON_stringify_number
         (stored_artifact (snd kept)) = Some h
       /\ toString_hex h = hash
       /\ hexTo32 hash = h
       /\ uuidFromHash32 h = Some id.
Proof.
  unfold prove. intros H.
  assert (A : exists props, artifact = Object props).
  { destruct artifact; try discriminate H; eauto. }
  destruct A as [props ->].
  destruct (field number (Object props) "start_slot"%string) as [| | |start_slot| | | |];
    try discriminate H.
  destruct (field number (Object props) "end_slot"%string) as [| | |end_slot| | | |];
    try discriminate H.
  destruct (field number (Object props) "state_root_before"%string) as [| | | |before| | |];
    try discriminate H.
  destruct (field number (Object props) "state_root_after"%string) as [| | | |after| | |];
    try discriminate H.
  destruct (negb (isHex32_js before) || negb (isHex32_js after)); [discriminate H|].
  destruct (number_lt end_slot start_slot); [discriminate H|].
  destruct (window_exceeds start_slot end_slot); [discriminate H|].
  destruct (normalizeHex32_js before) as [srb|] eqn:Nb; [|discriminate H].
  destruct (normalizeHex32_js after) as [sra|] eqn:Na; [|discriminate H].
  destruct (canonicalize JSON_stringify_number
              (Object
                 [ (Js.lit "start_slot", Number start_slot);
                   (Js.lit "end_slot", Number end_slot);
                   (Js.lit "state_root_before", String (Js.lit srb));
                   (Js.lit "state_root_after", String (Js.lit sra)) ]))
    as [minimal|] eqn:M; [|discriminate H].
  destruct (uuidFromHash32 (blake3hash (Utf8.encode minimal))) as [artifactId|] eqn:U;
    [|discriminate H].
  match type of H with
  | context [canonicalize ?f ?v] =>
      destruct (canonicalize f v) as [canonical|]; [|discriminate H]
  end.
  match type of H with
  | context [if ?b then _ else _] => destruct b; [discriminate H|]
  end.
  destruct written; [|discriminate H].
  injection H as <- <- <-.
  cbn [fst snd stored_artifact stored_proof_hash Anchor.artifact_id].
  repeat split.
  exists (blake3hash (Utf8.encode minimal)).
  split; [|split; [reflexivity|split; [apply HexFacts.from_hex_toString_hex|exact U]]].
  unfold Anchor.recompute_proof_hash.
  cbn [Anchor.state_root_before Anchor.state_root_after Anchor.start_slot
       Anchor.end_slot Anchor.or_empty Anchor.optional].
  rewrite (normalizeHex32_js_fixed _ _ Nb), (normalizeHex32_js_fixed _ _ Na), M.
  reflexivity.
Qed.

End ProveFacts.

Lemma prove_hash_is_recomputed_witness :
  let roots := "00112233445566778899AABBCCDDEEFF00112233445566778899aabbccddeeff"%string in
  let request :=
    Object [ (Js.lit "start_slot", Number 5); (Js.lit "end_slot", Number 9);
             (Js.lit "state_root_before", String (Js.lit roots));
             (Js.lit "state_root_after", String (Js.lit roots)) ] in
  exists id hash kept,
    prove Examples.toy_hash Z (fun n => Js.lit (Codec.decimal n)) Z.ltb
      (fun a b => b - a + 1 >? 2048) Z.of_nat request true
    = Some (Proved id hash, Some kept)
    /\ Anchor.recompute_proof_hash Examples.toy_hash Z (fun n => Js.lit (Codec.decimal n))
         (stored_artifact (snd kept))
       = Some (hexTo32 hash).
Proof.
  cbv zeta.
  destruct (prove Examples.toy_hash Z (fun n => Js.lit (Codec.decimal n)) Z.ltb
              (fun a b => b - a + 1 >? 2048) Z.of_nat
              (Object
                 [ (Js.lit "start_slot", Number 5); (Js.lit "end_slot", Number 9);
                   (Js.lit "state_root_before",
                    String (Js.lit "00112233445566778899AABBCCDDEEFF00112233445566778899aabbccddeeff"));
                   (Js.lit "state_root_after",
                    String (Js.lit "00112233445566778899AABBCCDDEEFF00112233445566778899aabbccddeeff")) ])
              true) as [[[message|id hash] [kept|]]|] eqn:P;
    try (vm_compute in P; discriminate P).
  exists id, hash, kept. split; [reflexivity|].
  destruct (prove_hash_is_recomputed Examples.toy_hash (fun n => Js.lit (Codec.decimal n))
              Z.ltb (fun a b => b - a + 1 >? 2048) Z.of_nat _ _ _ _ _ P)
    as (_ & _ & _ & h & R & _ & E & _).
  now rewrite E.
Defined.

End ProveFacts.
(** ** [index.ts]: what a reconciliation cycle leaves alone *)
Module ReconcileFacts.
Import Indexer IndexerNotions IndexerFacts.

Lemma filter_all {A} (l : list A) : filter (fun _ => true) l = l.
Proof. induction l as [|x l IH]; [reflexivity|]. cbn. now rewrite IH. Qed.

Lemma filter_filter {A} (p q : A -> bool) (l : list A) :
  filter q (filter p l) = filter (fun x => p x && q x) l.
Proof.
  induction l as [|x l IH]; [reflexivity|]. cbn [filter].
  destruct (p x); cbn [filter andb]; rewrite IH; reflexivity.
Qed.

Lemma map_filter {A B} (f : A -> B) (p : B -> bool) (l : list A) :
  map f (filter (fun x => p (f x)) l) = filter p (map f l).
Proof.
  induction l as [|x l IH]; [reflexivity|]. cbn [filter map].
  destruct (p (f x)); cbn [map]; now rewrite IH.
Qed.

Lemma update_level_columns (level : Z) (sig : string) (db : Database) :
  map identity (proofs (update_level level sig db)) = map identity (proofs db).
Proof.
  unfold update_level. cbn [proofs]. rewrite map_map. apply map_ext.
  intros r. now destruct (String.eqb (txid r) sig).
Qed.

Lemma delete_by_txid_columns (sig : string) (db : Database) :
  map identity (proofs (delete_by_txid sig db))
  = filter (fun k => negb (String.eqb (fst (fst k)) sig)) (map identity (proofs db)).
Proof.
  unfold delete_by_txid. cbn [proofs].
  now rewrite <- (map_filter identity (fun k => negb (String.eqb (fst (fst k)) sig))).
Qed.

Lemma reconcile_row_thins (w : World) (db : Database) (row : Row) :
  thinned (proofs db) (proofs (reconcile_row w db row)).
Proof.
  unfold thinned, reconcile_row.
  assert (Same : forall d, map identity (proofs d) = map identity (proofs db) ->
                 exists p, map identity (proofs d)
                           = filter (fun k => p (fst (fst k))) (map identity (proofs db))).
  { intros d E. exists (fun _ => true). now rewrite filter_all. }
  assert (Del : exists p, map identity (proofs (delete_by_txid (row_txid row) db))
                          = filter (fun k => p (fst (fst k))) (map identity (proofs db))).
  { exists (fun s => negb (String.eqb s (row_txid row))). apply delete_by_txid_columns. }
  destruct (String.eqb (row_txid row) EmptyString); [now apply Same|].
  destruct (getSignatureStatus w (row_txid row)) as [[[|] cs]|].
  - destruct (older_than_60s _ _); [exact Del | now apply Same].
  - destruct (level_of cs >=? 1); apply Same; apply update_level_columns.
  - destruct (older_than_60s _ _); [exact Del | now apply Same].
Qed.

Lemma thinned_trans (a b c : list ProofRow) : thinned a b -> thinned b c -> thinned a c.
Proof.
  intros [p P] [q Q]. exists (fun s => p s && q s).
  rewrite Q, P. apply filter_filter.
Qed.

Lemma fold_thins (w : World) (rows : list Row) (db : Database) :
  thinned (proofs db) (proofs (fold_left (reconcile_row w) rows db)).
Proof.
  revert db; induction rows as [|row rows IH]; intros db; cbn [fold_left].
  - exists (fun _ => true). now rewrite filter_all.
  - eapply thinned_trans; [apply reconcile_row_thins | apply IH].
Qed.

Lemma reconcilePending_thins (w : World) (db : Database) :
  thinned (proofs db) (proofs (reconcilePending w db)).
Proof.
  unfold reconcilePending.
  destruct (map (to_row w) (select_pending db)) as [|row rows] eqn:E.
  - exists (fun _ => true). now rewrite filter_all.
  - cbn [proofs]. apply (fold_thins w (row :: rows) db).
Qed.

Lemma txid_of_identity (l : list ProofRow) :
  map txid l = map (fun k => fst (fst k)) (map identity l).
Proof. rewrite map_map. reflexivity. Qed.

Lemma filter_length {A} (p : A -> bool) (l : list A) :
  (List.length (filter p l) <= List.length l)%nat.
Proof.
  induction l as [|x l IH]; [cbn; lia|]. cbn [filter].
  destruct (p x); cbn [List.length]; lia.
Qed.

(** X21.  A reconciliation cycle adds no row and rewrites no
    transaction id, time stamp or sequence number: every row of the
    table afterwards carries the three columns of a row that was there
    before, the table has not grown, and transaction ids that were
    unique are still unique. *)
Theorem reconcilePending_adds_nothing (w : World) (db : Database) :
  let db' := reconcilePending w db in
  (forall r', In r' (proofs db') ->
              exists r, In r (proofs db)
                        /\ txid r' = txid r /\ ts r' = ts r /\ seq r' = seq r)
  /\ (List.length (proofs db') <= List.length (proofs db))%nat
  /\ (NoDup (map txid (proofs db)) -> NoDup (map txid (proofs db'))).
Proof.
  cbv zeta. destruct (reconcilePending_thins w db) as [p P]. split; [|split].
  - intros r' Hr'. apply (in_map identity) in Hr'. rewrite P in Hr'.
    apply filter_In in Hr'. destruct Hr' as [Hr' _].
    apply in_map_iff in Hr'. destruct Hr' as (r & E & Hr).
    exists r. split; [exact Hr|]. unfold identity in E.
    injection E as E1 E2 E3. auto.
  - rewrite <- (length_map identity (proofs (reconcilePending w db))), P.
    rewrite <- (length_map identity (proofs db)). apply filter_length.
  - intros ND. rewrite txid_of_identity, P, map_filter, <- txid_of_identity.
    now apply NoDup_filter.
Qed.

(** X22.  A cycle touches only the rows it selects.  With unique
    transaction ids, a row that is already finalized, or that is not
    among the 100 selected ones, is in the table afterwards exactly as
    it was. *)
Theorem unselected_rows_untouched (w : World) (db : Database) (r : ProofRow) :
  NoDup (map txid (proofs db)) ->
  In r (proofs db) ->
  2 <= commitment_level r \/ ~ In r (select_pending db) ->
  lookup (txid r) (reconcilePending w db) = Some r
  /\ In r (proofs (reconcilePending w db)).
Proof.
  intros ND Hr Hsel.
  assert (NS : ~ In r (select_pending db)).
  { destruct Hsel as [F|N]; [|exact N]. intros S1.
    apply select_pending_In in S1. lia. }
  assert (L : lookup (txid r) (reconcilePending w db) = Some r).
  { rewrite lookup_reconcilePending, lookup_fold_others; [now apply lookup_In|].
    intros row Hrow E. apply in_map_iff in Hrow. destruct Hrow as (x & <- & Hx).
    cbn [to_row row_txid] in E. apply NS.
    pose proof (lookup_In db x ND (proj1 (select_pending_In db x Hx))) as Lx.
    pose proof (lookup_In db r ND Hr) as Lr.
    rewrite E in Lx. assert (x = r) by congruence. now subst x. }
  split; [exact L|]. unfold lookup in L. now apply find_some in L.
Qed.

Lemma unselected_rows_untouched_witness :
  lookup "done" (reconcilePending Examples.failed_world
                   {| proofs := [ {| txid := "done"; ts := 0; commitment_level := 2;
                                     seq := 1 |};
                                  {| txid := "sig"; ts := 0; commitment_level := 0;
                                     seq := 2 |} ];
                      last_signature := None;
                      last_reconciled_ts := None |})
  = Some {| txid := "done"; ts := 0; commitment_level := 2; seq := 1 |}.
Proof.
  refine (proj1 (unselected_rows_untouched Examples.failed_world _
                   {| txid := "done"; ts := 0; commitment_level := 2; seq := 1 |}
                   _ _ _)).
  - repeat constructor; cbn; intuition discriminate.
  - left. reflexivity.
  - left. cbn. lia.
Defined.

Lemma last_signature_reconcile_row (w : World) (db : Database) (row : Row) :
  last_signature (reconcile_row w db row)
  = if advances w (row_txid row) then Some (row_txid row) else last_signature db.
Proof.
  unfold reconcile_row, advances.
  destruct (String.eqb (row_txid row) EmptyString); [reflexivity|]. cbn [negb andb].
  destruct (getSignatureStatus w (row_txid row)) as [[[|] cs]|].
  - destruct (older_than_60s _ _); reflexivity.
  - destruct (level_of cs >=? 1); reflexivity.
  - destruct (older_than_60s _ _); reflexivity.
Qed.

Lemma find_append {A} (p : A -> bool) (a b : list A) :
  find p (a ++ b) = match find p a with Some x => Some x | None => find p b end.
Proof.
  induction a as [|x a IH]; [reflexivity|]. cbn [app find].
  destruct (p x); [reflexivity | exact IH].
Qed.

Lemma last_signature_fold (w : World) (rows : list Row) (db : Database) :
  last_signature (fold_left (reconcile_row w) rows db)
  = match find (fun row => advances w (row_txid row)) (rev rows) with
    | Some row => Some (row_txid row)
    | None => last_signature db
    end.
Proof.
  revert db; induction rows as [|row rows IH]; intros db; [reflexivity|].
  cbn [fold_left rev]. rewrite IH, last_signature_reconcile_row.
  rewrite find_append. destruct (find _ (rev rows)); [reflexivity|].
  cbn [find]. destruct (advances w (row_txid row)); reflexivity.
Qed.

(** X23.  The cursor [last_signature] after a cycle is the signature
    of the last selected row that the ledger reports confirmed or
    finalized without an error, and it is unchanged when there is no
    such row.  The time of the last reconciliation is set exactly when some row
    was selected. *)
Theorem reconcilePending_cursor (w : World) (db : Database) :
  let db' := reconcilePending w db in
  last_signature db'
  = match find (fun r => advances w (txid r)) (rev (select_pending db)) with
    | Some r => Some (txid r)
    | None => last_signature db
    end
  /\ last_reconciled_ts db'
     = match select_pending db with
       | [] => last_reconciled_ts db
       | _ :: _ => Some (NOW w)
       end.
Proof.
  cbv zeta. unfold reconcilePending.
  assert (F : forall l,
             match find (fun row => advances w (row_txid row)) (rev (map (to_row w) l)) with
             | Some row => Some (row_txid row)
             | None => last_signature db
             end
             = match find (fun r => advances w (txid r)) (rev l) with
               | Some r => Some (txid r)
               | None => last_signature db
               end).
  { intros l. rewrite <- map_rev. induction (rev l) as [|x xs IH]; [reflexivity|].
    cbn [map find to_row row_txid]. destruct (advances w (txid x)); [reflexivity|exact IH]. }
  destruct (select_pending db) as [|r sel] eqn:E.
  - cbn [map rev find]. split; reflexivity.
  - cbn [last_signature last_reconciled_ts]. split; [|reflexivity].
    change (to_row w r :: map (to_row w) sel) with (map (to_row w) (r :: sel)).
    rewrite last_signature_fold. apply F.
Qed.

End ReconcileFacts.
(** ** [server.ts]: the key file, the comparison of keys and [LOCAL_MODE] *)
Module LocalModeFacts.
Import Buf Crypto Anchor AnchorFacts.

(** X27.  [bytesEq] answers [true] exactly when the two arrays hold
    the same bytes; arrays of different lengths are never equal. *)
Theorem bytesEq_decides_equality (a b : bytes) :
  (bytesEq a b = true <-> a = b)
  /\ (List.length a <> List.length b -> bytesEq a b = false).
Proof.
  split; [apply bytesEq_spec|]. intros L.
  destruct (bytesEq a b) eqn:E; [|reflexivity].
  apply bytesEq_spec in E. subst b. contradiction.
Qed.

Section LocalModeFacts.
Context (blake3hash : bytes -> bytes) (ed25519_sign : bytes -> bytes -> bytes)
        {number : Type} (JSON_stringify_number : number -> Js.str)
        (BigInt : number -> option Z).

(** X24.  A key that [loadAggregatorSecret] returns is 64 bytes long
    whatever the shape of the key file, so neither signing nor the
    derivation of the public key throws on it; the public key is its
    last 32 bytes. *)
Theorem loaded_key_is_usable (file : option KeyFile) (key message : bytes) :
  loadAggregatorSecret file = Some key ->
  List.length key = 64%nat
  /\ nacl_sign_detached ed25519_sign message key = Some (ed25519_sign message key)
  /\ exists public,
       keyPair_fromSecretKey key = Some public
       /\ List.length public = 32%nat
       /\ firstn 32 key ++ public = key.
Proof.
  intros H. pose proof (loadAggregatorSecret_length _ _ H) as L.
  split; [exact L|]. split; [now apply nacl_sign_detached_64|].
  exists (skipn 32 key). unfold keyPair_fromSecretKey, subarray. rewrite L.
  cbn [Nat.eqb]. split; [|split].
  - f_equal. apply firstn_all2. rewrite length_skipn. lia.
  - rewrite length_skipn. lia.
  - apply firstn_skipn.
Qed.

(** X25.  In [LOCAL_MODE] the route answers without the ledger: the
    answer is 400 [BadRequest], 404 [NotFound], 500 [Unhandled], or a
    success whose transaction id is [LOCAL-] followed by the first 16
    characters of [ds_hash] and whose sequence number is the local one
    plus 1.  The last sequence number, the configuration and the
    outcome of a submission have no influence on it, and the key is
    compared with nothing. *)
Theorem local_mode_answers (env : Env number)
    (last_seq : option Z) (config : option Config) (outcome : Errors.thrown + string) :
  LOCAL_MODE env = true ->
  let answer :=
    anchor blake3hash ed25519_sign number JSON_stringify_number BigInt env in
  (answer = Failure 400 "BadRequest"
   \/ answer = Failure 404 "NotFound"
   \/ answer = Failure 500 "Unhandled"
   \/ exists signature ds_hash,
        answer = Anchored signature ds_hash ("LOCAL-" ++ slice ds_hash 0 16)
                   (Some (localSeq env + 1)))
  /\ anchor blake3hash ed25519_sign number JSON_stringify_number BigInt
       {| LOCAL_MODE := true;
          CHAIN_ID := CHAIN_ID env;
          PROGRAM_ID := PROGRAM_ID env;
          localSeq := localSeq env;
          body_artifact_id := body_artifact_id env;
          found_artifact := found_artifact env;
          fetched_last_seq := last_seq;
          fetched_config := config;
          key_file := key_file env;
          submission := outcome |}
     = answer.
Proof.
  intros Hl. cbv zeta. unfold anchor, before_signing.
  cbn [LOCAL_MODE CHAIN_ID PROGRAM_ID localSeq body_artifact_id found_artifact
       fetched_last_seq fetched_config key_file submission].
  rewrite Hl.
  destruct (body_artifact_id env); [|split; [auto | reflexivity]].
  destruct (found_artifact env) as [artifact|]; [|split; [auto | reflexivity]].
  destruct (recompute_proof_hash _ _ _ artifact) as [proofHash|];
    [|split; [unfold unhandled; auto | reflexivity]].
  unfold anchor_local, unhandled.
  cbn [LOCAL_MODE CHAIN_ID PROGRAM_ID localSeq body_artifact_id found_artifact
       fetched_last_seq fetched_config key_file submission].
  repeat match goal with
         | |- context [match ?x with Some _ => _ | None => _ end] =>
             destruct x; [|split; [auto | reflexivity]]
         end.
  split; [|reflexivity]. right. right. right. eauto.
Qed.

End LocalModeFacts.

Lemma loaded_key_is_usable_witness :
  exists public,
    keyPair_fromSecretKey (uint8array (repeat 7 64)) = Some public
    /\ List.length public = 32%nat
    /\ firstn 32 (uint8array (repeat 7 64)) ++ public = uint8array (repeat 7 64).
Proof.
  refine (proj2 (proj2 (loaded_key_is_usable Examples.toy_sign
                          (Some (KeyArray (repeat 7 64))) _ [] _))).
  reflexivity.
Defined.

Lemma local_mode_answers_witness :
  anchor Examples.toy_hash Examples.toy_sign Z (fun n => Js.lit (Codec.decimal n)) Some
    {| LOCAL_MODE := true;
       CHAIN_ID := CHAIN_ID Examples.rotated_env;
       PROGRAM_ID := PROGRAM_ID Examples.rotated_env;
       localSeq := 4;
       body_artifact_id := body_artifact_id Examples.rotated_env;
       found_artifact := found_artifact Examples.rotated_env;
       fetched_last_seq := None;
       fetched_config := None;
       key_file := key_file Examples.rotated_env;
       submission := inl (Errors.OtherValue []) |}
  = anchor Examples.toy_hash Examples.toy_sign Z (fun n => Js.lit (Codec.decimal n)) Some
      {| LOCAL_MODE := true;
         CHAIN_ID := CHAIN_ID Examples.rotated_env;
         PROGRAM_ID := PROGRAM_ID Examples.rotated_env;
         localSeq := 4;
         body_artifact_id := body_artifact_id Examples.rotated_env;
         found_artifact := found_artifact Examples.rotated_env;
         fetched_last_seq := fetched_last_seq Examples.rotated_env;
         fetched_config := fetched_config Examples.rotated_env;
         key_file := key_file Examples.rotated_env;
         submission := submission Examples.rotated_env |}.
Proof.
  refine (proj2 (local_mode_answers Examples.toy_hash Examples.toy_sign
                   (fun n => Js.lit (Codec.decimal n)) Some
                   {| LOCAL_MODE := true;
                      CHAIN_ID := CHAIN_ID Examples.rotated_env;
                      PROGRAM_ID := PROGRAM_ID Examples.rotated_env;
                      localSeq := 4;
                      body_artifact_id := body_artifact_id Examples.rotated_env;
                      found_artifact := found_artifact Examples.rotated_env;
                      fetched_last_seq := fetched_last_seq Examples.rotated_env;
                      fetched_config := fetched_config Examples.rotated_env;
                      key_file := key_file Examples.rotated_env;
                      submission := submission Examples.rotated_env |}
                   None None (inl (Errors.OtherValue [])) _)).
  reflexivity.
Defined.

End LocalModeFacts.
